(** * Crockford Base32 codec (lib/index.cjs): shallow embedding and properties

    The development follows the source file top-down: the JavaScript
    primitives the codec relies on, the alphabet table built by
    [createAlphabetLookups], alphabet validation ([toAlphabet], [isAlphabet]),
    the class constructor, the integer codec ([encodeInt], [decodeInt],
    [encodeBigInt], [decodeBigInt]) and the byte codec (the string forms
    [encodeToString] / [decodeFromString] and the buffer forms [encode] /
    [decode]).

    Conventions of the embedding.
    - A JavaScript string is the list of its UTF-16 code units, each a [Z].
      A one-character string (the value of [s[i]], a key of the lookup
      objects) is its code unit; [charCodeAt] is then the identity.
    - A [Uint8Array] is a [list Z] of fixed length; a store keeps the value
      modulo 256 and a store outside the bounds is dropped, as typed arrays
      do.
    - The lookup objects made by [ObjectCreate(null)] are finite maps;
      [undefined] is [None].
    - A function that may throw returns [exception + A].
    - Optional [start] / [end] arguments are [option Z] ([None] for
      [undefined]). *)

From Stdlib Require Import ZArith Lia String Ascii.
From stdpp Require Import gmap list.

Local Open Scope Z_scope.

(** ** JavaScript values and primitives *)

Abbreviation jsstring := (list Z).
Abbreviation Uint8Array := (list Z).

(** Code unit of an ASCII character, and a string literal as code units. *)
Definition chr (c : ascii) : Z := Z.of_nat (nat_of_ascii c).
Definition js (s : string) : jsstring := chr <$> list_ascii_of_string s.

Inductive error_kind := TypeError | RangeError | SyntaxError.

(** What the message of a thrown error cites. *)
Inductive message :=
| AlphabetLength
| InvalidAlphabetCharacter (char : Z) (i : nat)
| DuplicateAlphabetCharacter (char : Z) (i : nat)
| BelowMinSafeInteger
| AboveMaxSafeInteger
| InvalidCharacter (char : Z) (i : nat)
| InvalidByte (charCode : Z) (i : nat).

Record exception := Throw { kind : error_kind; msg : message }.

Definition bind {A B} (x : exception + A) (f : A → exception + B) : exception + B :=
  match x with
  | inl e => inl e
  | inr a => f a
  end.

Notation "x <~ e1 ;; e2" := (bind e1 (λ x, e2))
  (at level 100, e1 at next level, right associativity, only parsing).

(** 32-bit integer conversion ([4294967296] is [2^32], [2147483648] is
    [2^31]) and the bitwise operators on Numbers. *)
Definition ToInt32 (z : Z) : Z :=
  let m := z mod 4294967296 in
  if 2147483648 <=? m then m - 4294967296 else m.

Definition js_or (a b : Z) : Z := ToInt32 (Z.lor (ToInt32 a) (ToInt32 b)).
Definition js_and (a b : Z) : Z := ToInt32 (Z.land (ToInt32 a) (ToInt32 b)).
Definition js_shl (a s : Z) : Z := ToInt32 (Z.shiftl (ToInt32 a) (s mod 32)).
Definition js_sar (a s : Z) : Z := Z.shiftr (ToInt32 a) (s mod 32).

Infix ".|" := js_or (at level 50, left associativity).
Infix ".&" := js_and (at level 40, left associativity).
Infix "<<" := js_shl (at level 40, left associativity).
Infix ">>" := js_sar (at level 40, left associativity).

(** [new Uint8Array(n)] and the element store [a[i] = v]. *)
Definition Uint8Array_new (n : nat) : Uint8Array := replicate n 0.
Definition Uint8Array_set (a : Uint8Array) (i : nat) (v : Z) : Uint8Array :=
  <[i := v mod 256]> a.

(** [String.fromCharCode]. *)
Definition StringFromCharCode (c : Z) : Z := c mod 65536.

(** [s[i]] used as a string inside a template literal or a [+=]: the
    character, or the text of [undefined] when [i] is out of range. *)
Definition string_at (s : jsstring) (i : Z) : jsstring :=
  match (if 0 <=? i then s !! Z.to_nat i else None) with
  | Some c => [c]
  | None => js "undefined"
  end.

(** ** Constants *)

Definition BASE : nat := 32.
Definition ALPHABET : jsstring := js "0123456789ABCDEFGHJKMNPQRSTVWXYZ".
Definition BITS_PER_CHAR : Z := 5.
Definition NEGATIVE_CHAR : Z := chr "-".
Definition NumberMAX_SAFE_INTEGER : Z := 2 ^ 53 - 1.
Definition NumberMIN_SAFE_INTEGER : Z := - (2 ^ 53 - 1).

(** ** The alphabet table *)

(** The object returned by [createAlphabetLookups]. *)
Module Lookups.
Record t := Make {
  lookup : gmap Z Z;
  baseMap : list Z;
  baseMapLookup : gmap Z Z
}.
End Lookups.
Abbreviation lookups := Lookups.t.
Abbreviation Lookups := Lookups.Make.

(** One iteration of the loop of [createAlphabetLookups], for index [i]
    and [char = alphabet[i]]. *)
Definition createAlphabetLookups_body (i : nat) (char : Z) (t : lookups) : lookups :=
  let charCode := char in
  let lookup := <[char := Z.of_nat i]> (Lookups.lookup t) in
  let baseMap := Uint8Array_set (Lookups.baseMap t) i charCode in
  let baseMapLookup := <[charCode := Z.of_nat i]> (Lookups.baseMapLookup t) in
  if decide (char = chr "0") then
    let lookup := <[chr "O" := Z.of_nat i]> lookup in
    let baseMapLookup := <[0x4f := Z.of_nat i]> baseMapLookup in
    let lookup := <[chr "o" := Z.of_nat i]> lookup in
    let baseMapLookup := <[0x6f := Z.of_nat i]> baseMapLookup in
    Lookups lookup baseMap baseMapLookup
  else if decide (char = chr "1") then
    let lookup := <[chr "I" := Z.of_nat i]> lookup in
    let baseMapLookup := <[0x49 := Z.of_nat i]> baseMapLookup in
    let lookup := <[chr "i" := Z.of_nat i]> lookup in
    let baseMapLookup := <[0x69 := Z.of_nat i]> baseMapLookup in
    let lookup := <[chr "L" := Z.of_nat i]> lookup in
    let baseMapLookup := <[0x4c := Z.of_nat i]> baseMapLookup in
    let lookup := <[chr "l" := Z.of_nat i]> lookup in
    let baseMapLookup := <[0x6c := Z.of_nat i]> baseMapLookup in
    Lookups lookup baseMap baseMapLookup
  else if 64 <? charCode then
    let lowerCharCode := charCode + 32 in
    let lowerChar := StringFromCharCode lowerCharCode in
    let lookup := <[lowerChar := Z.of_nat i]> lookup in
    let baseMapLookup := <[lowerCharCode := Z.of_nat i]> baseMapLookup in
    Lookups lookup baseMap baseMapLookup
  else
    Lookups lookup baseMap baseMapLookup.

(** [for (let i = 0; i < BASE; i++)] over [chars = alphabet[i..]]. *)
Fixpoint createAlphabetLookups_loop (i : nat) (chars : list Z) (t : lookups) : lookups :=
  match chars with
  | [] => t
  | char :: rest =>
      createAlphabetLookups_loop (S i) rest (createAlphabetLookups_body i char t)
  end.

(** The loop reads [alphabet[0]] .. [alphabet[BASE - 1]]; every caller
    passes a string of length [BASE]. *)
Definition createAlphabetLookups (alphabet : jsstring) : lookups :=
  createAlphabetLookups_loop 0 (take BASE alphabet)
    (Lookups ∅ (Uint8Array_new BASE) ∅).

(** ** The codec object *)

Record Base32Crockford := Codec {
  alphabetSymbol : jsstring;
  alphabetLookupSymbol : gmap Z Z;
  baseMapSymbol : list Z;
  baseMapLookupSymbol : gmap Z Z
}.

Definition instance_of (alphabet : jsstring) : Base32Crockford :=
  let lookups := createAlphabetLookups alphabet in
  Codec alphabet (Lookups.lookup lookups) (Lookups.baseMap lookups)
    (Lookups.baseMapLookup lookups).

(** The module-level default instance, [new Base32Crockford()]:
    [toAlphabet(undefined)] returns [ALPHABET] before it reads anything. *)
Definition base32Crockford : Base32Crockford := instance_of ALPHABET.

(** ** Alphabet validation *)

Fixpoint toAlphabet_loop (alphabetLookup : gmap Z Z) (i : nat) (chars : list Z)
    (uniqueCharsLookup : gmap Z Z) : exception + unit :=
  match chars with
  | [] => inr ()
  | char :: rest =>
      match alphabetLookup !! char with
      | None => inl (Throw SyntaxError (InvalidAlphabetCharacter char i))
      | Some _ =>
          match uniqueCharsLookup !! char with
          | Some _ => inl (Throw SyntaxError (DuplicateAlphabetCharacter char i))
          | None =>
              toAlphabet_loop alphabetLookup (S i) rest
                (<[char := Z.of_nat i]> uniqueCharsLookup)
          end
      end
  end.

Definition toAlphabet (value : option jsstring) : exception + jsstring :=
  match value with
  | None => inr ALPHABET
  | Some value =>
      if decide (length value ≠ BASE) then inl (Throw RangeError AlphabetLength)
      else
        _ <~ toAlphabet_loop (alphabetLookupSymbol base32Crockford) 0 value ∅ ;;
        inr value
  end.

Fixpoint isAlphabet_loop (alphabetLookup : gmap Z Z) (i : nat) (chars : list Z)
    (uniqueCharsLookup : gmap Z Z) : bool :=
  match chars with
  | [] => true
  | char :: rest =>
      match alphabetLookup !! char, uniqueCharsLookup !! char with
      | Some _, None =>
          isAlphabet_loop alphabetLookup (S i) rest
            (<[char := Z.of_nat i]> uniqueCharsLookup)
      | _, _ => false
      end
  end.

Definition isAlphabet (value : jsstring) : bool :=
  if decide (length value ≠ BASE) then false
  else isAlphabet_loop (alphabetLookupSymbol base32Crockford) 0 value ∅.

(** [new Base32Crockford(alphabet)]. *)
Definition new_Base32Crockford (alphabet : option jsstring) : exception + Base32Crockford :=
  alphabet <~ toAlphabet alphabet ;;
  inr (instance_of alphabet).

(** ** Numbers in the integer codec

    [decodeInt] accumulates in Number (binary64) arithmetic.  The values
    that arise there are integers and the infinities: a product or sum of
    integers is the exact integer rounded to the nearest value with a
    53-bit significand, ties to even, and anything that rounds to
    [2 ^ 1024] or more is an infinity. *)

Inductive Number := Finite (z : Z) | PosInfinity | NegInfinity.

(** Nearest integer with a 53-bit significand, for [0 <= z]. *)
Definition round_significand (z : Z) : Z :=
  let bits := Z.log2 z + 1 in
  if bits <=? 53 then z
  else
    let e := bits - 53 in
    let q := Z.shiftr z e in
    let r := Z.land z (Z.ones e) in
    let half := 2 ^ (e - 1) in
    let q := if (half <? r) || ((r =? half) && Z.odd q) then q + 1 else q in
    Z.shiftl q e.

Definition Number_of_exact (z : Z) : Number :=
  let m := round_significand (Z.abs z) in
  if 2 ^ 1024 <=? m then (if z <? 0 then NegInfinity else PosInfinity)
  else Finite (Z.sgn z * m).

(** [x * k] and [x + k] for an integer constant [k] ([0 < k] in the
    product). *)
Definition Number_mul (x : Number) (k : Z) : Number :=
  match x with
  | Finite a => Number_of_exact (a * k)
  | inf => inf
  end.

Definition Number_add (x : Number) (k : Z) : Number :=
  match x with
  | Finite a => Number_of_exact (a + k)
  | inf => inf
  end.

Definition Number_neg (x : Number) : Number :=
  match x with
  | Finite a => Finite (- a)
  | PosInfinity => NegInfinity
  | NegInfinity => PosInfinity
  end.

Definition Number_gt0 (x : Number) : bool :=
  match x with
  | Finite a => 0 <? a
  | PosInfinity => true
  | NegInfinity => false
  end.

(** ** Integer codec *)

(** [while (number) { ... }] of [encodeInt]; [None] when the loop has not
    finished within [fuel] tests of its condition.  [%] is the truncated
    remainder and [MathFloor(number / BASE)] the floored quotient (the
    division by 32 is exact in binary64). *)
Fixpoint encodeInt_loop (fuel : nat) (alphabet : jsstring) (number : Z)
    (result : jsstring) : option jsstring :=
  match fuel with
  | O => None
  | S fuel =>
      if decide (number = 0) then Some result
      else
        encodeInt_loop fuel alphabet (number / Z.of_nat BASE)
          (string_at alphabet (Z.rem number (Z.of_nat BASE)) ++ result)
  end.

(** Loop budget used for a starting value [number]: one test per base-32
    digit and the final one. *)
Definition digits_fuel (number : Z) : nat := Z.to_nat (Z.log2 number) + 2.

(** [encodeInt(value)] for an integer [value]; [None] only if the loop
    exceeds its budget. *)
Definition encodeInt (this : Base32Crockford) (value : Z) : option (exception + jsstring) :=
  let number := value in
  if number <? NumberMIN_SAFE_INTEGER then
    Some (inl (Throw RangeError BelowMinSafeInteger))
  else if NumberMAX_SAFE_INTEGER <? number then
    Some (inl (Throw RangeError AboveMaxSafeInteger))
  else
    let alphabet := alphabetSymbol this in
    if decide (number = 0) then Some (inr (string_at alphabet 0))
    else
      let isNegative := number <? 0 in
      let number := if isNegative then - number else number in
      result ← encodeInt_loop (digits_fuel number) alphabet number [];
      Some (inr (if isNegative then NEGATIVE_CHAR :: result else result)).

Fixpoint decodeInt_loop (alphabetLookup : gmap Z Z) (i : nat) (chars : list Z)
    (result : Number) : exception + Number :=
  match chars with
  | [] => inr result
  | char :: rest =>
      match alphabetLookup !! char with
      | None => inl (Throw SyntaxError (InvalidCharacter char i))
      | Some index =>
          decodeInt_loop alphabetLookup (S i) rest
            (Number_add (Number_mul result (Z.of_nat BASE)) index)
      end
  end.

Definition decodeInt (this : Base32Crockford) (string : jsstring) : exception + Number :=
  let alphabetLookup := alphabetLookupSymbol this in
  let length := length string in
  let isNegative := bool_decide (string !! 0%nat = Some NEGATIVE_CHAR) in
  let start := if isNegative && bool_decide (1 < length)%nat then 1%nat else 0%nat in
  result <~ decodeInt_loop alphabetLookup start (drop start string) (Finite 0) ;;
  inr (if isNegative && Number_gt0 result then Number_neg result else result).

(** BigInt [%] and [/] truncate toward zero. *)
Fixpoint encodeBigInt_loop (fuel : nat) (alphabet : jsstring) (bigInt : Z)
    (result : jsstring) : option jsstring :=
  match fuel with
  | O => None
  | S fuel =>
      if decide (bigInt = 0) then Some result
      else
        encodeBigInt_loop fuel alphabet (Z.quot bigInt 32)
          (string_at alphabet (Z.rem bigInt 32) ++ result)
  end.

Definition encodeBigInt (this : Base32Crockford) (value : Z) : option jsstring :=
  let bigInt := value in
  let alphabet := alphabetSymbol this in
  if decide (bigInt = 0) then Some (string_at alphabet 0)
  else
    let isNegative := bigInt <? 0 in
    let bigInt := if isNegative then - bigInt else bigInt in
    result ← encodeBigInt_loop (digits_fuel bigInt) alphabet bigInt [];
    Some (if isNegative then NEGATIVE_CHAR :: result else result).

Fixpoint decodeBigInt_loop (alphabetLookup : gmap Z Z) (i : nat) (chars : list Z)
    (result : Z) : exception + Z :=
  match chars with
  | [] => inr result
  | char :: rest =>
      match alphabetLookup !! char with
      | None => inl (Throw SyntaxError (InvalidCharacter char i))
      | Some index => decodeBigInt_loop alphabetLookup (S i) rest (result * 32 + index)
      end
  end.

Definition decodeBigInt (this : Base32Crockford) (string : jsstring) : exception + Z :=
  let alphabetLookup := alphabetLookupSymbol this in
  let length := length string in
  let isNegative := bool_decide (string !! 0%nat = Some NEGATIVE_CHAR) in
  let start := if isNegative && bool_decide (1 < length)%nat then 1%nat else 0%nat in
  result <~ decodeBigInt_loop alphabetLookup start (drop start string) 0 ;;
  inr (if isNegative then - result else result).

(** ** Byte codec *)

(** [startIndex] / [endIndex] from an optional [start] / [end] argument
    (already an integer): negative values count from the end, and the
    result is clamped to [0, length]. *)
Definition slice_index (length : nat) (arg : option Z) (default : nat) : nat :=
  match arg with
  | None => default
  | Some v =>
      if v <? 0 then Z.to_nat (Z.max 0 (Z.of_nat length + v))
      else Z.to_nat (Z.min v (Z.of_nat length))
  end.

(** The elements [input[startIndex]] .. [input[endIndex - 1]] that
    [for (let i = startIndex; i < endIndex; i++)] visits. *)
Definition slice_range {A} (input : list A) (startIndex endIndex : nat) : list A :=
  take (endIndex - startIndex) (drop startIndex input).

(** [a[i]] read from a typed array and stored into another one:
    [undefined], read outside the bounds, is stored as 0. *)
Definition Uint8Array_get (a : Uint8Array) (i : Z) : Z :=
  default 0 (if 0 <=? i then a !! Z.to_nat i else None).

(** Body of the loop of [encodeToString]; the state is
    [(result, shift, carry)]. *)
Definition encodeToString_body (alphabet : jsstring) (st : jsstring * Z * Z) (byte : Z)
    : jsstring * Z * Z :=
  let '(result, shift, carry) := st in
  let number := carry .| (byte >> shift) in
  let result := result ++ string_at alphabet (number .& 0x1f) in
  let '(result, shift) :=
    if BITS_PER_CHAR <? shift then
      let shift := shift - BITS_PER_CHAR in
      let number := byte >> shift in
      (result ++ string_at alphabet (number .& 0x1f), shift)
    else (result, shift) in
  let shift := BITS_PER_CHAR - shift in
  let carry := byte << shift in
  let shift := 8 - shift in
  (result, shift, carry).

Definition encodeToString (this : Base32Crockford) (input : Uint8Array)
    (start end_ : option Z) : jsstring :=
  let alphabet := alphabetSymbol this in
  let length := length input in
  let startIndex := slice_index length start 0 in
  let endIndex := slice_index length end_ length in
  let '(result, shift, carry) :=
    foldl (encodeToString_body alphabet) ([], 3, 0)
      (slice_range input startIndex endIndex) in
  if decide (shift ≠ 3) then result ++ string_at alphabet (carry .& 0x1f)
  else result.

(** State of the byte-buffer loops: the output buffer, the bit state and
    the write position. *)
Record buffer_state := BufferState {
  result : Uint8Array;
  shift : Z;
  carry : Z;
  index : nat
}.

Definition encode_body (baseMap : Uint8Array) (st : buffer_state) (byte : Z)
    : buffer_state :=
  let '(BufferState result shift carry index) := st in
  let number := carry .| (byte >> shift) in
  let result := Uint8Array_set result index (Uint8Array_get baseMap (number .& 0x1f)) in
  let index := S index in
  let '(result, index, shift) :=
    if BITS_PER_CHAR <? shift then
      let shift := shift - BITS_PER_CHAR in
      let number := byte >> shift in
      (Uint8Array_set result index (Uint8Array_get baseMap (number .& 0x1f)),
       S index, shift)
    else (result, index, shift) in
  let shift := BITS_PER_CHAR - shift in
  let carry := byte << shift in
  let shift := 8 - shift in
  BufferState result shift carry index.

(** [new Uint8Array(x)] truncates a fractional length [x >= 0]. *)
Definition encode (this : Base32Crockford) (input : Uint8Array)
    (start end_ : option Z) : Uint8Array :=
  let baseMap := baseMapSymbol this in
  let length := length input in
  let startIndex := slice_index length start 0 in
  let endIndex := slice_index length end_ length in
  let newLength := Z.max 0 (Z.of_nat endIndex - Z.of_nat startIndex) in
  let result := Uint8Array_new (Z.to_nat ((newLength * 8 + 4) / BITS_PER_CHAR)) in
  let '(BufferState result shift carry index) :=
    foldl (encode_body baseMap) (BufferState result 3 0 0)
      (slice_range input startIndex endIndex) in
  if decide (shift ≠ 3) then
    Uint8Array_set result index (Uint8Array_get baseMap (carry .& 0x1f))
  else result.

(** The part of a decode iteration after the symbol has been resolved to
    [charIndex]; shared by the two decode loops. *)
Definition decode_body (st : buffer_state) (charIndex : Z) : buffer_state :=
  let '(BufferState result shift carry index) := st in
  let number := charIndex .& 0xff in
  let shift := shift - BITS_PER_CHAR in
  if 0 <? shift then
    BufferState result shift (carry .| (number << shift)) index
  else if shift <? 0 then
    let result := Uint8Array_set result index (carry .| (number >> (- shift))) in
    let index := S index in
    let shift := shift + 8 in
    let carry := (number << shift) .& 0xff in
    BufferState result shift carry index
  else
    let result := Uint8Array_set result index (carry .| number) in
    let index := S index in
    BufferState result 8 0 index.

Fixpoint decodeFromString_loop (alphabetLookup : gmap Z Z) (i : nat) (chars : list Z)
    (st : buffer_state) : exception + buffer_state :=
  match chars with
  | [] => inr st
  | char :: rest =>
      match alphabetLookup !! char with
      | None => inl (Throw SyntaxError (InvalidCharacter char i))
      | Some charIndex =>
          decodeFromString_loop alphabetLookup (S i) rest (decode_body st charIndex)
      end
  end.

(** The statements after the loop of both decoders. *)
Definition decode_finish (st : buffer_state) : Uint8Array :=
  let '(BufferState result shift carry index) := st in
  if decide (shift ≠ 8 ∧ carry ≠ 0) then Uint8Array_set result index carry
  else result.

Definition decodeFromString (this : Base32Crockford) (string : jsstring)
    (start end_ : option Z) : exception + Uint8Array :=
  let alphabetLookup := alphabetLookupSymbol this in
  let length := length string in
  let startIndex := slice_index length start 0 in
  let endIndex := slice_index length end_ length in
  let newLength := Z.max 0 (Z.of_nat endIndex - Z.of_nat startIndex) in
  let result := Uint8Array_new (Z.to_nat (newLength * BITS_PER_CHAR / 8)) in
  st <~ decodeFromString_loop alphabetLookup startIndex
          (slice_range string startIndex endIndex) (BufferState result 8 0 0) ;;
  inr (decode_finish st).

Fixpoint decode_loop (baseMapLookup : gmap Z Z) (i : nat) (codes : list Z)
    (st : buffer_state) : exception + buffer_state :=
  match codes with
  | [] => inr st
  | charCode :: rest =>
      match baseMapLookup !! charCode with
      | None => inl (Throw SyntaxError (InvalidByte charCode i))
      | Some charIndex =>
          decode_loop baseMapLookup (S i) rest (decode_body st charIndex)
      end
  end.

Definition decode (this : Base32Crockford) (input : Uint8Array)
    (start end_ : option Z) : exception + Uint8Array :=
  let baseMapLookup := baseMapLookupSymbol this in
  let length := length input in
  let startIndex := slice_index length start 0 in
  let endIndex := slice_index length end_ length in
  let newLength := Z.max 0 (Z.of_nat endIndex - Z.of_nat startIndex) in
  let result := Uint8Array_new (Z.to_nat (newLength * BITS_PER_CHAR / 8)) in
  st <~ decode_loop baseMapLookup startIndex
          (slice_range input startIndex endIndex) (BufferState result 8 0 0) ;;
  inr (decode_finish st).

(** ** String probe and text wrappers *)

(** [StringPrototypeSafeSymbolIterator]: the string by code points.  A
    high surrogate followed by a low surrogate is one symbol of two code
    units; any other code unit is a symbol of its own. *)
Definition is_high_surrogate (c : Z) : bool := (0xD800 <=? c) && (c <=? 0xDBFF).
Definition is_low_surrogate (c : Z) : bool := (0xDC00 <=? c) && (c <=? 0xDFFF).

Fixpoint StringPrototypeSafeSymbolIterator (s : jsstring) : list jsstring :=
  match s with
  | [] => []
  | c :: rest =>
      match rest with
      | d :: rest' =>
          if is_high_surrogate c && is_low_surrogate d
          then [c; d] :: StringPrototypeSafeSymbolIterator rest'
          else [c] :: StringPrototypeSafeSymbolIterator rest
      | [] => [[c]]
      end
  end.

(** [object[key]] for a string [key]: the keys of the lookup objects are
    one-character strings, any other string is absent. *)
Definition object_get (object : gmap Z Z) (key : jsstring) : option Z :=
  match key with
  | [c] => object !! c
  | _ => None
  end.

Fixpoint isBase32CrockfordString_loop (alphabetLookup : gmap Z Z)
    (chars : list jsstring) : bool :=
  match chars with
  | [] => true
  | char :: rest =>
      match object_get alphabetLookup char with
      | None => false
      | Some _ => isBase32CrockfordString_loop alphabetLookup rest
      end
  end.

Definition isBase32CrockfordString (value : jsstring) : bool :=
  isBase32CrockfordString_loop (alphabetLookupSymbol base32Crockford)
    (StringPrototypeSafeSymbolIterator value).

(** [encodeText] and [decodeText], over the host's UTF-8 encoder
    [stringToUint8Array] and decoder [uint8ArrayToString], which are not
    part of this file and are taken as parameters. *)
Definition encodeText (stringToUint8Array : jsstring → Uint8Array)
    (this : Base32Crockford) (string : jsstring) (start end_ : option Z) : jsstring :=
  encodeToString this (stringToUint8Array string) start end_.

Definition decodeText (uint8ArrayToString : Uint8Array → jsstring)
    (this : Base32Crockford) (string : jsstring) (start end_ : option Z)
    : exception + jsstring :=
  bytes <~ decodeFromString this string start end_ ;;
  inr (uint8ArrayToString bytes).

(** * Definitions used to state and prove the properties *)

(** ** Table keys and symbol resolution *)

(** The characters the default table accepts: the digits and the letters
    of both cases, without [U] and [u]. *)
Definition accepted_chars : list Z :=
  js "0123456789ABCDEFGHIJKLMNOPQRSTVWXYZabcdefghijklmnopqrstvwxyz".

(** The alias characters one loop iteration enters for the symbol [char]. *)
Definition aliases_of (char : Z) : list Z :=
  if decide (char = chr "0") then [chr "O"; chr "o"]
  else if decide (char = chr "1") then [chr "I"; chr "i"; chr "L"; chr "l"]
  else if 64 <? char then [char + 32]
  else [].

(** The values of a sequence of symbols that resolves in [table]. *)
Definition resolve (table : gmap Z Z) (chars : list Z) : list Z :=
  omap (table !!.) chars.

(** Position [j] holds the first symbol of the range [[s, e)] of [input]
    that [table] lacks. *)
Definition first_unknown (table : gmap Z Z) (input : list Z) (s e j : nat) (c : Z) : Prop :=
  (s ≤ j < e)%nat ∧ input !! j = Some c ∧ table !! c = None ∧
  ∀ k x, (s ≤ k < j)%nat → input !! k = Some x → is_Some (table !! x).

(** ** The bit-repacking state machines, without their output buffers

    The four loops of the byte codec differ only in where they put what
    they emit.  [encode_values] is the sequence of 5-bit values the encode
    loop selects symbols with, [decode_values] the sequence of bytes the
    decode loop stores, each with the final [shift] and [carry]. *)

Fixpoint encode_values (shift carry : Z) (bytes : list Z) : list Z * Z * Z :=
  match bytes with
  | [] => ([], shift, carry)
  | byte :: rest =>
      let first := (carry .| (byte >> shift)) .& 0x1f in
      let '(emitted, shift) :=
        if BITS_PER_CHAR <? shift then
          ([first; (byte >> (shift - BITS_PER_CHAR)) .& 0x1f], shift - BITS_PER_CHAR)
        else ([first], shift) in
      let shift := BITS_PER_CHAR - shift in
      let carry := byte << shift in
      let shift := 8 - shift in
      let '(more, shift', carry') := encode_values shift carry rest in
      (emitted ++ more, shift', carry')
  end.

(** All values of an encode call, with the one for the symbol appended
    after the loop. *)
Definition encode_all_values (bytes : list Z) : list Z :=
  let '(values, shift, carry) := encode_values 3 0 bytes in
  if decide (shift ≠ 3) then values ++ [carry .& 0x1f] else values.

Fixpoint decode_values (shift carry : Z) (values : list Z) : list Z * Z * Z :=
  match values with
  | [] => ([], shift, carry)
  | charIndex :: rest =>
      let number := charIndex .& 0xff in
      let shift := shift - BITS_PER_CHAR in
      let '(emitted, shift, carry) :=
        if 0 <? shift then ([], shift, carry .| (number << shift))
        else if shift <? 0 then
          ([carry .| (number >> (- shift))], shift + 8, (number << (shift + 8)) .& 0xff)
        else ([carry .| number], 8, 0) in
      let '(more, shift', carry') := decode_values shift carry rest in
      (emitted ++ more, shift', carry')
  end.

(** Consecutive stores [a[i++] = v] of the values [vs]. *)
Fixpoint store_all (a : Uint8Array) (i : nat) (vs : list Z) : Uint8Array :=
  match vs with
  | [] => a
  | v :: vs => store_all (Uint8Array_set a i v) (S i) vs
  end.

(** The value of a digit sequence, most significant digit first, starting
    from [acc]. *)
Definition digits_value (acc : Z) (ds : list Z) : Z :=
  foldl (λ acc d, acc * 32 + d) acc ds.

(** ** The two machines in step

    Between two input bytes the encoder and the decoder are in step: when
    the encoder holds [shift = s] after byte [b] (so the [s - 3] low bits
    of [b] are still to be emitted), the decoder that has read every symbol
    emitted so far holds [shift = s - 3] and, in [carry], [b] without those
    low bits.  The next byte [b'] enters the first symbol only through
    [t = b' >> s]. *)

(** An element of a [Uint8Array]. *)
Definition is_byte (b : Z) : Prop := 0 ≤ b < 256.

(** [b] with its low [s - 3] bits cleared. *)
Definition gathered (s b : Z) : Z := Z.shiftl (Z.shiftr b (s - 3)) (s - 3).

(** The encoder's [shift] after a byte read at [shift = s], and the values
    it emits after the first one. *)
Definition next_shift (s : Z) : Z := if BITS_PER_CHAR <? s then s - 2 else s + 3.
Definition later_values (s b' : Z) : list Z :=
  if BITS_PER_CHAR <? s then [(b' >> (s - BITS_PER_CHAR)) .& 0x1f] else [].

(** The first byte: one symbol, which the decoder only gathers. *)
Definition first_step (b : Z) : Prop :=
  decode_values 8 0 [(0 .| (b >> 3)) .& 0x1f] = ([], 3, gathered 6 b).

(** The first symbol after [b], for [t = b' >> s]: the decoder completes
    [b] and keeps [t] as the high bits of the next byte. *)
Definition head_step (s b t : Z) : Prop :=
  decode_values (s - 3) (gathered s b) [((b << (8 - s)) .| t) .& 0x1f]
    = ([b], s, Z.shiftl t s).

(** The rest of the step for [b']. *)
Definition tail_step (s b' : Z) : Prop :=
  0 ≤ b' >> s < 2 ^ (8 - s) ∧
  decode_values s (Z.shiftl (b' >> s) s) (later_values s b')
    = ([], next_shift s - 3, gathered (next_shift s) b').

(** The symbol appended after the loop completes the last byte. *)
Definition final_step (s b : Z) : Prop :=
  (decode_values (s - 3) (gathered s b) [(b << (8 - s)) .& 0x1f]).1.1 = [b].

#[local] Instance first_step_dec b : Decision (first_step b).
Proof. unfold first_step. apply _. Defined.
#[local] Instance head_step_dec s b t : Decision (head_step s b t).
Proof. unfold head_step. apply _. Defined.
#[local] Instance tail_step_dec s b : Decision (tail_step s b).
Proof. unfold tail_step. apply _. Defined.
#[local] Instance final_step_dec s b : Decision (final_step s b).
Proof. unfold final_step. apply _. Defined.

(** The byte-code table gives the code stored for value [v] that value. *)
Definition code_consistent (this : Base32Crockford) (v : Z) : Prop :=
  baseMapLookupSymbol this !! (Uint8Array_get (baseMapSymbol this) v mod 256) = Some v.

#[local] Instance code_consistent_dec this v : Decision (code_consistent this v).
Proof. unfold code_consistent. apply _. Defined.

(** ** The table as a function of the alphabet *)

(** The characters that the loop iteration for the symbol [s] enters. *)
Definition accepted_forms (s : Z) : list Z := s :: aliases_of s.

(** The index, counted from [i], of the last symbol of [chars] that
    enters the character [c]. *)
Fixpoint last_symbol_for (i : nat) (chars : list Z) (c : Z) : option nat :=
  match chars with
  | [] => None
  | s :: rest =>
      match last_symbol_for (S i) rest c with
      | Some k => Some k
      | None => if decide (c ∈ accepted_forms s) then Some i else None
      end
  end.

(** No symbol of the alphabet is an alias of a later symbol. *)
Definition alias_free (a : jsstring) : Prop :=
  ∀ (i j : nat) (s t : Z),
    (i < j)%nat → a !! i = Some s → a !! j = Some t → s ∉ aliases_of t.


(** Every symbol of the alphabet is looked up to its own index. *)
Definition symbols_decode_to_their_index (a : jsstring) : Prop :=
  ∀ (k : nat) (s : Z), a !! k = Some s →
    alphabetLookupSymbol (instance_of a) !! s = Some (Z.of_nat k).

(** ** One byte through a codec

    The byte [8 * k] is encoded by the values [k] and [0], and the top
    five bits of the byte decoded from two values are the first value. *)
Definition single_byte_values (k : Z) : Prop := encode_all_values [8 * k] = [k; 0].

Definition first_value_kept (v w : Z) : Prop :=
  (λ x, x mod 256 / 8) <$> (decode_values 8 0 [v; w]).1.1 = [v].

#[local] Instance single_byte_values_dec k : Decision (single_byte_values k).
Proof. unfold single_byte_values. apply _. Defined.
#[local] Instance first_value_kept_dec v w : Decision (first_value_kept v w).
Proof. unfold first_value_kept. apply _. Defined.

(** ** Digit sequences *)

(** A digit sequence without its leading zeros. *)
Fixpoint strip_zeros (ds : list Z) : list Z :=
  match ds with
  | [] => []
  | d :: rest => if decide (d = 0) then strip_zeros rest else ds
  end.

(** ** The byte codec as arithmetic

    A byte sequence read as a number in base 256, most significant byte
    first, starting from [acc]. *)
Definition bytes_value (acc : Z) (bytes : list Z) : Z :=
  foldl (λ acc b, acc * 256 + b) acc bytes.

(** One step of the encoder, in numbers.  After byte [b] with
    [shift = s], the low [s - 3] bits of [b] are still to be emitted. *)
Definition first_value (b : Z) : Prop := (0 .| (b >> 3)) .& 0x1f = b / 8.

Definition head_value (s b t : Z) : Prop :=
  ((b << (8 - s)) .| t) .& 0x1f = b mod 2 ^ (s - 3) * 2 ^ (8 - s) + t.

Definition tail_value (s b' : Z) : Prop :=
  digits_value (b' >> s) (later_values s b') * 2 ^ (next_shift s - 3)
    + b' mod 2 ^ (next_shift s - 3) = b'.

Definition final_value (s b : Z) : Prop :=
  (b << (8 - s)) .& 0x1f = b mod 2 ^ (s - 3) * 2 ^ (8 - s).

(** One step of the decoder, in numbers.  With [shift = s] the decoder
    has gathered [8 - s] bits, [g], of the next byte, and holds them in
    [carry] as [g * 2 ^ s]. *)
Definition gathered_value (r : list Z * Z * Z) : Z := Z.shiftr r.2 r.1.2.

Definition decode_step_holds (s g v : Z) (r : list Z * Z * Z) : Prop :=
  r.1.2 = (if s <=? 5 then s + 3 else s - 5) ∧
  length r.1.1 = (if s <=? 5 then 1%nat else 0%nat) ∧
  Forall (λ x, 0 ≤ x < 256) r.1.1 ∧
  r.2 = Z.shiftl (gathered_value r) r.1.2 ∧
  0 ≤ gathered_value r < 2 ^ (8 - r.1.2) ∧
  bytes_value 0 r.1.1 * 2 ^ (8 - r.1.2) + gathered_value r = g * 32 + v.

Definition decode_step_value (s g v : Z) : Prop :=
  decode_step_holds s g v (decode_values s (Z.shiftl g s) [v]).

#[local] Instance first_value_dec b : Decision (first_value b).
Proof. unfold first_value. apply _. Defined.
#[local] Instance head_value_dec s b t : Decision (head_value s b t).
Proof. unfold head_value. apply _. Defined.
#[local] Instance tail_value_dec s b : Decision (tail_value s b).
Proof. unfold tail_value. apply _. Defined.
#[local] Instance final_value_dec s b : Decision (final_value s b).
Proof. unfold final_value. apply _. Defined.
#[local] Instance decode_step_holds_dec s g v r : Decision (decode_step_holds s g v r).
Proof. unfold decode_step_holds. apply _. Defined.
#[local] Instance decode_step_value_dec s g v : Decision (decode_step_value s g v) :=
  decode_step_holds_dec s g v (decode_values s (Z.shiftl g s) [v]).

(** ** A sign in front of a digit string

    What a decoder returns for [-] followed by [digits], from what it
    returns for [digits]: the value negated, or the same error one index
    further. *)
Definition after_sign {A} (negate : A → A) (r : exception + A) : exception + A :=
  match r with
  | inr m => inr (negate m)
  | inl (Throw k (InvalidCharacter c j)) => inl (Throw k (InvalidCharacter c (S j)))
  | inl e => inl e
  end.

(** A Number that is not below zero. *)
Definition Number_nonneg (x : Number) : Prop :=
  match x with
  | Finite z => 0 ≤ z
  | PosInfinity => True
  | NegInfinity => False
  end.

(** * Properties *)

(** The tables are only ever evaluated by [vm_compute]. *)
Arguments createAlphabetLookups : simpl never.
Arguments instance_of : simpl never.
Arguments base32Crockford : simpl never.

(** ** The default table *)

Lemma default_lookup_dom (c : Z) :
  is_Some (alphabetLookupSymbol base32Crockford !! c) ↔ c ∈ accepted_chars.
Proof.
  rewrite <- elem_of_dom.
  replace (dom (alphabetLookupSymbol base32Crockford))
    with (list_to_set (C := gset Z) accepted_chars) by (vm_compute; reflexivity).
  apply elem_of_list_to_set.
Qed.

Lemma construct_default : new_Base32Crockford None = inr base32Crockford.
Proof. reflexivity. Qed.

(** ** Alphabet validation *)

Section Validation.
Variable alphabetLookup : gmap Z Z.

(** The scan succeeds exactly on strings of table keys without a
    repetition (and without a character already recorded). *)
Lemma toAlphabet_loop_ok (chars : list Z) : ∀ (i : nat) (u : gmap Z Z),
  toAlphabet_loop alphabetLookup i chars u = inr () ↔
  Forall (λ c, is_Some (alphabetLookup !! c)) chars ∧ NoDup chars ∧
  Forall (λ c, u !! c = None) chars.
Proof.
  induction chars as [|c rest IH]; intros i u; simpl.
  - split; [intros _; repeat constructor | done].
  - destruct (alphabetLookup !! c) as [v|] eqn:Hc.
    + destruct (u !! c) as [w|] eqn:Hu.
      * split; [done|]. intros (_ & _ & Hn). inversion Hn; congruence.
      * rewrite IH. split.
        -- intros (Hk & Hd & Hf). split_and!.
           ++ constructor; [by eexists | done].
           ++ constructor; [|done]. intros Hin.
              rewrite Forall_forall in Hf. specialize (Hf _ Hin).
              by rewrite lookup_insert_eq in Hf.
           ++ constructor; [done|].
              eapply Forall_impl; [exact Hf|]. intros x Hx. simpl in Hx.
              destruct (decide (c = x)) as [->|Hne].
              ** by rewrite lookup_insert_eq in Hx.
              ** by rewrite lookup_insert_ne in Hx.
        -- intros (Hk & Hd & Hf).
           inversion Hk; inversion Hd; inversion Hf; subst. split_and!; [done..|].
           rewrite Forall_forall. intros x Hx.
           rewrite lookup_insert_ne by (intros ->; done).
           rewrite Forall_forall in H10. by apply H10.
    + split; [done|]. intros (Hk & _). inversion Hk as [|? ? [? ?]]; congruence.
Qed.

(** Whatever the scan throws is a [SyntaxError]. *)
Lemma toAlphabet_loop_throws (chars : list Z) : ∀ (i : nat) (u : gmap Z Z) e,
  toAlphabet_loop alphabetLookup i chars u = inl e → kind e = SyntaxError.
Proof.
  induction chars as [|c rest IH]; intros i u e; simpl; [done|].
  destruct (alphabetLookup !! c); [|by intros [= <-]].
  destruct (u !! c); [by intros [= <-]|]. apply IH.
Qed.

Lemma isAlphabet_loop_toAlphabet_loop (chars : list Z) : ∀ (i : nat) (u : gmap Z Z),
  isAlphabet_loop alphabetLookup i chars u = true ↔
  toAlphabet_loop alphabetLookup i chars u = inr ().
Proof.
  induction chars as [|c rest IH]; intros i u; simpl; [done|].
  destruct (alphabetLookup !! c); [|done].
  destruct (u !! c); [done|]. apply IH.
Qed.
End Validation.

(** Exactly which supplied strings the constructor accepts. *)
Lemma construct_custom_ok (a : jsstring) :
  new_Base32Crockford (Some a) = inr (instance_of a) ↔
  length a = BASE ∧ Forall (λ c, c ∈ accepted_chars) a ∧ NoDup a.
Proof.
  unfold new_Base32Crockford, toAlphabet.
  destruct (decide (length a ≠ BASE)) as [Hlen|Hlen]; cbn [bind].
  - split; [done | intros (? & _); done].
  - destruct (toAlphabet_loop _ 0 a ∅) as [e|[]] eqn:Hloop; cbn [bind].
    + split; [done|]. intros (_ & Hk & Hd).
      assert (toAlphabet_loop (alphabetLookupSymbol base32Crockford) 0 a ∅ = inr ())
        as Hok; [|congruence].
      apply toAlphabet_loop_ok. split_and!; [|done|].
      * eapply Forall_impl; [exact Hk|]. intros c. apply default_lookup_dom.
      * by apply Forall_true.
    + apply toAlphabet_loop_ok in Hloop as (Hk & Hd & _).
      split; [intros _|done]. split_and!; [lia| |done].
      eapply Forall_impl; [exact Hk|]. intros c. apply default_lookup_dom.
Qed.

Lemma construct_custom_result (a : jsstring) (codec : Base32Crockford) :
  new_Base32Crockford (Some a) = inr codec → codec = instance_of a.
Proof.
  unfold new_Base32Crockford, toAlphabet.
  destruct (decide (length a ≠ BASE)); [done|].
  destruct (toAlphabet_loop _ 0 a ∅) as [e|[]]; cbn [bind]; congruence.
Qed.

(** [isAlphabet] accepts exactly the strings the constructor accepts. *)
Lemma isAlphabet_construct (a : jsstring) :
  isAlphabet a = true ↔ new_Base32Crockford (Some a) = inr (instance_of a).
Proof.
  rewrite construct_custom_ok. unfold isAlphabet.
  destruct (decide (length a ≠ BASE)) as [Hlen|Hlen].
  - split; [done | intros (? & _); done].
  - rewrite isAlphabet_loop_toAlphabet_loop, toAlphabet_loop_ok. split.
    + intros (Hk & Hd & _). split_and!; [lia| |done].
      eapply Forall_impl; [exact Hk|]. intros c. apply default_lookup_dom.
    + intros (_ & Hk & Hd). split_and!; [|done|by apply Forall_true].
      eapply Forall_impl; [exact Hk|]. intros c. apply default_lookup_dom.
Qed.

(** What the constructor throws for a supplied string. *)
Lemma construct_custom_throws (a : jsstring) (e : exception) :
  new_Base32Crockford (Some a) = inl e →
  (length a ≠ BASE ∧ e = Throw RangeError AlphabetLength) ∨
  (length a = BASE ∧ kind e = SyntaxError).
Proof.
  unfold new_Base32Crockford, toAlphabet.
  destruct (decide (length a ≠ BASE)) as [Hlen|Hlen]; cbn [bind].
  - intros [= <-]. by left.
  - destruct (toAlphabet_loop _ 0 a ∅) as [e'|[]] eqn:Hloop; cbn [bind]; [|done].
    intros [= <-]. right. split; [lia|]. by eapply toAlphabet_loop_throws.
Qed.

(** C10: a custom alphabet may only use characters that the default
    table already accepts (the 32 default symbols and their lowercase and
    look-alike aliases, [accepted_chars]).  A constructed codec's alphabet
    consists of such characters, and for a 32-character candidate that
    contains any other character the constructor throws (a SyntaxError),
    whether or not its characters are distinct; [U], [u] and [@] are such
    characters. *)
Theorem custom_alphabet_within_default_lookup :
  (∀ (a : jsstring) (codec : Base32Crockford),
     new_Base32Crockford (Some a) = inr codec →
     ∀ c, c ∈ a → is_Some (alphabetLookupSymbol base32Crockford !! c)) ∧
  (∀ (a : jsstring) (c : Z),
     length a = BASE → c ∈ a →
     alphabetLookupSymbol base32Crockford !! c = None →
     ∃ m, new_Base32Crockford (Some a) = inl (Throw SyntaxError m)) ∧
  (∀ c, is_Some (alphabetLookupSymbol base32Crockford !! c) ↔ c ∈ accepted_chars) ∧
  alphabetLookupSymbol base32Crockford !! chr "U" = None ∧
  alphabetLookupSymbol base32Crockford !! chr "u" = None ∧
  alphabetLookupSymbol base32Crockford !! chr "@" = None.
Proof.
  split_and!; [| |apply default_lookup_dom|by vm_compute..].
  - intros a codec Hnew c Hc.
    pose proof (construct_custom_result _ _ Hnew) as ->.
    apply construct_custom_ok in Hnew as (_ & Hk & _).
    rewrite Forall_forall in Hk. apply default_lookup_dom. by apply Hk.
  - intros a c Hlen Hc Hnone.
    destruct (new_Base32Crockford (Some a)) as [[k m]|codec] eqn:Hnew.
    + apply construct_custom_throws in Hnew as [[? _]|[_ Hk]]; [done|].
      cbn in Hk. subst k. by exists m.
    + pose proof (construct_custom_result _ _ Hnew) as ->.
      apply construct_custom_ok in Hnew as (_ & Hk & _).
      rewrite Forall_forall in Hk. apply Hk, default_lookup_dom in Hc.
      rewrite Hnone in Hc. by destruct Hc.
Qed.

(** A 32-character candidate with distinct characters, one of them [U]. *)
Lemma custom_alphabet_within_default_lookup_witness :
  let a := js "U123456789ABCDEFGHJKMNPQRSTVWXYZ" in
  NoDup a ∧ ∃ m, new_Base32Crockford (Some a) = inl (Throw SyntaxError m).
Proof.
  split.
  - compute_done.
  - apply (proj1 (proj2 custom_alphabet_within_default_lookup)
             (js "U123456789ABCDEFGHJKMNPQRSTVWXYZ") (chr "U")).
    + reflexivity.
    + compute_done.
    + by vm_compute.
Defined.

(** C8, as the code has it: construction with a supplied alphabet throws a
    RangeError when the string is not exactly 32 characters long, and a
    SyntaxError when a 32-character string repeats a character or contains
    a character that is not a key of the default table.  Lowercase letters
    whose uppercase form is a default symbol are keys of that table: the
    alphabet with [a] in place of [A] is accepted. *)
Theorem alphabet_validation (a : jsstring) :
  (length a ≠ BASE →
     new_Base32Crockford (Some a) = inl (Throw RangeError AlphabetLength)) ∧
  (length a = BASE →
     ¬ NoDup a ∨ (∃ c, c ∈ a ∧ alphabetLookupSymbol base32Crockford !! c = None) →
     ∃ m, new_Base32Crockford (Some a) = inl (Throw SyntaxError m)) ∧
  (∃ codec,
     new_Base32Crockford (Some (js "0123456789aBCDEFGHJKMNPQRSTVWXYZ")) = inr codec).
Proof.
  split_and!.
  - intros Hlen. unfold new_Base32Crockford, toAlphabet.
    by destruct (decide (length a ≠ BASE)).
  - intros Hlen Hbad.
    destruct (new_Base32Crockford (Some a)) as [[k m]|codec] eqn:Hnew.
    + apply construct_custom_throws in Hnew as [[? _]|[_ Hk]]; [done|].
      cbn in Hk. subst k. by exists m.
    + exfalso. pose proof (construct_custom_result _ _ Hnew) as ->.
      apply construct_custom_ok in Hnew as (_ & Hk & Hd).
      destruct Hbad as [Hnd|(c & Hc & Hnone)]; [done|].
      rewrite Forall_forall in Hk. apply Hk, default_lookup_dom in Hc.
      rewrite Hnone in Hc. by destruct Hc.
  - eexists. apply construct_custom_ok. split_and!; [reflexivity| |].
    + compute_done.
    + compute_done.
Qed.

(** A 31-character, a 33-character and a repeating 32-character string. *)
Lemma alphabet_validation_witness :
  new_Base32Crockford (Some (js "0123456789ABCDEFGHJKMNPQRSTVWXY"))
    = inl (Throw RangeError AlphabetLength) ∧
  new_Base32Crockford (Some (js "0123456789ABCDEFGHJKMNPQRSTVWXYZZ"))
    = inl (Throw RangeError AlphabetLength) ∧
  ∃ m, new_Base32Crockford (Some (js "0023456789ABCDEFGHJKMNPQRSTVWXYZ"))
    = inl (Throw SyntaxError m).
Proof.
  split_and!.
  - apply (proj1 (alphabet_validation (js "0123456789ABCDEFGHJKMNPQRSTVWXY"))).
    by vm_compute.
  - apply (proj1 (alphabet_validation (js "0123456789ABCDEFGHJKMNPQRSTVWXYZZ"))).
    by vm_compute.
  - apply (proj1 (proj2 (alphabet_validation (js "0023456789ABCDEFGHJKMNPQRSTVWXYZ")))).
    + reflexivity.
    + left. compute_done.
Defined.

(** C8 as stated fails: a 32-character alphabet whose symbol for value 10
    is the lowercase [a], where the default table renders that value as
    [A], is accepted; and so is an alphabet that has both [0] and [O],
    which the default table gives the same value. *)
Lemma alphabet_validation_counterexample :
  let a := js "0123456789aBCDEFGHJKMNPQRSTVWXYZ" in
  let a' := js "0O23456789ABCDEFGHJKMNPQRSTVWXYZ" in
  (a !! 10%nat = Some (chr "a") ∧
   alphabetLookupSymbol base32Crockford !! chr "a" = Some 10 ∧
   alphabetSymbol base32Crockford !! 10%nat = Some (chr "A") ∧
   new_Base32Crockford (Some a) = inr (instance_of a)) ∧
  (a' !! 0%nat = Some (chr "0") ∧ a' !! 1%nat = Some (chr "O") ∧
   alphabetLookupSymbol base32Crockford !! chr "0" = Some 0 ∧
   alphabetLookupSymbol base32Crockford !! chr "O" = Some 0 ∧
   new_Base32Crockford (Some a') = inr (instance_of a')).
Proof. split; split_and!; vm_compute; reflexivity. Qed.

(** ** Aliases of the default alphabet *)

(** C5: with the default alphabet, [o], [O] and [0] decode to 0; [i], [I],
    [l], [L] and [1] decode to 1; and for every letter of the alphabet, at
    any position [v], the lowercase letter (32 code points higher) is an
    entry of both lookup tables with the same value [v] as the letter
    itself, so that [decodeInt] gives [v] for either. *)
Theorem default_alias_acceptance :
  (decodeInt base32Crockford (js "o") = inr (Finite 0) ∧
   decodeInt base32Crockford (js "O") = inr (Finite 0) ∧
   decodeInt base32Crockford (js "0") = inr (Finite 0)) ∧
  (decodeInt base32Crockford (js "i") = inr (Finite 1) ∧
   decodeInt base32Crockford (js "I") = inr (Finite 1) ∧
   decodeInt base32Crockford (js "l") = inr (Finite 1) ∧
   decodeInt base32Crockford (js "L") = inr (Finite 1) ∧
   decodeInt base32Crockford (js "1") = inr (Finite 1)) ∧
  (∀ (v : nat) (c : Z),
     alphabetSymbol base32Crockford !! v = Some c → chr "A" ≤ c ≤ chr "Z" →
     alphabetLookupSymbol base32Crockford !! c = Some (Z.of_nat v) ∧
     alphabetLookupSymbol base32Crockford !! (c + 32) = Some (Z.of_nat v) ∧
     baseMapLookupSymbol base32Crockford !! (c + 32) = Some (Z.of_nat v) ∧
     decodeInt base32Crockford [c] = inr (Finite (Z.of_nat v)) ∧
     decodeInt base32Crockford [c + 32] = inr (Finite (Z.of_nat v))).
Proof.
  split; [by vm_compute|]. split; [by vm_compute|].
  intros v c Hv Hc.
  assert (v < 32)%nat as Hlt by (apply lookup_lt_Some in Hv; exact Hv).
  change (chr "A") with 65 in Hc. change (chr "Z") with 90 in Hc.
  do 32 (destruct v as [|v];
         [vm_compute in Hv; injection Hv as <-; first [lia | by vm_compute]|]).
  lia.
Qed.

Lemma default_alias_acceptance_witness :
  decodeInt base32Crockford (js "z") = inr (Finite 31) ∧
  decodeInt base32Crockford (js "Z") = inr (Finite 31).
Proof.
  destruct (proj2 (proj2 default_alias_acceptance) 31%nat (chr "Z"))
    as (_ & _ & _ & HZ & Hz).
  - reflexivity.
  - by vm_compute.
  - split; [exact Hz | exact HZ].
Defined.

(** ** Keys of a constructed table *)

Lemma is_Some_insert (m : gmap Z Z) (k v c : Z) :
  is_Some (<[k := v]> m !! c) ↔ c = k ∨ is_Some (m !! c).
Proof.
  rewrite lookup_insert_is_Some.
  destruct (decide (k = c)) as [->|Hne]; [tauto|].
  split; [intros [<-|[_ ?]]; auto | intros [->|?]; auto].
Qed.

Section TableKeys.
(** Characters that [toAlphabet] lets through are below 128. *)
Lemma createAlphabetLookups_body_keys (i : nat) (s : Z) (t : lookups) (c : Z) :
  0 ≤ s < 128 →
  (is_Some (Lookups.lookup (createAlphabetLookups_body i s t) !! c) ↔
     is_Some (Lookups.lookup t !! c) ∨ c = s ∨ c ∈ aliases_of s) ∧
  (is_Some (Lookups.baseMapLookup (createAlphabetLookups_body i s t) !! c) ↔
     is_Some (Lookups.baseMapLookup t !! c) ∨ c = s ∨ c ∈ aliases_of s).
Proof.
  intros Hs. unfold createAlphabetLookups_body, aliases_of.
  destruct (decide (s = chr "0")) as [->|H0];
    [|destruct (decide (s = chr "1")) as [->|H1];
      [|destruct (64 <? s) eqn:H64]];
    cbn [Lookups.lookup Lookups.baseMapLookup];
    rewrite ?is_Some_insert, ?elem_of_cons, ?elem_of_nil.
  - change 0x4f with (chr "O"). change 0x6f with (chr "o"). tauto.
  - change 0x49 with (chr "I"). change 0x69 with (chr "i").
    change 0x4c with (chr "L"). change 0x6c with (chr "l"). tauto.
  - unfold StringFromCharCode. rewrite Z.mod_small by lia. tauto.
  - tauto.
Qed.

Lemma createAlphabetLookups_loop_keys (chars : list Z) :
  ∀ (i : nat) (t : lookups) (c : Z),
  Forall (λ s, 0 ≤ s < 128) chars →
  (is_Some (Lookups.lookup (createAlphabetLookups_loop i chars t) !! c) ↔
     is_Some (Lookups.lookup t !! c) ∨
     ∃ s, s ∈ chars ∧ (c = s ∨ c ∈ aliases_of s)) ∧
  (is_Some (Lookups.baseMapLookup (createAlphabetLookups_loop i chars t) !! c) ↔
     is_Some (Lookups.baseMapLookup t !! c) ∨
     ∃ s, s ∈ chars ∧ (c = s ∨ c ∈ aliases_of s)).
Proof.
  induction chars as [|s rest IH]; intros i t c Hrange; cbn [createAlphabetLookups_loop].
  - split; (split; [by left | intros [?|(s & Hs & _)]; [done | by inversion Hs]]).
  - inversion Hrange as [|? ? Hs Hrest]; subst.
    destruct (IH (S i) (createAlphabetLookups_body i s t) c Hrest) as [IH1 IH2].
    destruct (createAlphabetLookups_body_keys i s t c Hs) as [B1 B2].
    rewrite IH1, IH2, B1, B2.
    split; (split;
      [intros [[?|Hnew]|(s' & Hin & Hc)];
         [by left | right; exists s; split; [left|done]
         | right; exists s'; split; [by right|done]]
      |intros [?|(s' & Hin & Hc)];
         [by left; left
         |apply elem_of_cons in Hin as [->|Hin];
            [left; by right | right; by exists s']]]).
Qed.
End TableKeys.

Lemma accepted_chars_range (c : Z) : c ∈ accepted_chars → 0 ≤ c < 128.
Proof.
  revert c. apply Forall_forall. compute_done.
Qed.

(** Keys of both lookup tables of a codec built from a supplied alphabet. *)
Lemma constructed_table_keys (a : jsstring) (codec : Base32Crockford) (c : Z) :
  new_Base32Crockford (Some a) = inr codec →
  (is_Some (alphabetLookupSymbol codec !! c) ↔
     ∃ s, s ∈ a ∧ (c = s ∨ c ∈ aliases_of s)) ∧
  (is_Some (baseMapLookupSymbol codec !! c) ↔
     ∃ s, s ∈ a ∧ (c = s ∨ c ∈ aliases_of s)).
Proof.
  intros Hnew. pose proof (construct_custom_result _ _ Hnew) as ->.
  apply construct_custom_ok in Hnew as (Hlen & Hk & _).
  unfold instance_of, createAlphabetLookups.
  cbn [alphabetLookupSymbol baseMapLookupSymbol].
  rewrite firstn_all2 by (rewrite Hlen; done).
  edestruct (createAlphabetLookups_loop_keys a 0 (Lookups ∅ (Uint8Array_new BASE) ∅) c)
    as [K1 K2].
  { eapply Forall_impl; [exact Hk|]. apply accepted_chars_range. }
  rewrite K1, K2. cbn [Lookups.lookup Lookups.baseMapLookup].
  rewrite lookup_empty.
  split; (split; [intros [[? ?]|?]; done | by right]).
Qed.

(** C6, as the code has it: for every alphabet accepted at construction,
    custom or not, the keys of the two decode tables beyond the 32 symbols
    themselves are: [O] and [o] when [0] is a symbol; [I], [i], [L] and [l]
    when [1] is a symbol; and, for every other symbol whose character code
    is above 64, the character 32 code points higher (the lowercase
    counterpart when the symbol is an uppercase letter). *)
Theorem constructed_aliases (a : jsstring) (codec : Base32Crockford) (c : Z) :
  new_Base32Crockford (Some a) = inr codec → c ∉ a →
  let alias :=
    (chr "0" ∈ a ∧ c ∈ [chr "O"; chr "o"]) ∨
    (chr "1" ∈ a ∧ c ∈ [chr "I"; chr "i"; chr "L"; chr "l"]) ∨
    (∃ s, s ∈ a ∧ s ≠ chr "0" ∧ s ≠ chr "1" ∧ 64 < s ∧ c = s + 32) in
  (is_Some (alphabetLookupSymbol codec !! c) ↔ alias) ∧
  (is_Some (baseMapLookupSymbol codec !! c) ↔ alias).
Proof.
  intros Hnew Hc alias.
  assert ((∃ s, s ∈ a ∧ (c = s ∨ c ∈ aliases_of s)) ↔ alias) as Halias.
  { unfold alias, aliases_of. split.
    - intros (s & Hs & [->|Hin]); [done|].
      destruct (decide (s = chr "0")) as [->|H0]; [by left|].
      destruct (decide (s = chr "1")) as [->|H1]; [by right; left|].
      destruct (64 <? s) eqn:H64; [|by inversion Hin].
      apply list_elem_of_singleton in Hin as ->.
      right; right. exists s. split_and!; [done..|lia|done].
    - intros [[H0 Hin]|[[H1 Hin]|(s & Hs & H0 & H1 & H64 & ->)]].
      + exists (chr "0"). split; [done|]. right. by rewrite decide_True.
      + exists (chr "1"). split; [done|]. right.
        rewrite decide_False by done. by rewrite decide_True.
      + exists s. split; [done|]. right.
        rewrite !decide_False by done.
        destruct (64 <? s) eqn:E; [apply list_elem_of_singleton; done | lia]. }
  destruct (constructed_table_keys a codec c Hnew) as [K1 K2].
  by rewrite K1, K2, Halias.
Qed.

(** The alphabet with [0] and [1] exchanged: [o] is a key of its table
    although it is not one of its symbols. *)
Lemma constructed_aliases_witness :
  let a := js "1023456789ABCDEFGHJKMNPQRSTVWXYZ" in
  is_Some (alphabetLookupSymbol (instance_of a) !! chr "o").
Proof.
  apply (constructed_aliases (js "1023456789ABCDEFGHJKMNPQRSTVWXYZ")
           (instance_of (js "1023456789ABCDEFGHJKMNPQRSTVWXYZ")) (chr "o")).
  - apply construct_custom_ok. split_and!; [reflexivity|compute_done..].
  - compute_done.
  - left. split; compute_done.
Defined.

(** C6 as stated fails: in the custom alphabet that exchanges [0] and [1],
    [O] and [o] decode to the value of the symbol [0], and [I], [i], [L]
    and [l] to the value of the symbol [1]; none of the six is a symbol of
    the alphabet, and [O] is not a lowercase letter. *)
Lemma constructed_aliases_counterexample :
  let a := js "1023456789ABCDEFGHJKMNPQRSTVWXYZ" in
  a ≠ ALPHABET ∧
  new_Base32Crockford (Some a) = inr (instance_of a) ∧
  a !! 1%nat = Some (chr "0") ∧ a !! 0%nat = Some (chr "1") ∧
  Forall (λ c, c ∉ a) (js "OoIiLl") ∧
  alphabetLookupSymbol (instance_of a) !! chr "O" = Some 1 ∧
  alphabetLookupSymbol (instance_of a) !! chr "o" = Some 1 ∧
  alphabetLookupSymbol (instance_of a) !! chr "I" = Some 0 ∧
  alphabetLookupSymbol (instance_of a) !! chr "i" = Some 0 ∧
  alphabetLookupSymbol (instance_of a) !! chr "L" = Some 0 ∧
  alphabetLookupSymbol (instance_of a) !! chr "l" = Some 0 ∧
  decodeInt (instance_of a) (js "O") = inr (Finite 1) ∧
  decodeInt (instance_of a) (js "l") = inr (Finite 0).
Proof.
  split_and!; try (vm_compute; reflexivity); try compute_done.
Qed.

(** ** Decoding: symbol resolution and failure *)

Lemma slice_range_lookup {A} (l : list A) (s e k : nat) (x : A) :
  slice_range l s e !! k = Some x ↔ (s + k < e)%nat ∧ l !! (s + k)%nat = Some x.
Proof.
  unfold slice_range. rewrite lookup_take_Some, lookup_drop. split.
  - intros [? ?]. split; [lia | done].
  - intros [? ?]. split; [done | lia].
Qed.

Lemma slice_range_length {A} (l : list A) (s e : nat) :
  (e ≤ length l)%nat → length (slice_range l s e) = (e - s)%nat.
Proof.
  intros He. unfold slice_range. rewrite length_take, length_drop. lia.
Qed.

Lemma slice_index_le (len : nat) (arg : option Z) (d : nat) :
  (d ≤ len)%nat → (slice_index len arg d ≤ len)%nat.
Proof.
  intros Hd. unfold slice_index. destruct arg as [v|]; [|done].
  destruct (v <? 0) eqn:E; lia.
Qed.

Lemma slice_range_all {A} (l : list A) :
  slice_range l (slice_index (length l) None 0) (slice_index (length l) None (length l)) = l.
Proof.
  unfold slice_range, slice_index. rewrite drop_0, Nat.sub_0_r. apply firstn_all.
Qed.

Section Resolution.
Variable table : gmap Z Z.

(** A sequence of symbols either resolves entirely or has a first symbol
    that the table lacks. *)
Lemma first_absent (chars : list Z) :
  Forall (λ c, is_Some (table !! c)) chars ∨
  ∃ pre c post, chars = pre ++ c :: post ∧
    Forall (λ c, is_Some (table !! c)) pre ∧ table !! c = None.
Proof.
  induction chars as [|c rest IH]; [by left|].
  destruct (table !! c) as [v|] eqn:Hc.
  - destruct IH as [IH|(pre & c' & post & -> & Hpre & Hc')].
    + left. constructor; [by eexists | done].
    + right. exists (c :: pre), c', post. split_and!; [done| |done].
      constructor; [by eexists | done].
  - right. by exists [], c, rest.
Qed.

Lemma decodeFromString_loop_ok (chars : list Z) : ∀ (i : nat) (st : buffer_state),
  Forall (λ c, is_Some (table !! c)) chars →
  decodeFromString_loop table i chars st = inr (foldl decode_body st (resolve table chars)).
Proof.
  induction chars as [|c rest IH]; intros i st Hall; [done|].
  inversion Hall as [|? ? [v Hv] Hrest]; subst.
  cbn [decodeFromString_loop resolve omap list_omap]. rewrite Hv. cbn [foldl].
  by apply IH.
Qed.

Lemma decodeFromString_loop_throws (pre : list Z) (c : Z) (post : list Z) :
  ∀ (i : nat) (st : buffer_state),
  Forall (λ c, is_Some (table !! c)) pre → table !! c = None →
  decodeFromString_loop table i (pre ++ c :: post) st
    = inl (Throw SyntaxError (InvalidCharacter c (i + length pre))).
Proof.
  induction pre as [|p pre IH]; intros i st Hpre Hc; cbn [app decodeFromString_loop].
  - rewrite Hc. do 3 f_equal. cbn. lia.
  - inversion Hpre as [|? ? [v Hv] Hrest]; subst. rewrite Hv.
    rewrite IH by done. do 3 f_equal. cbn. lia.
Qed.

Lemma decode_loop_ok (codes : list Z) : ∀ (i : nat) (st : buffer_state),
  Forall (λ c, is_Some (table !! c)) codes →
  decode_loop table i codes st = inr (foldl decode_body st (resolve table codes)).
Proof.
  induction codes as [|c rest IH]; intros i st Hall; [done|].
  inversion Hall as [|? ? [v Hv] Hrest]; subst.
  cbn [decode_loop resolve omap list_omap]. rewrite Hv. cbn [foldl].
  by apply IH.
Qed.

Lemma decode_loop_throws (pre : list Z) (c : Z) (post : list Z) :
  ∀ (i : nat) (st : buffer_state),
  Forall (λ c, is_Some (table !! c)) pre → table !! c = None →
  decode_loop table i (pre ++ c :: post) st
    = inl (Throw SyntaxError (InvalidByte c (i + length pre))).
Proof.
  induction pre as [|p pre IH]; intros i st Hpre Hc; cbn [app decode_loop].
  - rewrite Hc. do 3 f_equal. cbn. lia.
  - inversion Hpre as [|? ? [v Hv] Hrest]; subst. rewrite Hv.
    rewrite IH by done. do 3 f_equal. cbn. lia.
Qed.
End Resolution.

Lemma slice_first_unknown (table : gmap Z Z) (input : list Z) (s e : nat)
    (pre : list Z) (c : Z) (post : list Z) :
  slice_range input s e = pre ++ c :: post →
  Forall (λ c, is_Some (table !! c)) pre → table !! c = None →
  first_unknown table input s e (s + length pre) c.
Proof.
  intros Hslice Hpre Hc.
  assert (∀ k x, (pre ++ c :: post) !! k = Some x →
                 (s + k < e)%nat ∧ input !! (s + k)%nat = Some x) as Hget.
  { intros k x Hk. rewrite <- Hslice in Hk. by apply slice_range_lookup in Hk. }
  destruct (Hget (length pre) c) as [Hlt Hat].
  { by rewrite list_lookup_middle. }
  split_and!; [lia..|done|done|].
  intros k x Hk Hx.
  destruct (lookup_lt_is_Some_2 pre (k - s)) as [y Hy]; [lia|].
  destruct (Hget (k - s)%nat y) as [_ Hy'].
  { by rewrite lookup_app_l by (by eapply lookup_lt_Some). }
  replace (s + (k - s))%nat with k in Hy' by lia.
  rewrite Forall_forall in Hpre.
  replace x with y by congruence. apply Hpre. by eapply list_elem_of_lookup_2.
Qed.

(** C9: when the effective range of a decode input contains a symbol that
    the codec's table lacks, decoding throws a SyntaxError that cites the
    first such symbol and its index in the input; the outcome is then the
    error alone, with no bytes.  This holds for the string form (with the
    character table) and the buffer form (with the byte-code table).
    Otherwise decoding returns a byte sequence. *)
Theorem decode_rejects_unknown_symbol (this : Base32Crockford) (input : list Z)
    (start end_ : option Z) :
  let s := slice_index (length input) start 0 in
  let e := slice_index (length input) end_ (length input) in
  ((∃ i c, (s ≤ i < e)%nat ∧ input !! i = Some c ∧
           alphabetLookupSymbol this !! c = None) →
   ∃ j c, first_unknown (alphabetLookupSymbol this) input s e j c ∧
          decodeFromString this input start end_
            = inl (Throw SyntaxError (InvalidCharacter c j))) ∧
  ((∃ i c, (s ≤ i < e)%nat ∧ input !! i = Some c ∧
           baseMapLookupSymbol this !! c = None) →
   ∃ j c, first_unknown (baseMapLookupSymbol this) input s e j c ∧
          decode this input start end_
            = inl (Throw SyntaxError (InvalidByte c j))) ∧
  ((∀ i c, (s ≤ i < e)%nat → input !! i = Some c →
           is_Some (alphabetLookupSymbol this !! c)) →
   ∃ bytes, decodeFromString this input start end_ = inr bytes) ∧
  ((∀ i c, (s ≤ i < e)%nat → input !! i = Some c →
           is_Some (baseMapLookupSymbol this !! c)) →
   ∃ bytes, decode this input start end_ = inr bytes).
Proof.
  intros s e.
  assert (∀ table : gmap Z Z,
            (∃ i c, (s ≤ i < e)%nat ∧ input !! i = Some c ∧ table !! c = None) →
            ∃ pre c post, slice_range input s e = pre ++ c :: post ∧
              Forall (λ c, is_Some (table !! c)) pre ∧ table !! c = None) as Hbad.
  { intros table (i & c & Hi & Hc & Hnone).
    destruct (first_absent table (slice_range input s e)) as [Hall|?]; [|done].
    exfalso. rewrite Forall_forall in Hall.
    destruct (Hall c) as [v Hv]; [|congruence].
    apply list_elem_of_lookup. exists (i - s)%nat. apply slice_range_lookup.
    replace (s + (i - s))%nat with i by lia. split; [lia | done]. }
  assert (∀ table : gmap Z Z,
            (∀ i c, (s ≤ i < e)%nat → input !! i = Some c → is_Some (table !! c)) →
            Forall (λ c, is_Some (table !! c)) (slice_range input s e)) as Hgood.
  { intros table Hall. apply Forall_forall. intros c Hc.
    apply list_elem_of_lookup in Hc as [k Hk].
    apply slice_range_lookup in Hk as [Hlt Hk]. apply (Hall (s + k)%nat); [lia | done]. }
  split_and!.
  - intros Hex. destruct (Hbad _ Hex) as (pre & c & post & Hslice & Hpre & Hc).
    exists (s + length pre)%nat, c. split; [by eapply slice_first_unknown|].
    unfold decodeFromString. fold s e. rewrite Hslice.
    by rewrite decodeFromString_loop_throws.
  - intros Hex. destruct (Hbad _ Hex) as (pre & c & post & Hslice & Hpre & Hc).
    exists (s + length pre)%nat, c. split; [by eapply slice_first_unknown|].
    unfold decode. fold s e. rewrite Hslice.
    by rewrite decode_loop_throws.
  - intros Hall. unfold decodeFromString. fold s e.
    rewrite decodeFromString_loop_ok by (by apply Hgood). by eexists.
  - intros Hall. unfold decode. fold s e.
    rewrite decode_loop_ok by (by apply Hgood). by eexists.
Qed.

(** [U] at index 2 of ["ZZU"]. *)
Lemma decode_rejects_unknown_symbol_witness :
  ∃ j c, first_unknown (alphabetLookupSymbol base32Crockford) (js "ZZU") 0 3 j c ∧
         decodeFromString base32Crockford (js "ZZU") None None
           = inl (Throw SyntaxError (InvalidCharacter c j)).
Proof.
  apply (proj1 (decode_rejects_unknown_symbol base32Crockford (js "ZZU") None None)).
  exists 2%nat, (chr "U"). split_and!; [cbn; lia..|reflexivity|by vm_compute].
Defined.

Lemma store_all_app (vs ws : list Z) : ∀ (a : Uint8Array) (i : nat),
  store_all a i (vs ++ ws) = store_all (store_all a i vs) (i + length vs) ws.
Proof.
  induction vs as [|v vs IH]; intros a i; cbn [app store_all length].
  - by rewrite Nat.add_0_r.
  - rewrite IH. by rewrite Nat.add_succ_r.
Qed.

Lemma store_all_length (vs : list Z) : ∀ (a : Uint8Array) (i : nat),
  length (store_all a i vs) = length a.
Proof.
  induction vs as [|v vs IH]; intros a i; cbn [store_all]; [done|].
  rewrite IH. apply length_insert.
Qed.

(** Stores that fit fill the buffer from the left. *)
Lemma store_all_fill (vs : list Z) : ∀ (pre : list Z) (k : nat),
  (length vs ≤ k)%nat →
  store_all (pre ++ replicate k 0) (length pre) vs
    = pre ++ ((λ v, v mod 256) <$> vs) ++ replicate (k - length vs) 0.
Proof.
  induction vs as [|v vs IH]; intros pre k Hk; cbn [store_all length fmap list_fmap app].
  - by rewrite Nat.sub_0_r.
  - cbn [length] in Hk. destruct k as [|k]; [lia|].
    unfold Uint8Array_set. cbn [replicate].
    rewrite insert_app_r_alt by lia. rewrite Nat.sub_diag. cbn [insert list_insert].
    replace (pre ++ v mod 256 :: replicate k 0)
      with ((pre ++ [v mod 256]) ++ replicate k 0) by (by rewrite <- app_assoc).
    replace (S (length pre)) with (length (pre ++ [v mod 256]))
      by (rewrite length_app; cbn; lia).
    rewrite IH by lia. rewrite <- app_assoc. cbn [app]. do 3 f_equal.
  Qed.

Lemma store_all_exact (n : nat) (vs : list Z) :
  n = length vs → store_all (replicate n 0) 0 vs = (λ v, v mod 256) <$> vs.
Proof.
  intros ->. pose proof (store_all_fill vs [] (length vs) ltac:(done)) as H.
  cbn [app length] in H. rewrite H, Nat.sub_diag. cbn [replicate]. apply app_nil_r.
Qed.

Lemma foldl_encodeToString_body (alphabet : jsstring) (bytes : list Z) :
  ∀ (result : jsstring) (shift carry : Z),
  foldl (encodeToString_body alphabet) (result, shift, carry) bytes
    = let '(values, shift', carry') := encode_values shift carry bytes in
      (result ++ concat (string_at alphabet <$> values), shift', carry').
Proof.
  induction bytes as [|byte rest IH]; intros result shift carry;
    cbn [foldl encode_values].
  - by rewrite app_nil_r.
  - unfold encodeToString_body at 2.
    destruct (BITS_PER_CHAR <? shift); rewrite IH;
      destruct (encode_values _ _ rest) as [[more s'] c'];
      cbn [app fmap list_fmap concat]; by rewrite <- ?app_assoc.
Qed.

Lemma foldl_encode_body (baseMap : Uint8Array) (bytes : list Z) :
  ∀ (result : Uint8Array) (shift carry : Z) (index : nat),
  foldl (encode_body baseMap) (BufferState result shift carry index) bytes
    = let '(values, shift', carry') := encode_values shift carry bytes in
      BufferState (store_all result index (Uint8Array_get baseMap <$> values))
        shift' carry' (index + length values).
Proof.
  induction bytes as [|byte rest IH]; intros result shift carry index;
    cbn [foldl encode_values].
  - cbn. by rewrite Nat.add_0_r.
  - unfold encode_body at 2.
    destruct (BITS_PER_CHAR <? shift); rewrite IH;
      destruct (encode_values _ _ rest) as [[more s'] c'];
      cbn [app fmap list_fmap store_all length]; f_equal; lia.
Qed.

Lemma foldl_decode_body (values : list Z) :
  ∀ (result : Uint8Array) (shift carry : Z) (index : nat),
  foldl decode_body (BufferState result shift carry index) values
    = let '(emitted, shift', carry') := decode_values shift carry values in
      BufferState (store_all result index emitted) shift' carry'
        (index + length emitted).
Proof.
  induction values as [|v rest IH]; intros result shift carry index;
    cbn [foldl decode_values].
  - cbn. by rewrite Nat.add_0_r.
  - unfold decode_body at 2.
    destruct (0 <? shift - BITS_PER_CHAR); [|destruct (shift - BITS_PER_CHAR <? 0)];
      rewrite IH; destruct (decode_values _ _ rest) as [[more s'] c'];
      cbn [app store_all length]; f_equal; lia.
Qed.

(** ** Output lengths *)

(** Bit accounting of the encode loop: [3 <= shift <= 8] throughout, and
    [shift - 3] bits of the last byte are still to be emitted. *)
Lemma encode_values_count (bytes : list Z) : ∀ (shift carry : Z),
  3 ≤ shift ≤ 8 →
  let '(values, shift', carry') := encode_values shift carry bytes in
  3 ≤ shift' ≤ 8 ∧
  (shift' - 3) + 5 * Z.of_nat (length values)
    = 8 * Z.of_nat (length bytes) + (shift - 3) ∧
  (4 ≤ shift ∨ bytes ≠ [] → 4 ≤ shift').
Proof.
  induction bytes as [|byte rest IH]; intros shift carry Hs; cbn [encode_values].
  - cbn. split_and!; [lia..|]. intros [?|?]; [lia | done].
  - unfold BITS_PER_CHAR. destruct (5 <? shift) eqn:E.
    + specialize (IH (8 - (5 - (shift - 5))) (byte << (5 - (shift - 5)))).
      destruct (encode_values _ _ rest) as [[more s'] c'].
      destruct IH as (? & ? & Hne); [lia|].
      rewrite length_app. cbn [length].
      split_and!; [lia..|]. intros _. apply Hne. left. lia.
    + specialize (IH (8 - (5 - shift)) (byte << (5 - shift))).
      destruct (encode_values _ _ rest) as [[more s'] c'].
      destruct IH as (? & ? & Hne); [lia|].
      rewrite length_app. cbn [length].
      split_and!; [lia..|]. intros _. apply Hne. left. lia.
Qed.

Lemma encode_all_values_length (bytes : list Z) :
  Z.of_nat (length (encode_all_values bytes)) = (Z.of_nat (length bytes) * 8 + 4) / 5.
Proof.
  unfold encode_all_values.
  pose proof (encode_values_count bytes 3 0 ltac:(lia)) as H.
  destruct (encode_values 3 0 bytes) as [[values s'] c'].
  destruct H as (Hs & Hcount & Hne).
  case_decide as Hs3.
  - assert (4 ≤ s').
    { apply Hne. right. intros ->. cbn [length] in Hcount. lia. }
    rewrite length_app. cbn [length].
    apply Z.div_unique with (r := s' - 4); lia.
  - assert (bytes = []) as ->.
    { destruct bytes; [done|]. assert (4 ≤ s') by (apply Hne; by right). lia. }
    cbn [length] in *. apply Z.div_unique with (r := 4); lia.
Qed.

(** Bit accounting of the decode loop: [1 <= shift <= 8] throughout, and
    [8 - shift] bits of the next byte have been gathered. *)
Lemma decode_values_count (values : list Z) : ∀ (shift carry : Z),
  1 ≤ shift ≤ 8 →
  let '(emitted, shift', carry') := decode_values shift carry values in
  1 ≤ shift' ≤ 8 ∧
  8 * Z.of_nat (length emitted) + shift = 5 * Z.of_nat (length values) + shift'.
Proof.
  induction values as [|v rest IH]; intros shift carry Hs; cbn [decode_values].
  - cbn. lia.
  - unfold BITS_PER_CHAR.
    destruct (0 <? shift - 5) eqn:E1; [|destruct (shift - 5 <? 0) eqn:E2].
    + specialize (IH (shift - 5) (carry .| (v .& 255 << (shift - 5)))).
      destruct (decode_values _ _ rest) as [[more s'] c'].
      destruct IH as (? & ?); [lia|]. cbn [app length]. lia.
    + specialize (IH (shift - 5 + 8) ((v .& 255 << (shift - 5 + 8)) .& 255)).
      destruct (decode_values _ _ rest) as [[more s'] c'].
      destruct IH as (? & ?); [lia|]. cbn [app length]. lia.
    + specialize (IH 8 0).
      destruct (decode_values _ _ rest) as [[more s'] c'].
      destruct IH as (? & ?); [lia|]. cbn [app length]. lia.
Qed.

Lemma decode_values_length (values : list Z) :
  let '(emitted, shift', carry') := decode_values 8 0 values in
  Z.of_nat (length emitted) = Z.of_nat (length values) * 5 / 8.
Proof.
  pose proof (decode_values_count values 8 0 ltac:(lia)) as H.
  destruct (decode_values 8 0 values) as [[emitted s'] c'].
  destruct H as (Hs & Hcount).
  apply Z.div_unique with (r := 8 - s'); lia.
Qed.

Lemma ToInt32_small (z : Z) : - 2 ^ 31 ≤ z < 2 ^ 31 → ToInt32 z = z.
Proof.
  intros Hz. unfold ToInt32.
  destruct (Z.neg_nonneg_cases z) as [Hn|Hp].
  - replace (z mod 4294967296) with (z + 4294967296)
      by (apply Z.mod_unique with (q := -1); lia).
    destruct (2147483648 <=? z + 4294967296) eqn:E; lia.
  - rewrite Z.mod_small by lia. destruct (2147483648 <=? z) eqn:E; lia.
Qed.

Lemma js_and_31 (x : Z) : x .& 0x1f = ToInt32 x mod 32.
Proof.
  unfold js_and. rewrite (ToInt32_small 31) by lia.
  change 31 with (Z.ones 5). rewrite Z.land_ones by lia. change (2 ^ 5) with 32.
  apply ToInt32_small.
  pose proof (Z.mod_pos_bound (ToInt32 x) 32 ltac:(lia)). lia.
Qed.

Lemma js_and_31_range (x : Z) : 0 ≤ x .& 0x1f < 32.
Proof. rewrite js_and_31. apply Z.mod_pos_bound. lia. Qed.

Lemma string_at_in_range (s : jsstring) (i : Z) :
  0 ≤ i < Z.of_nat (length s) → ∃ c, s !! Z.to_nat i = Some c ∧ string_at s i = [c].
Proof.
  intros Hi. destruct (lookup_lt_is_Some_2 s (Z.to_nat i)) as [c Hc]; [lia|].
  exists c. split; [done|]. unfold string_at.
  destruct (0 <=? i) eqn:E; [|lia]. by rewrite Hc.
Qed.

Lemma encode_values_range (bytes : list Z) : ∀ (shift carry : Z),
  Forall (λ v, 0 ≤ v < 32) (encode_values shift carry bytes).1.1.
Proof.
  induction bytes as [|byte rest IH]; intros shift carry; cbn [encode_values].
  - constructor.
  - destruct (BITS_PER_CHAR <? shift);
      match goal with |- context [encode_values ?s ?c rest] =>
        specialize (IH s c); destruct (encode_values s c rest) as [[more s'] c']
      end; cbn [fst] in *;
      repeat (constructor; [apply js_and_31_range|]); exact IH.
Qed.

Lemma encode_all_values_range (bytes : list Z) :
  Forall (λ v, 0 ≤ v < 32) (encode_all_values bytes).
Proof.
  unfold encode_all_values. pose proof (encode_values_range bytes 3 0) as H.
  destruct (encode_values 3 0 bytes) as [[values s'] c']. cbn [fst] in H.
  case_decide; [|done]. apply Forall_app. split; [done|].
  constructor; [apply js_and_31_range | constructor].
Qed.

(** Every symbol selected by a value below 32 is one character. *)
Lemma symbols_length (alphabet : jsstring) (values : list Z) :
  length alphabet = BASE → Forall (λ v, 0 ≤ v < 32) values →
  length (concat (string_at alphabet <$> values)) = length values.
Proof.
  intros Hlen. induction 1 as [|v values Hv _ IH]; [done|].
  cbn [fmap list_fmap concat length]. rewrite length_app, IH.
  destruct (string_at_in_range alphabet v) as (c & _ & ->);
    [rewrite Hlen; unfold BASE; lia|].
  done.
Qed.

Lemma constructed_alphabet_length (a : option jsstring) (this : Base32Crockford) :
  new_Base32Crockford a = inr this → length (alphabetSymbol this) = BASE.
Proof.
  destruct a as [a|].
  - intros Hnew. pose proof (construct_custom_result _ _ Hnew) as ->.
    by apply construct_custom_ok in Hnew as (? & _).
  - intros [= <-]. reflexivity.
Qed.

Section ByteCodecForms.
Variable this : Base32Crockford.
Variables (input : list Z) (start end_ : option Z).

Let s := slice_index (length input) start 0.
Let e := slice_index (length input) end_ (length input).

Lemma effective_range_length : length (slice_range input s e) = (e - s)%nat.
Proof. apply slice_range_length, slice_index_le. done. Qed.

Lemma newLength_effective :
  Z.max 0 (Z.of_nat e - Z.of_nat s) = Z.of_nat (length (slice_range input s e)).
Proof. rewrite effective_range_length. lia. Qed.

(** The string form lists the symbols of [encode_all_values]. *)
Lemma encodeToString_values :
  encodeToString this input start end_
    = concat (string_at (alphabetSymbol this)
                <$> encode_all_values (slice_range input s e)).
Proof.
  unfold encodeToString, encode_all_values. fold s e.
  rewrite foldl_encodeToString_body.
  destruct (encode_values 3 0 _) as [[values s'] c']. cbn [app].
  case_decide; [|done].
  rewrite fmap_app, concat_app. cbn. by rewrite app_nil_r.
Qed.

(** The buffer form stores their byte codes, and fills its buffer. *)
Lemma encode_values_bytes :
  encode this input start end_
    = (λ v, Uint8Array_get (baseMapSymbol this) v mod 256)
        <$> encode_all_values (slice_range input s e).
Proof.
  unfold encode. fold s e. rewrite newLength_effective.
  pose proof (encode_all_values_length (slice_range input s e)) as Hlen.
  unfold BITS_PER_CHAR. rewrite <- Hlen, Nat2Z.id. unfold encode_all_values in *.
  rewrite foldl_encode_body.
  destruct (encode_values 3 0 _) as [[values s'] c']. cbn [Nat.add].
  unfold Uint8Array_new.
  case_decide.
  - change (Uint8Array_set ?a ?i ?v) with (store_all a i [v]).
    replace (length values)
      with (0 + length (Uint8Array_get (baseMapSymbol this) <$> values))%nat
      by (by rewrite length_fmap).
    rewrite <- store_all_app.
    rewrite store_all_exact by (by rewrite !length_app, length_fmap).
    rewrite !fmap_app, <- list_fmap_compose. done.
  - rewrite store_all_exact by (by rewrite length_fmap).
    by rewrite <- list_fmap_compose.
Qed.

(** After the decode loop the write position is the end of the buffer,
    which has room for exactly the bytes the loop stores. *)
Lemma decode_loop_state (values : list Z) :
  length values = length (slice_range input s e) →
  let newLength := Z.max 0 (Z.of_nat e - Z.of_nat s) in
  let buffer := Uint8Array_new (Z.to_nat (newLength * BITS_PER_CHAR / 8)) in
  let '(emitted, shift', carry') := decode_values 8 0 values in
  foldl decode_body (BufferState buffer 8 0 0) values
    = BufferState ((λ v, v mod 256) <$> emitted) shift' carry' (length emitted) ∧
  length emitted = Z.to_nat (newLength * BITS_PER_CHAR / 8).
Proof.
  intros Hlen newLength buffer. subst newLength buffer.
  rewrite newLength_effective, <- Hlen.
  pose proof (decode_values_length values) as Hcount.
  rewrite foldl_decode_body.
  destruct (decode_values 8 0 values) as [[emitted s'] c'].
  unfold BITS_PER_CHAR. rewrite <- Hcount, Nat2Z.id. split; [|done].
  unfold Uint8Array_new. by rewrite store_all_exact.
Qed.
End ByteCodecForms.

Lemma resolve_length (table : gmap Z Z) (chars : list Z) :
  Forall (λ c, is_Some (table !! c)) chars → length (resolve table chars) = length chars.
Proof.
  induction 1 as [|c chars [v Hv] _ IH]; [done|].
  cbn [resolve omap list_omap]. rewrite Hv. cbn [length]. f_equal. exact IH.
Qed.

(** The store after the decode loop is outside the buffer. *)
Lemma decode_finish_full (buffer : Uint8Array) (shift carry : Z) :
  decode_finish (BufferState buffer shift carry (length buffer)) = buffer.
Proof.
  unfold decode_finish. case_decide; [|done].
  unfold Uint8Array_set. by apply list_insert_ge.
Qed.

Section DecodeOutcome.
Variable this : Base32Crockford.
Variables (input : list Z) (start end_ : option Z).

Let s := slice_index (length input) start 0.
Let e := slice_index (length input) end_ (length input).

(** What a decode call returns when every symbol of the range resolves:
    the bytes stored by the loop, and nothing else. *)
Lemma decodeFromString_returns :
  Forall (λ c, is_Some (alphabetLookupSymbol this !! c)) (slice_range input s e) →
  decodeFromString this input start end_
    = inr ((λ v, v mod 256) <$>
           (decode_values 8 0
              (resolve (alphabetLookupSymbol this) (slice_range input s e))).1.1).
Proof.
  intros Hall. unfold decodeFromString. fold s e.
  rewrite decodeFromString_loop_ok by done. cbn [bind].
  pose proof (decode_loop_state input start end_
                (resolve (alphabetLookupSymbol this) (slice_range input s e))
                (resolve_length _ _ Hall)) as Hst.
  cbn zeta in Hst. fold s e in Hst.
  destruct (decode_values 8 0 _) as [[emitted s'] c'].
  destruct Hst as [-> _]. cbn [fst].
  replace (length emitted) with (length ((λ v, v mod 256) <$> emitted))
    by apply length_fmap.
  by rewrite decode_finish_full.
Qed.

Lemma decode_returns :
  Forall (λ c, is_Some (baseMapLookupSymbol this !! c)) (slice_range input s e) →
  decode this input start end_
    = inr ((λ v, v mod 256) <$>
           (decode_values 8 0
              (resolve (baseMapLookupSymbol this) (slice_range input s e))).1.1).
Proof.
  intros Hall. unfold decode. fold s e.
  rewrite decode_loop_ok by done. cbn [bind].
  pose proof (decode_loop_state input start end_
                (resolve (baseMapLookupSymbol this) (slice_range input s e))
                (resolve_length _ _ Hall)) as Hst.
  cbn zeta in Hst. fold s e in Hst.
  destruct (decode_values 8 0 _) as [[emitted s'] c'].
  destruct Hst as [-> _]. cbn [fst].
  replace (length emitted) with (length ((λ v, v mod 256) <$> emitted))
    by apply length_fmap.
  by rewrite decode_finish_full.
Qed.

Lemma decodeFromString_inr (bytes : Uint8Array) :
  decodeFromString this input start end_ = inr bytes →
  Forall (λ c, is_Some (alphabetLookupSymbol this !! c)) (slice_range input s e).
Proof.
  intros Hdec.
  destruct (first_absent (alphabetLookupSymbol this) (slice_range input s e))
    as [?|(pre & c & post & Hslice & Hpre & Hc)]; [done|].
  unfold decodeFromString in Hdec. fold s e in Hdec.
  rewrite Hslice, decodeFromString_loop_throws in Hdec by done. done.
Qed.

Lemma decode_inr (bytes : Uint8Array) :
  decode this input start end_ = inr bytes →
  Forall (λ c, is_Some (baseMapLookupSymbol this !! c)) (slice_range input s e).
Proof.
  intros Hdec.
  destruct (first_absent (baseMapLookupSymbol this) (slice_range input s e))
    as [?|(pre & c & post & Hslice & Hpre & Hc)]; [done|].
  unfold decode in Hdec. fold s e in Hdec.
  rewrite Hslice, decode_loop_throws in Hdec by done. done.
Qed.
End DecodeOutcome.

(** C3: when the effective range of the input has [n] elements, both
    encode forms produce [floor((n * 8 + 4) / 5)] symbols, and a decode
    that succeeds, in either form, returns [floor(5 * n / 8)] bytes. *)
Theorem output_lengths (a : option jsstring) (this : Base32Crockford)
    (input : list Z) (start end_ : option Z) :
  new_Base32Crockford a = inr this →
  let s := slice_index (length input) start 0 in
  let e := slice_index (length input) end_ (length input) in
  let n := Z.of_nat (e - s) in
  Z.of_nat (length (encodeToString this input start end_)) = (n * 8 + 4) / 5 ∧
  Z.of_nat (length (encode this input start end_)) = (n * 8 + 4) / 5 ∧
  (∀ bytes, decodeFromString this input start end_ = inr bytes →
            Z.of_nat (length bytes) = 5 * n / 8) ∧
  (∀ bytes, decode this input start end_ = inr bytes →
            Z.of_nat (length bytes) = 5 * n / 8).
Proof.
  intros Hnew s e n. subst n s e.
  rewrite <- (effective_range_length input start end_).
  split_and!.
  - rewrite encodeToString_values, symbols_length.
    + apply encode_all_values_length.
    + by eapply constructed_alphabet_length.
    + apply encode_all_values_range.
  - rewrite encode_values_bytes, length_fmap.
    apply encode_all_values_length.
  - intros bytes Hdec. pose proof (decodeFromString_inr _ _ _ _ _ Hdec) as Hall.
    rewrite decodeFromString_returns in Hdec by done. injection Hdec as <-.
    rewrite length_fmap.
    match goal with |- context [decode_values 8 0 ?vs] =>
      pose proof (decode_values_length vs) as Hlen;
      destruct (decode_values 8 0 vs) as [[emitted s'] c'] end.
    cbn [fst]. rewrite Hlen, resolve_length by done. f_equal. lia.
  - intros bytes Hdec. pose proof (decode_inr _ _ _ _ _ Hdec) as Hall.
    rewrite decode_returns in Hdec by done. injection Hdec as <-.
    rewrite length_fmap.
    match goal with |- context [decode_values 8 0 ?vs] =>
      pose proof (decode_values_length vs) as Hlen;
      destruct (decode_values 8 0 vs) as [[emitted s'] c'] end.
    cbn [fst]. rewrite Hlen, resolve_length by done. f_equal. lia.
Qed.

(** One byte gives 2 symbols, five bytes give 8; with [start = -2] two
    bytes of a longer input are encoded; 8 symbols decode to 5 bytes. *)
Lemma output_lengths_witness :
  length (encodeToString base32Crockford [255] None None) = 2%nat ∧
  length (encode base32Crockford [1; 2; 3; 4; 5] None None) = 8%nat ∧
  length (encodeToString base32Crockford [1; 2; 3; 4; 5] (Some (-2)) None) = 4%nat ∧
  ∃ bytes, decodeFromString base32Crockford (js "ZZZZZZZZ") None None = inr bytes ∧
           length bytes = 5%nat.
Proof.
  split_and!.
  - apply Nat2Z.inj.
    exact (proj1 (output_lengths None base32Crockford [255] None None eq_refl)).
  - apply Nat2Z.inj.
    exact (proj1 (proj2 (output_lengths None base32Crockford [1; 2; 3; 4; 5]
                           None None eq_refl))).
  - apply Nat2Z.inj.
    exact (proj1 (output_lengths None base32Crockford [1; 2; 3; 4; 5]
                    (Some (-2)) None eq_refl)).
  - eexists. split; [by vm_compute|].
    apply Nat2Z.inj.
    apply (proj1 (proj2 (proj2 (output_lengths None base32Crockford (js "ZZZZZZZZ")
                                  None None eq_refl)))).
    by vm_compute.
Defined.

(** ** The partial byte after the decode loop *)

(** For every decode call whose symbols all resolve, the loop ends with its
    write position at the end of the buffer, so the store guarded by
    [shift !== 8 && carry !== 0] changes nothing: what is returned is the
    buffer as the loop left it. *)
Lemma decode_final_store_outside (this : Base32Crockford) (input : list Z)
    (start end_ : option Z) (st : buffer_state) :
  let s := slice_index (length input) start 0 in
  let e := slice_index (length input) end_ (length input) in
  let newLength := Z.max 0 (Z.of_nat e - Z.of_nat s) in
  let buffer := Uint8Array_new (Z.to_nat (newLength * BITS_PER_CHAR / 8)) in
  decodeFromString_loop (alphabetLookupSymbol this) s (slice_range input s e)
    (BufferState buffer 8 0 0) = inr st →
  index st = length (result st) ∧ decode_finish st = result st ∧
  decodeFromString this input start end_ = inr (result st).
Proof.
  intros s e newLength buffer Hloop.
  assert (Forall (λ c, is_Some (alphabetLookupSymbol this !! c)) (slice_range input s e))
    as Hall.
  { destruct (first_absent (alphabetLookupSymbol this) (slice_range input s e))
      as [?|(pre & c & post & Hslice & Hpre & Hc)]; [done|].
    rewrite Hslice, decodeFromString_loop_throws in Hloop by done. done. }
  assert (index st = length (result st)) as Hidx.
  { rewrite decodeFromString_loop_ok in Hloop by done. injection Hloop as <-.
    pose proof (decode_loop_state input start end_
                  (resolve (alphabetLookupSymbol this) (slice_range input s e))
                  (resolve_length _ _ Hall)) as Hst.
    cbn zeta in Hst. fold s e newLength buffer in Hst.
    destruct (decode_values 8 0 _) as [[emitted s'] c'].
    destruct Hst as [-> _]. cbn [index result]. by rewrite length_fmap. }
  assert (decode_finish st = result st) as Hfin.
  { destruct st as [r sh ca ix]. cbn [index result] in *. subst ix.
    apply decode_finish_full. }
  split_and!; [done..|].
  unfold decodeFromString. fold s e newLength buffer.
  rewrite Hloop. cbn [bind]. by rewrite Hfin.
Qed.

(** C4 on the code: decoding the lone symbol [Z] (value 31) ends the loop
    with [shift = 3] and [carry = 248], so the guard of the final store
    holds; the buffer has length 0, the store at index 0 is dropped, and
    the call returns the empty sequence rather than [[248]].  The same
    holds for the buffer form, and for ["ZZZ"], where the returned
    sequence is the single complete byte and the pending [carry = 254] is
    not appended. *)
Theorem decode_lone_symbol_partial_byte :
  decodeFromString_loop (alphabetLookupSymbol base32Crockford) 0 (js "Z")
    (BufferState (Uint8Array_new 0) 8 0 0) = inr (BufferState [] 3 248 0) ∧
  decodeFromString base32Crockford (js "Z") None None = inr [] ∧
  decode base32Crockford (js "Z") None None = inr [] ∧
  decodeFromString_loop (alphabetLookupSymbol base32Crockford) 0 (js "ZZZ")
    (BufferState (Uint8Array_new 1) 8 0 0) = inr (BufferState [255] 1 254 1) ∧
  decodeFromString base32Crockford (js "ZZZ") None None = inr [255].
Proof. split_and!; vm_compute; reflexivity. Qed.

(** ** Integer codec: termination and digits *)

Lemma digits_value_ge (ds : list Z) : ∀ acc,
  0 ≤ acc → Forall (λ d, 0 ≤ d < 32) ds → acc ≤ digits_value acc ds.
Proof.
  induction ds as [|d ds IH]; intros acc Hacc Hds; cbn [digits_value foldl]; [lia|].
  inversion Hds; subst. etransitivity; [|apply IH; [lia | done]]. lia.
Qed.

(** With a budget above the bit length of [number] the loop finishes, and
    it prepends the symbols of the base-32 digits of [number]. *)
Lemma encodeInt_loop_digits (alphabet : jsstring) (fuel : nat) :
  ∀ (number : Z) (result : jsstring),
  0 ≤ number < 2 ^ (Z.of_nat fuel - 1) →
  ∃ ds, encodeInt_loop fuel alphabet number result
          = Some (concat (string_at alphabet <$> ds) ++ result) ∧
        Forall (λ d, 0 ≤ d < 32) ds ∧ digits_value 0 ds = number ∧
        (number ≠ 0 → ds ≠ []).
Proof.
  induction fuel as [|fuel IH]; intros number result Hn.
  - cbn in Hn. lia.
  - cbn [encodeInt_loop]. case_decide as H0.
    + exists []. subst. split_and!; [done|constructor|done|done].
    + replace (Z.of_nat (S fuel) - 1) with (Z.of_nat fuel) in Hn by lia.
      assert (1 ≤ Z.of_nat fuel) as Hfuel.
      { destruct fuel; [cbn in Hn; lia | lia]. }
      change (Z.of_nat BASE) with 32.
      destruct (IH (number / 32) (string_at alphabet (Z.rem number 32) ++ result))
        as (ds & -> & Hds & Hval & _).
      { split; [apply Z.div_pos; lia|].
        apply Z.div_lt_upper_bound; [lia|].
        replace (Z.of_nat fuel) with (Z.of_nat fuel - 1 + 1) in Hn by lia.
        rewrite Z.pow_add_r in Hn by lia. lia. }
      rewrite Z.rem_mod_nonneg by lia.
      exists (ds ++ [number mod 32]). split_and!.
      * rewrite fmap_app, concat_app. cbn [fmap list_fmap concat].
        by rewrite app_nil_r, <- app_assoc.
      * apply Forall_app. split; [done|]. constructor; [|constructor].
        apply Z.mod_pos_bound. lia.
      * unfold digits_value in *. rewrite foldl_app. cbn [foldl]. rewrite Hval.
        pose proof (Z.div_mod number 32 ltac:(lia)). lia.
      * intros _. by destruct ds.
Qed.

Lemma digits_fuel_enough (number : Z) :
  0 < number → 0 ≤ number < 2 ^ (Z.of_nat (digits_fuel number) - 1).
Proof.
  intros Hn. unfold digits_fuel.
  pose proof (Z.log2_nonneg number).
  replace (Z.of_nat (Z.to_nat (Z.log2 number) + 2) - 1) with (Z.succ (Z.log2 number)) by lia.
  pose proof (Z.log2_spec number Hn). lia.
Qed.

(** On non-negative values the BigInt loop runs as the Number loop. *)
Lemma encodeBigInt_loop_nonneg (alphabet : jsstring) (fuel : nat) :
  ∀ (number : Z) (result : jsstring),
  0 ≤ number →
  encodeBigInt_loop fuel alphabet number result
    = encodeInt_loop fuel alphabet number result.
Proof.
  induction fuel as [|fuel IH]; intros number result Hn; [done|].
  cbn [encodeBigInt_loop encodeInt_loop]. case_decide; [done|].
  change (Z.of_nat BASE) with 32.
  rewrite Z.quot_div_nonneg by lia. apply IH. apply Z.div_pos; lia.
Qed.

(** ** Integer codec: range *)

Lemma Number_of_exact_safe (z : Z) : 0 ≤ z < 2 ^ 53 → Number_of_exact z = Finite z.
Proof.
  intros Hz. unfold Number_of_exact, round_significand.
  rewrite Z.abs_eq by lia.
  assert (Z.log2 z + 1 <= 53) as Hbits.
  { destruct (decide (z = 0)) as [->|]; [done|].
    assert (Z.log2 z < 53) by (apply Z.log2_lt_pow2; lia). lia. }
  destruct (Z.log2 z + 1 <=? 53) eqn:E; [|lia].
  assert (z < 2 ^ 1024).
  { eapply Z.lt_trans; [apply Hz|]. apply Z.pow_lt_mono_r; lia. }
  destruct (2 ^ 1024 <=? z) eqn:E'; [lia|].
  f_equal. destruct (decide (z = 0)) as [->|]; [done|].
  rewrite Z.sgn_pos by lia. lia.
Qed.

Section IntegerLoops.
Variable table : gmap Z Z.

(** Over symbols that resolve, the decode loops do not throw. *)
Lemma decodeInt_loop_total (chars : list Z) : ∀ (i : nat) (acc : Number),
  Forall (λ c, is_Some (table !! c)) chars →
  ∃ r, decodeInt_loop table i chars acc = inr r.
Proof.
  induction chars as [|c chars IH]; intros i acc Hall; [by eexists|].
  inversion Hall as [|? ? [v Hv] Hrest]; subst.
  cbn [decodeInt_loop]. rewrite Hv. by apply IH.
Qed.

Lemma decodeInt_loop_throws (chars : list Z) : ∀ (i : nat) (acc : Number) e,
  decodeInt_loop table i chars acc = inl e → kind e = SyntaxError.
Proof.
  induction chars as [|c chars IH]; intros i acc e; cbn [decodeInt_loop]; [done|].
  destruct (table !! c); [apply IH | by intros [= <-]].
Qed.
End IntegerLoops.

Lemma encodeInt_in_range (this : Base32Crockford) (n : Z) :
  Z.abs n ≤ NumberMAX_SAFE_INTEGER → ∃ s, encodeInt this n = Some (inr s).
Proof.
  intros Hn. unfold encodeInt.
  unfold NumberMAX_SAFE_INTEGER, NumberMIN_SAFE_INTEGER in *.
  destruct (n <? - (2 ^ 53 - 1)) eqn:E1; [lia|].
  destruct (2 ^ 53 - 1 <? n) eqn:E2; [lia|].
  case_decide as H0; [by eexists|].
  set (number := if n <? 0 then - n else n).
  assert (0 < number) as Hpos by (subst number; destruct (n <? 0) eqn:E; lia).
  destruct (encodeInt_loop_digits (alphabetSymbol this) (digits_fuel number) number [])
    as (ds & -> & _); [by apply digits_fuel_enough|].
  cbn [mbind option_bind]. by eexists.
Qed.

(** C7: [encodeInt] throws a RangeError exactly when the magnitude of its
    integer argument exceeds [2^53 - 1], and returns a string for every
    other integer.  [decodeInt] returns a Number for every string whose
    symbols (after an optional sign in front of at least one symbol) are in
    the table, whatever its length, and whatever it throws is a
    SyntaxError, never a RangeError; the 13-symbol string [8000000000000]
    decodes to [2^63], beyond the safe-integer range. *)
Theorem integer_range_checks (this : Base32Crockford) :
  (∀ n : Z, NumberMAX_SAFE_INTEGER < Z.abs n ↔
            ∃ m, encodeInt this n = Some (inl (Throw RangeError m))) ∧
  (∀ n : Z, Z.abs n ≤ NumberMAX_SAFE_INTEGER ↔
            ∃ s, encodeInt this n = Some (inr s)) ∧
  (∀ string : jsstring,
     Forall (λ c, is_Some (alphabetLookupSymbol this !! c)) string →
     ∃ r, decodeInt this string = inr r) ∧
  (∀ digits : jsstring,
     digits ≠ [] → Forall (λ c, is_Some (alphabetLookupSymbol this !! c)) digits →
     ∃ r, decodeInt this (NEGATIVE_CHAR :: digits) = inr r) ∧
  (∀ (string : jsstring) e, decodeInt this string = inl e → kind e = SyntaxError) ∧
  decodeInt base32Crockford (js "8000000000000") = inr (Finite (2 ^ 63)).
Proof.
  assert (∀ n : Z, NumberMAX_SAFE_INTEGER < Z.abs n →
            ∃ m, encodeInt this n = Some (inl (Throw RangeError m))) as Hout.
  { intros n Hn. unfold encodeInt.
    unfold NumberMAX_SAFE_INTEGER, NumberMIN_SAFE_INTEGER in *.
    destruct (n <? - (2 ^ 53 - 1)) eqn:E1; [by eexists|].
    destruct (2 ^ 53 - 1 <? n) eqn:E2; [by eexists | lia]. }
  split_and!.
  - intros n. split; [apply Hout|]. intros [m Hm].
    destruct (Z.le_gt_cases (Z.abs n) NumberMAX_SAFE_INTEGER) as [Hin|?]; [|done].
    destruct (encodeInt_in_range this n Hin) as [s Hs]. congruence.
  - intros n. split; [apply encodeInt_in_range|]. intros [s Hs].
    destruct (Z.le_gt_cases (Z.abs n) NumberMAX_SAFE_INTEGER) as [?|Hgt]; [done|].
    destruct (Hout n Hgt) as [m Hm]. congruence.
  - intros string Hall. unfold decodeInt.
    match goal with |- context [decodeInt_loop _ ?s _ _] => set (start := s) end.
    destruct (decodeInt_loop_total (alphabetLookupSymbol this) (drop start string)
                start (Finite 0)) as [r ->]; [by apply Forall_drop|].
    cbn [bind]. by eexists.
  - intros digits Hne Hall. unfold decodeInt.
    match goal with |- context [decodeInt_loop _ ?s _ _] => set (start := s) end.
    assert (start = 1%nat) as ->.
    { subst start. cbn [lookup list_lookup]. rewrite bool_decide_eq_true_2 by done.
      rewrite bool_decide_eq_true_2; [done|]. destruct digits; [done | cbn; lia]. }
    change (drop 1 (NEGATIVE_CHAR :: digits)) with digits.
    destruct (decodeInt_loop_total (alphabetLookupSymbol this) digits 1 (Finite 0) Hall)
      as [r ->].
    cbn [bind]. by eexists.
  - intros string e. unfold decodeInt.
    match goal with |- context [decodeInt_loop _ ?s _ _] => set (start := s) end.
    destruct (decodeInt_loop _ start _ _) as [e'|r] eqn:Hloop; cbn [bind]; [|done].
    intros [= <-]. by eapply decodeInt_loop_throws.
  - vm_compute. reflexivity.
Qed.

Lemma integer_range_checks_witness :
  (∃ m, encodeInt base32Crockford (2 ^ 53) = Some (inl (Throw RangeError m))) ∧
  (∃ s, encodeInt base32Crockford (- (2 ^ 53 - 1)) = Some (inr s)) ∧
  (∃ r, decodeInt base32Crockford (js "ZZZZZZZZZZZZZZZZZZZZZZZZ") = inr r) ∧
  (∃ r, decodeInt base32Crockford (NEGATIVE_CHAR :: js "ZZZZZZZZZZZZZZZZZZZZZZZZ") = inr r).
Proof.
  split_and!.
  - apply (proj1 (integer_range_checks base32Crockford)). by vm_compute.
  - apply (proj1 (proj2 (integer_range_checks base32Crockford))). by vm_compute.
  - apply (proj1 (proj2 (proj2 (integer_range_checks base32Crockford)))).
    compute_done.
  - apply (proj1 (proj2 (proj2 (proj2 (integer_range_checks base32Crockford))))).
    + done.
    + compute_done.
Defined.

(** ** Round trips

    The round-trip laws hold for every codec whose table gives each symbol
    of its alphabet its own position, as the default codec's does. *)

Section RoundTrip.
Variable this : Base32Crockford.

Hypothesis alphabet_length : length (alphabetSymbol this) = BASE.
Hypothesis table_consistent : ∀ (v : nat) (c : Z),
  alphabetSymbol this !! v = Some c →
  alphabetLookupSymbol this !! c = Some (Z.of_nat v).
Hypothesis sign_not_symbol : NEGATIVE_CHAR ∉ alphabetSymbol this.

Lemma symbols_cons (d : Z) (ds : list Z) :
  0 ≤ d < 32 →
  ∃ c, c ∈ alphabetSymbol this ∧ alphabetLookupSymbol this !! c = Some d ∧
       concat (string_at (alphabetSymbol this) <$> d :: ds)
         = c :: concat (string_at (alphabetSymbol this) <$> ds).
Proof.
  intros Hd.
  destruct (string_at_in_range (alphabetSymbol this) d) as (c & Hc & Hat).
  { rewrite alphabet_length. unfold BASE. lia. }
  exists c. split_and!.
  - by eapply list_elem_of_lookup_2.
  - rewrite (table_consistent _ _ Hc). f_equal. lia.
  - cbn [fmap list_fmap concat]. by rewrite Hat.
Qed.

(** Decoding the symbols of digits, in Number arithmetic: every partial
    value is below [2^53], so each product and sum is exact. *)
Lemma decodeInt_loop_symbols (ds : list Z) : ∀ (i : nat) (acc : Z) (rest : list Z),
  Forall (λ d, 0 ≤ d < 32) ds → 0 ≤ acc → digits_value acc ds < 2 ^ 53 →
  decodeInt_loop (alphabetLookupSymbol this) i
      (concat (string_at (alphabetSymbol this) <$> ds) ++ rest) (Finite acc)
    = decodeInt_loop (alphabetLookupSymbol this) (i + length ds) rest
        (Finite (digits_value acc ds)).
Proof.
  induction ds as [|d ds IH]; intros i acc rest Hds Hacc Hval.
  - cbn. by rewrite Nat.add_0_r.
  - inversion Hds as [|? ? Hd Hds']; subst.
    destruct (symbols_cons d ds Hd) as (c & _ & Hc & ->).
    cbn [app decodeInt_loop]. rewrite Hc.
    change (Z.of_nat BASE) with 32. cbn [digits_value foldl] in Hval |- *.
    pose proof (digits_value_ge ds (acc * 32 + d) ltac:(lia) Hds') as Hge.
    unfold digits_value in Hge.
    cbn [Number_mul]. rewrite Number_of_exact_safe by lia.
    cbn [Number_add]. rewrite Number_of_exact_safe by lia.
    rewrite IH by (done || lia). f_equal. cbn [length]. lia.
Qed.

Lemma decodeBigInt_loop_symbols (ds : list Z) : ∀ (i : nat) (acc : Z) (rest : list Z),
  Forall (λ d, 0 ≤ d < 32) ds →
  decodeBigInt_loop (alphabetLookupSymbol this) i
      (concat (string_at (alphabetSymbol this) <$> ds) ++ rest) acc
    = decodeBigInt_loop (alphabetLookupSymbol this) (i + length ds) rest
        (digits_value acc ds).
Proof.
  induction ds as [|d ds IH]; intros i acc rest Hds.
  - cbn. by rewrite Nat.add_0_r.
  - inversion Hds as [|? ? Hd Hds']; subst.
    destruct (symbols_cons d ds Hd) as (c & _ & Hc & ->).
    cbn [app decodeBigInt_loop]. rewrite Hc.
    rewrite IH by done. f_equal. cbn [length]. lia.
Qed.

(** A non-empty symbol string does not start with the sign. *)
Lemma symbols_head (ds : list Z) :
  Forall (λ d, 0 ≤ d < 32) ds → ds ≠ [] →
  let string := concat (string_at (alphabetSymbol this) <$> ds) in
  bool_decide (string !! 0%nat = Some NEGATIVE_CHAR) = false ∧
  (0 < length string)%nat.
Proof.
  intros Hds Hne. destruct ds as [|d ds]; [done|].
  inversion Hds as [|? ? Hd Hds']; subst.
  destruct (symbols_cons d ds Hd) as (c & Hin & _ & ->).
  cbn [lookup list_lookup length]. split; [|lia].
  apply bool_decide_eq_false_2. intros [= ->]. by apply sign_not_symbol.
Qed.

Lemma integer_round_trip_Number (n : Z) :
  Z.abs n ≤ NumberMAX_SAFE_INTEGER →
  ∃ s, encodeInt this n = Some (inr s) ∧ decodeInt this s = inr (Finite n).
Proof.
  intros Hn. unfold encodeInt.
  unfold NumberMAX_SAFE_INTEGER, NumberMIN_SAFE_INTEGER in *.
  destruct (n <? - (2 ^ 53 - 1)) eqn:E1; [lia|].
  destruct (2 ^ 53 - 1 <? n) eqn:E2; [lia|].
  case_decide as H0.
  - subst n. eexists. split; [done|].
    destruct (symbols_cons 0 [] ltac:(lia)) as (c & Hin & Hc & Heq).
    cbn [fmap list_fmap concat] in Heq. rewrite app_nil_r in Heq. rewrite Heq.
    unfold decodeInt. cbn [lookup list_lookup length].
    rewrite bool_decide_eq_false_2 by (intros [= ->]; by apply sign_not_symbol).
    cbn [andb drop decodeInt_loop]. rewrite Hc. done.
  - set (number := if n <? 0 then - n else n).
    assert (0 < number < 2 ^ 53) as Hpos by (subst number; destruct (n <? 0) eqn:E; lia).
    destruct (encodeInt_loop_digits (alphabetSymbol this) (digits_fuel number) number [])
      as (ds & -> & Hds & Hval & Hne); [apply digits_fuel_enough; lia|].
    cbn [mbind option_bind]. rewrite app_nil_r. eexists. split; [done|].
    destruct (symbols_head ds Hds ltac:(apply Hne; lia)) as [Hhead Hlen].
    pose proof (decodeInt_loop_symbols ds) as Hloop.
    unfold decodeInt. destruct (n <? 0) eqn:Hneg.
    + cbn [lookup list_lookup length].
      rewrite bool_decide_eq_true_2 by done.
      rewrite bool_decide_eq_true_2 by lia. cbn [andb].
      change (drop 1 (NEGATIVE_CHAR :: ?l)) with l.
      rewrite <- (app_nil_r (concat _)), Hloop by (done || lia).
      cbn [decodeInt_loop bind]. rewrite Hval. cbn [Number_gt0].
      destruct (0 <? number) eqn:E; [|lia]. cbn [Number_neg].
      do 2 f_equal. subst number. lia.
    + rewrite Hhead. cbn [andb]. change (drop 0 ?l) with l.
      rewrite <- (app_nil_r (concat _)), Hloop by (done || lia).
      cbn [decodeInt_loop bind]. rewrite Hval. done.
Qed.

Lemma integer_round_trip_BigInt (m : Z) :
  ∃ s, encodeBigInt this m = Some s ∧ decodeBigInt this s = inr m.
Proof.
  unfold encodeBigInt. case_decide as H0.
  - subst m. eexists. split; [done|].
    destruct (symbols_cons 0 [] ltac:(lia)) as (c & Hin & Hc & Heq).
    cbn [fmap list_fmap concat] in Heq. rewrite app_nil_r in Heq. rewrite Heq.
    unfold decodeBigInt. cbn [lookup list_lookup length].
    rewrite bool_decide_eq_false_2 by (intros [= ->]; by apply sign_not_symbol).
    cbn [andb drop decodeBigInt_loop]. rewrite Hc. done.
  - set (number := if m <? 0 then - m else m).
    assert (0 < number) as Hpos by (subst number; destruct (m <? 0) eqn:E; lia).
    rewrite encodeBigInt_loop_nonneg by lia.
    destruct (encodeInt_loop_digits (alphabetSymbol this) (digits_fuel number) number [])
      as (ds & -> & Hds & Hval & Hne); [apply digits_fuel_enough; lia|].
    cbn [mbind option_bind]. rewrite app_nil_r. eexists. split; [done|].
    destruct (symbols_head ds Hds ltac:(apply Hne; lia)) as [Hhead Hlen].
    pose proof (decodeBigInt_loop_symbols ds) as Hloop.
    unfold decodeBigInt. destruct (m <? 0) eqn:Hneg.
    + cbn [lookup list_lookup length].
      rewrite bool_decide_eq_true_2 by done.
      rewrite bool_decide_eq_true_2 by lia. cbn [andb].
      change (drop 1 (NEGATIVE_CHAR :: ?l)) with l.
      rewrite <- (app_nil_r (concat _)), Hloop by done.
      cbn [decodeBigInt_loop bind]. rewrite Hval. subst number. f_equal; lia.
    + rewrite Hhead. cbn [andb]. change (drop 0 ?l) with l.
      rewrite <- (app_nil_r (concat _)), Hloop by done.
      cbn [decodeBigInt_loop bind]. rewrite Hval. subst number. f_equal; lia.
Qed.
End RoundTrip.


(** ** Byte round trip on values

    What the decoder does with the first symbol after a byte is checked
    for every state, byte [b] and [t] ([head_step]), and the rest of the
    step for every state and next byte ([tail_step]); the round trip then
    follows by induction on the bytes. *)

Lemma encode_values_single (s c b' : Z) :
  encode_values s c [b']
    = (((c .| (b' >> s)) .& 0x1f) :: later_values s b',
       next_shift s, b' << (8 - next_shift s)).
Proof.
  cbn [encode_values]. unfold later_values, next_shift, BITS_PER_CHAR.
  destruct (5 <? s).
  - replace (8 - (5 - (s - 5))) with (s - 2) by lia.
    by replace (5 - (s - 5)) with (8 - (s - 2)) by lia.
  - replace (8 - (5 - s)) with (s + 3) by lia.
    by replace (5 - s) with (8 - (s + 3)) by lia.
Qed.

Lemma encode_values_cons (s c b' : Z) (rest : list Z) :
  encode_values s c (b' :: rest)
    = let '(more, s', c') :=
        encode_values (next_shift s) (b' << (8 - next_shift s)) rest in
      (((c .| (b' >> s)) .& 0x1f) :: later_values s b' ++ more, s', c').
Proof.
  cbn [encode_values]. unfold later_values, next_shift, BITS_PER_CHAR.
  destruct (5 <? s).
  - replace (8 - (5 - (s - 5))) with (s - 2) by lia.
    replace (5 - (s - 5)) with (8 - (s - 2)) by lia.
    by destruct (encode_values _ _ rest) as [[more s'] c'].
  - replace (8 - (5 - s)) with (s + 3) by lia.
    replace (5 - s) with (8 - (s + 3)) by lia.
    by destruct (encode_values _ _ rest) as [[more s'] c'].
Qed.

Lemma decode_values_app (xs ys : list Z) : ∀ (s c : Z),
  decode_values s c (xs ++ ys)
    = let '(e1, s1, c1) := decode_values s c xs in
      let '(e2, s2, c2) := decode_values s1 c1 ys in
      (e1 ++ e2, s2, c2).
Proof.
  induction xs as [|x xs IH]; intros s c; cbn [app decode_values].
  - by destruct (decode_values s c ys) as [[e2 s2] c2].
  - destruct (0 <? s - BITS_PER_CHAR); [|destruct (s - BITS_PER_CHAR <? 0)];
      rewrite IH; destruct (decode_values _ _ xs) as [[e1 s1] c1];
      destruct (decode_values s1 c1 ys) as [[e2 s2] c2]; by rewrite ?app_assoc.
Qed.

Lemma forallb_seqZ (P : Z → bool) (m n : Z) :
  forallb P (seqZ m n) = true → ∀ x, m ≤ x < m + n → P x = true.
Proof.
  intros H x Hx. rewrite forallb_forall in H. apply H.
  apply list_elem_of_In, elem_of_seqZ. lia.
Qed.

(** The four facts, each checked on every state and byte it concerns. *)
Lemma first_step_all (b : Z) : is_byte b → first_step b.
Proof.
  intros Hb. apply (bool_decide_eq_true_1 (first_step b)).
  apply (forallb_seqZ (λ x, @bool_decide (first_step x) (first_step_dec x)) 0 256);
    [|unfold is_byte in Hb; lia].
  vm_compute. reflexivity.
Qed.

Lemma head_step_all (s b t : Z) :
  4 ≤ s ≤ 8 → is_byte b → 0 ≤ t < 2 ^ (8 - s) → head_step s b t.
Proof.
  intros Hs Hb Ht. apply (bool_decide_eq_true_1 (head_step s b t)).
  assert (forallb
            (λ x, forallb
                    (λ y, forallb (λ z, @bool_decide (head_step x y z) (head_step_dec x y z))
                            (seqZ 0 (2 ^ (8 - x))))
                    (seqZ 0 256))
            (seqZ 4 5) = true)
    as H by (vm_compute; reflexivity).
  pose proof (forallb_seqZ _ _ _ H s ltac:(lia)) as H1. cbv beta in H1.
  pose proof (forallb_seqZ _ _ _ H1 b ltac:(unfold is_byte in Hb; lia)) as H2.
  cbv beta in H2.
  apply (forallb_seqZ _ _ _ H2). lia.
Qed.

Lemma tail_step_all (s b' : Z) : 4 ≤ s ≤ 8 → is_byte b' → tail_step s b'.
Proof.
  intros Hs Hb. apply (bool_decide_eq_true_1 (tail_step s b')).
  assert (forallb (λ x, forallb (λ y, @bool_decide (tail_step x y) (tail_step_dec x y)) (seqZ 0 256))
            (seqZ 4 5) = true)
    as H by (vm_compute; reflexivity).
  pose proof (forallb_seqZ _ _ _ H s ltac:(lia)) as H1. cbv beta in H1.
  apply (forallb_seqZ _ _ _ H1). unfold is_byte in Hb. lia.
Qed.

Lemma final_step_all (s b : Z) : 4 ≤ s ≤ 8 → is_byte b → final_step s b.
Proof.
  intros Hs Hb. apply (bool_decide_eq_true_1 (final_step s b)).
  assert (forallb (λ x, forallb (λ y, @bool_decide (final_step x y) (final_step_dec x y)) (seqZ 0 256))
            (seqZ 4 5) = true)
    as H by (vm_compute; reflexivity).
  pose proof (forallb_seqZ _ _ _ H s ltac:(lia)) as H1. cbv beta in H1.
  apply (forallb_seqZ _ _ _ H1). unfold is_byte in Hb. lia.
Qed.

Lemma next_shift_range (s : Z) : 3 ≤ s ≤ 8 → 4 ≤ next_shift s ≤ 8.
Proof.
  intros Hs. unfold next_shift, BITS_PER_CHAR. destruct (5 <? s) eqn:E; lia.
Qed.

(** From matching states after byte [b], decoding what the encoder still
    emits for [rest], and the symbol appended after the loop, gives [b]
    and then [rest]. *)
Lemma values_round_trip (rest : list Z) : ∀ (s b : Z),
  4 ≤ s ≤ 8 → is_byte b → Forall is_byte rest →
  let '(values, s', c') := encode_values s (b << (8 - s)) rest in
  4 ≤ s' ≤ 8 ∧
  (decode_values (s - 3) (gathered s b) (values ++ [c' .& 0x1f])).1.1 = b :: rest.
Proof.
  induction rest as [|b' rest IH]; intros s b Hs Hb Hrest.
  - cbn [encode_values app]. split; [done|].
    exact (final_step_all s b Hs Hb).
  - inversion Hrest as [|? ? Hb' Hrest']; subst.
    rewrite encode_values_cons.
    specialize (IH (next_shift s) b' (next_shift_range s ltac:(lia)) Hb' Hrest').
    destruct (encode_values (next_shift s) _ rest) as [[more s'] c'].
    destruct IH as [Hs' IH]. split; [done|].
    destruct (tail_step_all s b' Hs Hb') as [Ht Htail].
    pose proof (head_step_all s b (b' >> s) Hs Hb Ht) as Hhead.
    unfold head_step in Hhead.
    match goal with |- context [(?v :: later_values s b' ++ more) ++ ?f] =>
      replace ((v :: later_values s b' ++ more) ++ f)
        with ([v] ++ (later_values s b' ++ (more ++ f)))
        by (cbn [app]; by rewrite app_assoc)
    end.
    rewrite decode_values_app, Hhead, decode_values_app, Htail.
    destruct (decode_values _ _ (more ++ _)) as [[e2 s2] c2].
    cbn [fst app] in *. by rewrite IH.
Qed.

Lemma encode_all_values_cons (b : Z) (rest : list Z) :
  encode_all_values (b :: rest)
    = let '(more, s', c') := encode_values 6 (b << 2) rest in
      [(0 .| (b >> 3)) .& 0x1f] ++ more
        ++ (if decide (s' ≠ 3) then [c' .& 0x1f] else []).
Proof.
  unfold encode_all_values. rewrite encode_values_cons.
  replace (next_shift 3) with 6 by reflexivity.
  replace (later_values 3 b) with (@nil Z) by reflexivity.
  replace (8 - 6) with 2 by reflexivity.
  destruct (encode_values 6 (b << 2) rest) as [[more s'] c'].
  case_decide; cbn [app]; [done|]. by rewrite app_nil_r.
Qed.

(** Decoding the values of an encoding gives the bytes back. *)
Lemma encode_decode_values (bytes : list Z) :
  Forall is_byte bytes → (decode_values 8 0 (encode_all_values bytes)).1.1 = bytes.
Proof.
  intros Hbytes. destruct bytes as [|b rest]; [reflexivity|].
  inversion Hbytes as [|? ? Hb Hrest]; subst.
  rewrite encode_all_values_cons.
  pose proof (values_round_trip rest 6 b ltac:(lia) Hb Hrest) as Hrt.
  replace (8 - 6) with 2 in Hrt by reflexivity.
  replace (6 - 3) with 3 in Hrt by reflexivity.
  destruct (encode_values 6 (b << 2) rest) as [[more s'] c'].
  destruct Hrt as [Hs' Hrt]. rewrite decide_True by lia.
  pose proof (first_step_all b Hb) as Hfirst. unfold first_step in Hfirst.
  rewrite decode_values_app, Hfirst.
  destruct (decode_values 3 (gathered 6 b) (more ++ [c' .& 31])) as [[e2 s2] c2].
  exact Hrt.
Qed.

(** ** Byte round trip of a codec with a consistent table *)

Lemma mod_256_bytes (bytes : list Z) :
  Forall is_byte bytes → (λ v, v mod 256) <$> bytes = bytes.
Proof.
  induction 1 as [|b bytes Hb _ IH]; [done|].
  cbn [fmap list_fmap]. unfold is_byte in Hb. rewrite Z.mod_small by lia.
  f_equal. exact IH.
Qed.

Section ByteRoundTrip.
Variable this : Base32Crockford.

Hypothesis alphabet_length : length (alphabetSymbol this) = BASE.
Hypothesis table_consistent : ∀ (v : nat) (c : Z),
  alphabetSymbol this !! v = Some c →
  alphabetLookupSymbol this !! c = Some (Z.of_nat v).
Hypothesis baseMap_consistent : ∀ v : Z, 0 ≤ v < 32 → code_consistent this v.

(** The symbols of values resolve to these values. *)
Lemma symbols_resolve (values : list Z) :
  Forall (λ v, 0 ≤ v < 32) values →
  let string := concat (string_at (alphabetSymbol this) <$> values) in
  Forall (λ c, is_Some (alphabetLookupSymbol this !! c)) string ∧
  resolve (alphabetLookupSymbol this) string = values.
Proof.
  induction 1 as [|v values Hv _ [IH1 IH2]]; [by split|].
  destruct (symbols_cons this alphabet_length table_consistent v values Hv)
    as (c & _ & Hc & ->).
  split.
  - constructor; [by eexists | done].
  - cbn [resolve omap list_omap]. rewrite Hc. f_equal. exact IH2.
Qed.

Lemma codes_resolve (values : list Z) :
  Forall (λ v, 0 ≤ v < 32) values →
  let codes := (λ v, Uint8Array_get (baseMapSymbol this) v mod 256) <$> values in
  Forall (λ c, is_Some (baseMapLookupSymbol this !! c)) codes ∧
  resolve (baseMapLookupSymbol this) codes = values.
Proof.
  induction 1 as [|v values Hv _ [IH1 IH2]]; [by split|].
  cbn [fmap list_fmap]. pose proof (baseMap_consistent v Hv) as Hc. split.
  - constructor; [by eexists | done].
  - cbn [resolve omap list_omap]. rewrite Hc. f_equal. exact IH2.
Qed.

Lemma byte_round_trip_string (B : list Z) :
  Forall is_byte B →
  decodeFromString this (encodeToString this B None None) None None = inr B.
Proof.
  intros HB. rewrite encodeToString_values, slice_range_all.
  destruct (symbols_resolve (encode_all_values B) (encode_all_values_range B))
    as [Hall Hres].
  rewrite decodeFromString_returns; rewrite slice_range_all; [|done].
  rewrite Hres, encode_decode_values by done.
  by rewrite mod_256_bytes.
Qed.

Lemma byte_round_trip_buffer (B : list Z) :
  Forall is_byte B →
  decode this (encode this B None None) None None = inr B.
Proof.
  intros HB. rewrite encode_values_bytes, slice_range_all.
  destruct (codes_resolve (encode_all_values B) (encode_all_values_range B))
    as [Hall Hres].
  rewrite decode_returns; rewrite slice_range_all; [|done].
  rewrite Hres, encode_decode_values by done.
  by rewrite mod_256_bytes.
Qed.
End ByteRoundTrip.

(** ** The default codec *)

Lemma default_alphabet_length : length (alphabetSymbol base32Crockford) = BASE.
Proof. reflexivity. Qed.

Lemma default_table_consistent (v : nat) (c : Z) :
  alphabetSymbol base32Crockford !! v = Some c →
  alphabetLookupSymbol base32Crockford !! c = Some (Z.of_nat v).
Proof.
  intros Hv.
  assert (v < 32)%nat as Hlt by (apply lookup_lt_Some in Hv; exact Hv).
  do 32 (destruct v as [|v];
         [vm_compute in Hv; injection Hv as <-; vm_compute; reflexivity|]).
  lia.
Qed.

Lemma default_baseMap_consistent (v : Z) :
  0 ≤ v < 32 → code_consistent base32Crockford v.
Proof.
  intros Hv. apply (bool_decide_eq_true_1 (code_consistent base32Crockford v)).
  apply (forallb_seqZ
           (λ x, @bool_decide (code_consistent base32Crockford x)
                   (code_consistent_dec base32Crockford x)) 0 32); [|lia].
  vm_compute. reflexivity.
Qed.

Lemma default_sign_not_symbol : NEGATIVE_CHAR ∉ alphabetSymbol base32Crockford.
Proof. compute_done. Qed.

(** Round trip of bytes through the default codec, in both forms. *)
Theorem default_byte_round_trip (B : list Z) :
  Forall is_byte B →
  decodeFromString base32Crockford (encodeToString base32Crockford B None None)
    None None = inr B ∧
  decode base32Crockford (encode base32Crockford B None None) None None = inr B.
Proof.
  intros HB. split.
  - apply byte_round_trip_string;
      [apply default_alphabet_length | apply default_table_consistent | done].
  - apply byte_round_trip_buffer; [apply default_baseMap_consistent | done].
Qed.

(** C1 on the code: the constructor accepts the alphabet that has the
    alias [O] as its symbol for value 0 and [0] as its symbol for value 1;
    in the table it builds, the alias rule for [0] overwrites the entry of
    [O], so [O] decodes to 1.  With this codec the byte [0] is encoded as
    [OO] and decoded as the byte [8], in both forms; the integer 0 is
    encoded as [O] and decoded as 1. *)
Theorem round_trip_alias_alphabet :
  let a := js "O023456789ABCDEFGHJKMNPQRSTVWXYZ" in
  new_Base32Crockford (Some a) = inr (instance_of a) ∧
  alphabetSymbol (instance_of a) !! 0%nat = Some (chr "O") ∧
  alphabetLookupSymbol (instance_of a) !! chr "O" = Some 1 ∧
  encodeToString (instance_of a) [0] None None = js "OO" ∧
  decodeFromString (instance_of a) (js "OO") None None = inr [8] ∧
  encode (instance_of a) [0] None None = js "OO" ∧
  decode (instance_of a) (js "OO") None None = inr [8] ∧
  encodeInt (instance_of a) 0 = Some (inr (js "O")) ∧
  decodeInt (instance_of a) (js "O") = inr (Finite 1).
Proof. split_and!; vm_compute; reflexivity. Qed.

(** Round trip of integers through the default codec:
    [decodeInt(encodeInt(n))] is [n] for every integer [n] of magnitude at
    most [2^53 - 1], the accumulation [result * 32 + index] being carried
    out in Number arithmetic, and [decodeBigInt(encodeBigInt(m))] is [m]
    for every integer [m]. *)
Lemma default_integer_round_trip :
  (∀ n : Z, Z.abs n ≤ 2 ^ 53 - 1 →
     ∃ s, encodeInt base32Crockford n = Some (inr s) ∧
          decodeInt base32Crockford s = inr (Finite n)) ∧
  (∀ m : Z,
     ∃ s, encodeBigInt base32Crockford m = Some s ∧
          decodeBigInt base32Crockford s = inr m).
Proof.
  split.
  - intros n Hn.
    apply (integer_round_trip_Number base32Crockford default_alphabet_length
             default_table_consistent default_sign_not_symbol n Hn).
  - intros m.
    apply (integer_round_trip_BigInt base32Crockford default_alphabet_length
             default_table_consistent default_sign_not_symbol m).
Qed.

(** C2 on the code: the integer methods read the alphabet and the table
    of the codec they are called on, and the round trip does not hold for
    every codec the constructor returns.  The constructor accepts the
    alphabet that has the alias [O] as its symbol for value 0 and [0] as
    its symbol for value 1, and in the table it builds [O] is looked up to
    1.  With this codec the integer 0 is encoded as [O] and [O] is decoded
    as 1, by [encodeInt] and [decodeInt] and by [encodeBigInt] and
    [decodeBigInt] alike; 32 is encoded as [0O] and decoded as 33.  So
    neither [decodeInt(encodeInt(n)) = n] for all safe integers [n] nor
    [decodeBigInt(encodeBigInt(m)) = m] for all [m] holds of all
    constructed codecs.  Through the default codec both hold. *)
Theorem integer_round_trip_alias_alphabet :
  let a := js "O023456789ABCDEFGHJKMNPQRSTVWXYZ" in
  new_Base32Crockford (Some a) = inr (instance_of a) ∧
  alphabetLookupSymbol (instance_of a) !! chr "O" = Some 1 ∧
  encodeInt (instance_of a) 0 = Some (inr (js "O")) ∧
  decodeInt (instance_of a) (js "O") = inr (Finite 1) ∧
  encodeBigInt (instance_of a) 0 = Some (js "O") ∧
  decodeBigInt (instance_of a) (js "O") = inr 1 ∧
  encodeInt (instance_of a) 32 = Some (inr (js "0O")) ∧
  decodeInt (instance_of a) (js "0O") = inr (Finite 33) ∧
  ¬ (∀ (alphabet : option jsstring) (this : Base32Crockford) (n : Z),
       new_Base32Crockford alphabet = inr this → Z.abs n ≤ 2 ^ 53 - 1 →
       ∃ s, encodeInt this n = Some (inr s) ∧ decodeInt this s = inr (Finite n)) ∧
  ¬ (∀ (alphabet : option jsstring) (this : Base32Crockford) (m : Z),
       new_Base32Crockford alphabet = inr this →
       ∃ s, encodeBigInt this m = Some s ∧ decodeBigInt this s = inr m) ∧
  (∀ n : Z, Z.abs n ≤ 2 ^ 53 - 1 →
     ∃ s, encodeInt base32Crockford n = Some (inr s) ∧
          decodeInt base32Crockford s = inr (Finite n)) ∧
  (∀ m : Z,
     ∃ s, encodeBigInt base32Crockford m = Some s ∧
          decodeBigInt base32Crockford s = inr m).
Proof.
  intros a.
  assert (new_Base32Crockford (Some a) = inr (instance_of a)) as Hnew
    by (vm_compute; reflexivity).
  assert (encodeInt (instance_of a) 0 = Some (inr (js "O"))) as HencInt
    by (vm_compute; reflexivity).
  assert (decodeInt (instance_of a) (js "O") = inr (Finite 1)) as HdecInt
    by (vm_compute; reflexivity).
  assert (encodeBigInt (instance_of a) 0 = Some (js "O")) as HencBig
    by (vm_compute; reflexivity).
  assert (decodeBigInt (instance_of a) (js "O") = inr 1) as HdecBig
    by (vm_compute; reflexivity).
  split_and!.
  - exact Hnew.
  - vm_compute. reflexivity.
  - exact HencInt.
  - exact HdecInt.
  - exact HencBig.
  - exact HdecBig.
  - vm_compute. reflexivity.
  - vm_compute. reflexivity.
  - intros Hall.
    destruct (Hall (Some a) (instance_of a) 0 Hnew ltac:(lia)) as (s & Henc & Hdec).
    rewrite HencInt in Henc. injection Henc as <-.
    rewrite HdecInt in Hdec. discriminate.
  - intros Hall.
    destruct (Hall (Some a) (instance_of a) 0 Hnew) as (s & Henc & Hdec).
    rewrite HencBig in Henc. injection Henc as <-.
    rewrite HdecBig in Hdec. discriminate.
  - apply default_integer_round_trip.
  - apply default_integer_round_trip.
Qed.

(** * Further properties of the code *)

(** ** The probes [isAlphabet] and [isBase32CrockfordString] *)

(** X1: [isAlphabet] answers [true] exactly for the strings the constructor
    accepts as an alphabet, and [false] exactly for those it throws on. *)
Theorem isAlphabet_agrees_with_constructor (a : jsstring) :
  (isAlphabet a = true ↔ ∃ codec, new_Base32Crockford (Some a) = inr codec) ∧
  (isAlphabet a = false ↔ ∃ e, new_Base32Crockford (Some a) = inl e).
Proof.
  pose proof (isAlphabet_construct a) as H.
  assert (isAlphabet a = true ↔ ∃ codec, new_Base32Crockford (Some a) = inr codec) as Ht.
  { rewrite H. split; [by eexists|]. intros [codec Hc].
    by rewrite (construct_custom_result _ _ Hc) in Hc. }
  split; [done|].
  destruct (new_Base32Crockford (Some a)) as [e|codec] eqn:Hnew.
  - split; [by eexists|]. intros _.
    destruct (isAlphabet a); [|done].
    destruct (proj1 Ht eq_refl) as [? ?]. done.
  - split; [|by intros [? ?]]. intros Hf.
    rewrite (proj2 Ht) in Hf; [done | by eexists].
Qed.

Lemma StringPrototypeSafeSymbolIterator_cons (c d : Z) (rest : jsstring) :
  StringPrototypeSafeSymbolIterator (c :: d :: rest)
    = if is_high_surrogate c && is_low_surrogate d
      then [c; d] :: StringPrototypeSafeSymbolIterator rest
      else [c] :: StringPrototypeSafeSymbolIterator (d :: rest).
Proof. reflexivity. Qed.

Section Probe.
Variable table : gmap Z Z.
Hypothesis no_surrogate_key : ∀ c, is_high_surrogate c = true → table !! c = None.

(** Over a table without surrogate keys, going through the string by
    code points or by code units finds the same unknown characters. *)
Lemma isBase32CrockfordString_loop_units (n : nat) : ∀ s : jsstring,
  (length s ≤ n)%nat →
  isBase32CrockfordString_loop table (StringPrototypeSafeSymbolIterator s) = true ↔
  Forall (λ c, is_Some (table !! c)) s.
Proof.
  induction n as [|n IH]; intros s Hlen.
  - destruct s; [|cbn in Hlen; lia]. by split.
  - destruct s as [|c [|d rest]].
    + by split.
    + cbn. destruct (table !! c) eqn:Hc.
      * split; [intros _|done]. constructor; [by eexists | constructor].
      * split; [done|]. intros H. inversion H as [|? ? [? ?]]; congruence.
    + rewrite StringPrototypeSafeSymbolIterator_cons.
      destruct (is_high_surrogate c && is_low_surrogate d) eqn:Hsur.
      * apply andb_prop in Hsur as [Hc _]. apply no_surrogate_key in Hc.
        cbn. split; [done|]. intros H. inversion H as [|? ? [? ?]]; congruence.
      * cbn [isBase32CrockfordString_loop object_get].
        destruct (table !! c) eqn:Hc.
        -- rewrite IH by (cbn in *; lia). split.
           ++ intros H. constructor; [by eexists | done].
           ++ intros H. by inversion H.
        -- split; [done|]. intros H. inversion H as [|? ? [? ?]]; congruence.
Qed.
End Probe.

Lemma decodeBigInt_loop_total (table : gmap Z Z) (chars : list Z) :
  ∀ (i : nat) (acc : Z),
  Forall (λ c, is_Some (table !! c)) chars →
  ∃ r, decodeBigInt_loop table i chars acc = inr r.
Proof.
  induction chars as [|c chars IH]; intros i acc Hall; [by eexists|].
  inversion Hall as [|? ? [v Hv] Hrest]; subst.
  cbn [decodeBigInt_loop]. rewrite Hv. by apply IH.
Qed.

Lemma default_no_surrogate_key (c : Z) :
  is_high_surrogate c = true → alphabetLookupSymbol base32Crockford !! c = None.
Proof.
  intros Hc. destruct (alphabetLookupSymbol base32Crockford !! c) eqn:E; [|done].
  assert (0 ≤ c < 128) by (apply accepted_chars_range, default_lookup_dom; by eexists).
  unfold is_high_surrogate in Hc. apply andb_prop in Hc as [Hc _]. lia.
Qed.

(** The probe goes by code units over the keys of the default table. *)
Lemma isBase32CrockfordString_spec (s : jsstring) :
  isBase32CrockfordString s = true ↔ Forall (λ c, c ∈ accepted_chars) s.
Proof.
  unfold isBase32CrockfordString.
  rewrite (isBase32CrockfordString_loop_units _ default_no_surrogate_key (length s))
    by done.
  split; intros H; (eapply Forall_impl; [exact H|]); intros c; apply default_lookup_dom.
Qed.

(** X2: [isBase32CrockfordString] answers [true] exactly when every code
    unit of the string is a key of the default table, which is exactly
    when the default codec's [decodeFromString] of the whole string
    returns; on such strings [decodeBigInt] returns as well. *)
Theorem isBase32CrockfordString_decodable (s : jsstring) :
  (isBase32CrockfordString s = true ↔ Forall (λ c, c ∈ accepted_chars) s) ∧
  (isBase32CrockfordString s = true ↔
     ∃ bytes, decodeFromString base32Crockford s None None = inr bytes) ∧
  (isBase32CrockfordString s = true →
     ∃ m, decodeBigInt base32Crockford s = inr m).
Proof.
  assert (isBase32CrockfordString s = true ↔
          Forall (λ c, is_Some (alphabetLookupSymbol base32Crockford !! c)) s) as Hunits.
  { rewrite isBase32CrockfordString_spec.
    split; intros H; (eapply Forall_impl; [exact H|]); intros c; apply default_lookup_dom. }
  split_and!.
  - apply isBase32CrockfordString_spec.
  - rewrite Hunits. split.
    + intros Hall. eexists. apply decodeFromString_returns.
      by rewrite slice_range_all.
    + intros [bytes Hdec]. apply decodeFromString_inr in Hdec.
      by rewrite slice_range_all in Hdec.
  - rewrite Hunits. intros Hall. unfold decodeBigInt.
    assert (bool_decide (s !! 0%nat = Some NEGATIVE_CHAR) = false) as ->.
    { apply bool_decide_eq_false_2. intros Hs.
      rewrite Forall_forall in Hall.
      destruct (Hall NEGATIVE_CHAR) as [v Hv]; [by eapply list_elem_of_lookup_2|].
      vm_compute in Hv. done. }
    cbn [andb]. change (drop 0 s) with s.
    destruct (decodeBigInt_loop_total _ s 0 0 Hall) as [r ->]. by eexists.
Qed.

(** The string [hello] passes the probe and decodes as a BigInt. *)
Lemma isBase32CrockfordString_decodable_witness :
  ∃ m, decodeBigInt base32Crockford (js "hello") = inr m.
Proof.
  apply (proj2 (proj2 (isBase32CrockfordString_decodable (js "hello")))).
  vm_compute. reflexivity.
Defined.

(** ** Ranges *)

(** X3: encoding a range of the input is encoding the elements of that
    range as an input of their own, in both forms; an empty range gives an
    empty output. *)
Theorem encode_of_range (this : Base32Crockford) (input : list Z)
    (start end_ : option Z) :
  let s := slice_index (length input) start 0 in
  let e := slice_index (length input) end_ (length input) in
  encodeToString this input start end_
    = encodeToString this (slice_range input s e) None None ∧
  encode this input start end_ = encode this (slice_range input s e) None None ∧
  ((e ≤ s)%nat → encodeToString this input start end_ = [] ∧
                 encode this input start end_ = []).
Proof.
  intros s e. split_and!.
  - rewrite !encodeToString_values. by rewrite slice_range_all.
  - rewrite !encode_values_bytes. by rewrite slice_range_all.
  - intros Hes. rewrite encodeToString_values, encode_values_bytes. fold s e.
    unfold slice_range. replace (e - s)%nat with 0%nat by lia. done.
Qed.

Lemma encode_of_range_witness :
  encodeToString base32Crockford [1; 2; 3] (Some 2) (Some 1) = [] ∧
  encode base32Crockford [1; 2; 3] (Some 2) (Some 1) = [].
Proof.
  apply (proj2 (proj2 (encode_of_range base32Crockford [1; 2; 3] (Some 2) (Some 1)))).
  cbn. lia.
Defined.

(** X4: a negative [start] or [end] counts from the end of the input, and
    values outside the input are clamped: [-k] selects the same index as
    [length - k] when [0 < k <= length], anything below [-length] selects
    0 and anything above [length] selects [length]. *)
Theorem slice_index_cases (len : nat) (v : Z) (d : nat) :
  (0 < - v ≤ Z.of_nat len →
     slice_index len (Some v) d = slice_index len (Some (Z.of_nat len + v)) d) ∧
  (v < - Z.of_nat len → slice_index len (Some v) d = 0%nat) ∧
  (Z.of_nat len < v → slice_index len (Some v) d = len) ∧
  (0 ≤ v ≤ Z.of_nat len → slice_index len (Some v) d = Z.to_nat v).
Proof.
  unfold slice_index. split_and!; intros Hv.
  - destruct (v <? 0) eqn:E1; [|lia].
    destruct (Z.of_nat len + v <? 0) eqn:E2; lia.
  - destruct (v <? 0) eqn:E1; lia.
  - destruct (v <? 0) eqn:E1; lia.
  - destruct (v <? 0) eqn:E1; lia.
Qed.

Lemma slice_index_cases_witness :
  slice_index 5 (Some (-2)) 0 = slice_index 5 (Some 3) 0 ∧
  slice_index 5 (Some (-9)) 0 = 0%nat ∧
  slice_index 5 (Some 9) 5 = 5%nat ∧
  slice_index 5 (Some 4) 5 = 4%nat.
Proof.
  split_and!.
  - apply (proj1 (slice_index_cases 5 (-2) 0)). lia.
  - apply (proj1 (proj2 (slice_index_cases 5 (-9) 0))). lia.
  - apply (proj1 (proj2 (proj2 (slice_index_cases 5 9 5)))). lia.
  - apply (proj2 (proj2 (proj2 (slice_index_cases 5 4 5)))). lia.
Defined.

(** X5: decoding a range returns what decoding the elements of that range
    on their own returns; when the latter throws for the symbol at its
    index [j], the former throws for the same symbol at index
    [startIndex + j]: the index of the error is a position in the whole
    input.  This holds in both forms. *)
Theorem decode_of_range (this : Base32Crockford) (input : list Z)
    (start end_ : option Z) :
  let s := slice_index (length input) start 0 in
  let e := slice_index (length input) end_ (length input) in
  (∀ bytes, decodeFromString this (slice_range input s e) None None = inr bytes →
            decodeFromString this input start end_ = inr bytes) ∧
  (∀ c j, decodeFromString this (slice_range input s e) None None
            = inl (Throw SyntaxError (InvalidCharacter c j)) →
          decodeFromString this input start end_
            = inl (Throw SyntaxError (InvalidCharacter c (s + j)))) ∧
  (∀ bytes, decode this (slice_range input s e) None None = inr bytes →
            decode this input start end_ = inr bytes) ∧
  (∀ c j, decode this (slice_range input s e) None None
            = inl (Throw SyntaxError (InvalidByte c j)) →
          decode this input start end_
            = inl (Throw SyntaxError (InvalidByte c (s + j)))).
Proof.
  intros s e. split_and!.
  - intros bytes Hdec. pose proof (decodeFromString_inr _ _ _ _ _ Hdec) as Hall.
    rewrite decodeFromString_returns in Hdec by done.
    rewrite slice_range_all in Hall, Hdec.
    by rewrite decodeFromString_returns.
  - intros c j Hdec.
    destruct (first_absent (alphabetLookupSymbol this) (slice_range input s e))
      as [Hall|(pre & c' & post & Hslice & Hpre & Hc)].
    + rewrite decodeFromString_returns in Hdec by (by rewrite slice_range_all). done.
    + unfold decodeFromString in Hdec |- *. fold s e.
      rewrite slice_range_all in Hdec. rewrite Hslice in Hdec |- *.
      rewrite decodeFromString_loop_throws in Hdec |- * by done.
      cbn [bind slice_index] in Hdec |- *. by injection Hdec as -> <-.
  - intros bytes Hdec. pose proof (decode_inr _ _ _ _ _ Hdec) as Hall.
    rewrite decode_returns in Hdec by done.
    rewrite slice_range_all in Hall, Hdec.
    by rewrite decode_returns.
  - intros c j Hdec.
    destruct (first_absent (baseMapLookupSymbol this) (slice_range input s e))
      as [Hall|(pre & c' & post & Hslice & Hpre & Hc)].
    + rewrite decode_returns in Hdec by (by rewrite slice_range_all). done.
    + unfold decode in Hdec |- *. fold s e.
      rewrite slice_range_all in Hdec. rewrite Hslice in Hdec |- *.
      rewrite decode_loop_throws in Hdec |- * by done.
      cbn [bind slice_index] in Hdec |- *. by injection Hdec as -> <-.
Qed.

(** In ["ZZUZ"] from index 1 the unknown [U] is cited at index 2. *)
Lemma decode_of_range_witness :
  decodeFromString base32Crockford (js "ZZUZ") (Some 1) None
    = inl (Throw SyntaxError (InvalidCharacter (chr "U") (1 + 1))).
Proof.
  apply (proj1 (proj2 (decode_of_range base32Crockford (js "ZZUZ") (Some 1) None))).
  vm_compute. reflexivity.
Defined.

(** ** The table as a function of the alphabet *)

Lemma createAlphabetLookups_body_lookup (i : nat) (s : Z) (t : lookups) (c : Z) :
  0 ≤ s < 128 →
  Lookups.lookup (createAlphabetLookups_body i s t) !! c
    = (if decide (c ∈ accepted_forms s) then Some (Z.of_nat i)
       else Lookups.lookup t !! c) ∧
  Lookups.baseMapLookup (createAlphabetLookups_body i s t) !! c
    = (if decide (c ∈ accepted_forms s) then Some (Z.of_nat i)
       else Lookups.baseMapLookup t !! c).
Proof.
  intros Hs. unfold createAlphabetLookups_body, accepted_forms, aliases_of.
  destruct (decide (s = chr "0")) as [->|H0];
    [|destruct (decide (s = chr "1")) as [->|H1];
      [|destruct (64 <? s) eqn:H64]];
    cbn [Lookups.lookup Lookups.baseMapLookup];
    rewrite ?(lookup_insert (M := gmap Z));
    try (unfold StringFromCharCode; rewrite Z.mod_small by lia);
    change 0x4f with (chr "O"); change 0x6f with (chr "o");
    change 0x49 with (chr "I"); change 0x69 with (chr "i");
    change 0x4c with (chr "L"); change 0x6c with (chr "l");
    split;
    (destruct (decide (c ∈ _)) as [Hin|Hnin];
     [rewrite ?elem_of_cons, elem_of_nil in Hin;
      repeat case_decide; try done; exfalso; intuition congruence
     |rewrite ?elem_of_cons, elem_of_nil in Hnin;
      repeat case_decide; try done; exfalso; intuition congruence]).
Qed.

Lemma createAlphabetLookups_body_baseMap (i : nat) (s : Z) (t : lookups) :
  Lookups.baseMap (createAlphabetLookups_body i s t)
    = Uint8Array_set (Lookups.baseMap t) i s.
Proof.
  unfold createAlphabetLookups_body.
  destruct (decide (s = chr "0")); [done|].
  destruct (decide (s = chr "1")); [done|].
  by destruct (64 <? s).
Qed.

Lemma createAlphabetLookups_loop_lookup (chars : list Z) :
  ∀ (i : nat) (t : lookups) (c : Z),
  Forall (λ s, 0 ≤ s < 128) chars →
  Lookups.lookup (createAlphabetLookups_loop i chars t) !! c
    = match last_symbol_for i chars c with
      | Some k => Some (Z.of_nat k)
      | None => Lookups.lookup t !! c
      end ∧
  Lookups.baseMapLookup (createAlphabetLookups_loop i chars t) !! c
    = match last_symbol_for i chars c with
      | Some k => Some (Z.of_nat k)
      | None => Lookups.baseMapLookup t !! c
      end ∧
  Lookups.baseMap (createAlphabetLookups_loop i chars t)
    = store_all (Lookups.baseMap t) i chars.
Proof.
  induction chars as [|s rest IH]; intros i t c Hrange;
    cbn [createAlphabetLookups_loop last_symbol_for store_all]; [done|].
  inversion Hrange as [|? ? Hs Hrest]; subst.
  destruct (IH (S i) (createAlphabetLookups_body i s t) c Hrest) as (-> & -> & ->).
  destruct (createAlphabetLookups_body_lookup i s t c Hs) as [-> ->].
  rewrite createAlphabetLookups_body_baseMap.
  by destruct (last_symbol_for (S i) rest c), (decide (c ∈ accepted_forms s)).
Qed.

Lemma last_symbol_for_Some (chars : list Z) (c : Z) : ∀ (i k : nat),
  last_symbol_for i chars c = Some k ↔
  (i ≤ k)%nat ∧
  (∃ s, chars !! (k - i)%nat = Some s ∧ c ∈ accepted_forms s) ∧
  (∀ k' s', (k < k')%nat → chars !! (k' - i)%nat = Some s' → c ∉ accepted_forms s').
Proof.
  induction chars as [|s rest IH]; intros i k; cbn [last_symbol_for].
  - split; [done|]. intros (_ & (s & Hs & _) & _). done.
  - destruct (last_symbol_for (S i) rest c) as [k0|] eqn:Hlast.
    + apply IH in Hlast as (Hle & (s0 & Hs0 & Hin0) & Hlater). split.
      * intros [= <-]. split_and!; [lia| |].
        -- exists s0. split; [|done].
           replace (k0 - i)%nat with (S (k0 - S i)) by lia. done.
        -- intros k' s' Hk' Hs'. apply (Hlater k' s'); [done|].
           replace (k' - i)%nat with (S (k' - S i)) in Hs' by lia. done.
      * intros (Hik & (s1 & Hs1 & Hin1) & Hlater1).
        f_equal. destruct (Nat.lt_trichotomy k k0) as [Hlt|[->|Hgt]]; [|done|].
        -- exfalso. apply (Hlater1 k0 s0); [done| |done].
           replace (k0 - i)%nat with (S (k0 - S i)) by lia. done.
        -- exfalso. destruct (decide (k = i)) as [->|Hne]; [lia|].
           apply (Hlater k s1); [done| |done].
           replace (k - i)%nat with (S (k - S i)) in Hs1 by lia. done.
    + assert (∀ k' s', (i < k')%nat → (s :: rest) !! (k' - i)%nat = Some s' →
                       c ∉ accepted_forms s') as Hnone.
      { intros k' s' Hk' Hs' Hin.
        replace (k' - i)%nat with (S (k' - S i)) in Hs' by lia. cbn in Hs'.
        assert (last_symbol_for (S i) rest c ≠ None) as Hne; [|done].
        clear -Hs' Hin IH.
        revert Hs'. generalize (k' - S i)%nat. intros n Hs'.
        assert (∃ k, last_symbol_for (S i) rest c = Some k) as [k ->]; [|done].
        clear IH. revert n i Hs'.
        induction rest as [|r rest IHr]; intros n i Hs'; [done|].
        cbn [last_symbol_for]. destruct n as [|n]; cbn in Hs'.
        - injection Hs' as ->. destruct (last_symbol_for _ rest c); [by eexists|].
          rewrite decide_True by done. by eexists.
        - destruct (IHr n (S i) Hs') as [k ->]. by eexists. }
      case_decide as Hin; split.
      * intros [= <-]. split_and!; [lia| |].
        -- exists s. by rewrite Nat.sub_diag.
        -- intros k' s' Hk'. by apply Hnone.
      * intros (Hik & (s1 & Hs1 & Hin1) & _). f_equal.
        destruct (decide (k = i)) as [->|Hne]; [done|].
        exfalso. apply (Hnone k s1); [lia|done|done].
      * done.
      * intros (Hik & (s1 & Hs1 & Hin1) & _). exfalso.
        destruct (decide (k = i)) as [->|Hne].
        -- rewrite Nat.sub_diag in Hs1. cbn in Hs1. by injection Hs1 as ->.
        -- apply (Hnone k s1); [lia|done|done].
Qed.

(** Every accepted codec is [instance_of] an alphabet of 32 distinct keys
    of the default table. *)
Lemma constructed_codec (alphabet : option jsstring) (this : Base32Crockford) :
  new_Base32Crockford alphabet = inr this →
  ∃ a, this = instance_of a ∧ alphabet ∈ [None; Some a] ∧
       length a = BASE ∧ Forall (λ c, c ∈ accepted_chars) a ∧ NoDup a.
Proof.
  destruct alphabet as [a|]; intros Hnew.
  - pose proof (construct_custom_result _ _ Hnew) as ->.
    apply construct_custom_ok in Hnew. exists a. split_and!; [done|repeat constructor|tauto..].
  - injection Hnew as <-. exists ALPHABET. split_and!; [done|repeat constructor|done| |].
    + apply (construct_custom_ok ALPHABET). vm_compute. reflexivity.
    + apply (construct_custom_ok ALPHABET). vm_compute. reflexivity.
Qed.

Lemma instance_of_tables (a : jsstring) :
  length a = BASE → Forall (λ c, c ∈ accepted_chars) a →
  (∀ c, alphabetLookupSymbol (instance_of a) !! c
        = Z.of_nat <$> last_symbol_for 0 a c) ∧
  baseMapLookupSymbol (instance_of a) = alphabetLookupSymbol (instance_of a) ∧
  baseMapSymbol (instance_of a) = a.
Proof.
  intros Hlen Hk.
  assert (Forall (λ s, 0 ≤ s < 128) a) as Hrange.
  { eapply Forall_impl; [exact Hk|]. apply accepted_chars_range. }
  assert (∀ c, alphabetLookupSymbol (instance_of a) !! c
               = Z.of_nat <$> last_symbol_for 0 a c ∧
               baseMapLookupSymbol (instance_of a) !! c
               = Z.of_nat <$> last_symbol_for 0 a c) as Hspec.
  { intros c. unfold instance_of, createAlphabetLookups.
    cbn [alphabetLookupSymbol baseMapLookupSymbol].
    rewrite firstn_all2 by (rewrite Hlen; done).
    destruct (createAlphabetLookups_loop_lookup a 0
                (Lookups ∅ (Uint8Array_new BASE) ∅) c Hrange) as (-> & -> & _).
    cbn [Lookups.lookup Lookups.baseMapLookup]. rewrite lookup_empty.
    by destruct (last_symbol_for 0 a c). }
  split_and!.
  - intros c. apply Hspec.
  - apply map_eq. intros c. destruct (Hspec c) as [-> ->]. done.
  - unfold instance_of, createAlphabetLookups. cbn [baseMapSymbol].
    rewrite firstn_all2 by (rewrite Hlen; done).
    destruct (createAlphabetLookups_loop_lookup a 0
                (Lookups ∅ (Uint8Array_new BASE) ∅) 0 Hrange) as (_ & _ & ->).
    cbn [Lookups.baseMap]. unfold Uint8Array_new.
    rewrite store_all_exact by done.
    clear -Hrange. induction Hrange as [|s a Hs _ IH]; [done|].
    cbn [fmap list_fmap]. rewrite Z.mod_small by lia. by f_equal.
Qed.

(** A character is looked up to [k] exactly when the symbol at index [k]
    is the last one that enters it. *)
Lemma instance_of_lookup (a : jsstring) (c : Z) (k : nat) :
  length a = BASE → Forall (λ c, c ∈ accepted_chars) a →
  alphabetLookupSymbol (instance_of a) !! c = Some (Z.of_nat k) ↔
  (∃ s, a !! k = Some s ∧ c ∈ accepted_forms s) ∧
  (∀ k' s', (k < k')%nat → a !! k' = Some s' → c ∉ accepted_forms s').
Proof.
  intros Hlen Hk. destruct (instance_of_tables a Hlen Hk) as (-> & _).
  assert (last_symbol_for 0 a c = Some k ↔
          (∃ s, a !! k = Some s ∧ c ∈ accepted_forms s) ∧
          (∀ k' s', (k < k')%nat → a !! k' = Some s' → c ∉ accepted_forms s'))
    as <-.
  { rewrite last_symbol_for_Some, Nat.sub_0_r. split.
    - intros (_ & Hs & Hlater). split; [done|].
      intros k' s' Hk' Hs'. apply (Hlater k' s' Hk'). by rewrite Nat.sub_0_r.
    - intros (Hs & Hlater). split_and!; [lia|done|].
      intros k' s' Hk' Hs'. rewrite Nat.sub_0_r in Hs'. by apply (Hlater k' s'). }
  destruct (last_symbol_for 0 a c) as [k0|]; cbn; [|done].
  split; [intros [= Heq]; apply Nat2Z.inj in Heq; congruence | congruence].
Qed.

Lemma instance_of_lookup_range (a : jsstring) (c v : Z) :
  length a = BASE → Forall (λ c, c ∈ accepted_chars) a →
  alphabetLookupSymbol (instance_of a) !! c = Some v → 0 ≤ v < 32.
Proof.
  intros Hlen Hk. destruct (instance_of_tables a Hlen Hk) as (-> & _).
  destruct (last_symbol_for 0 a c) as [k0|] eqn:Hlast; cbn; [|done].
  intros [= <-]. apply last_symbol_for_Some in Hlast as (_ & (s & Hs & _) & _).
  apply lookup_lt_Some in Hs. rewrite Hlen in Hs. unfold BASE in Hs. lia.
Qed.

(** X6: the tables of a codec built from a supplied alphabet, as a
    function of that alphabet.  Each symbol enters itself and its aliases
    ([O], [o] for [0]; [I], [i], [L], [l] for [1]; the character 32 code
    points higher for any other symbol above code 64) with its own index,
    and a later symbol overwrites an earlier one: a character is looked up
    to [k] exactly when the symbol at index [k] is the last one that
    enters it.  Every table value is below 32, the character table and the
    byte-code table hold the same entries, and the byte map lists the
    character codes of the alphabet. *)
Theorem constructed_table (a : jsstring) (this : Base32Crockford) :
  new_Base32Crockford (Some a) = inr this →
  (∀ (c : Z) (k : nat),
     alphabetLookupSymbol this !! c = Some (Z.of_nat k) ↔
     (∃ s, a !! k = Some s ∧ c ∈ accepted_forms s) ∧
     (∀ k' s', (k < k')%nat → a !! k' = Some s' → c ∉ accepted_forms s')) ∧
  (∀ (c v : Z), alphabetLookupSymbol this !! c = Some v → 0 ≤ v < 32) ∧
  baseMapLookupSymbol this = alphabetLookupSymbol this ∧
  baseMapSymbol this = a ∧ alphabetSymbol this = a.
Proof.
  intros Hnew. pose proof (construct_custom_result _ _ Hnew) as ->.
  apply construct_custom_ok in Hnew as (Hlen & Hk & _).
  destruct (instance_of_tables a Hlen Hk) as (_ & Htables & HbaseMap).
  split_and!; [| |done..].
  - intros c k. by apply instance_of_lookup.
  - intros c v. by apply instance_of_lookup_range.
Qed.

(** In the default alphabet given explicitly, [o] is looked up to 0. *)
Lemma constructed_table_witness :
  alphabetLookupSymbol (instance_of ALPHABET) !! chr "o" = Some 0.
Proof.
  apply (proj1 (constructed_table ALPHABET (instance_of ALPHABET)
                  ltac:(vm_compute; reflexivity)) (chr "o") 0%nat).
  split.
  - exists (chr "0"). split; [reflexivity | compute_done].
  - intros k' s' Hk' Hs'.
    do 32 (destruct k' as [|k']; [first [lia | injection Hs' as <-; compute_done]|]).
    done.
Defined.

(** ** The two forms of the byte codec agree *)

Lemma decode_loop_decodeFromString_loop (table : gmap Z Z) (chars : list Z) :
  ∀ (i : nat) (st : buffer_state),
  decode_loop table i chars st
    = match decodeFromString_loop table i chars st with
      | inl (Throw k (InvalidCharacter c j)) => inl (Throw k (InvalidByte c j))
      | other => other
      end.
Proof.
  induction chars as [|c rest IH]; intros i st;
    cbn [decode_loop decodeFromString_loop]; [done|].
  destruct (table !! c); [apply IH | done].
Qed.

Lemma decodeFromString_loop_message (table : gmap Z Z) (chars : list Z) :
  ∀ (i : nat) (st : buffer_state) (e : exception),
  decodeFromString_loop table i chars st = inl e →
  ∃ c j, e = Throw SyntaxError (InvalidCharacter c j).
Proof.
  induction chars as [|c rest IH]; intros i st e;
    cbn [decodeFromString_loop]; [done|].
  destruct (table !! c); [apply IH|]. intros [= <-]. by eexists _, _.
Qed.

Lemma instance_of_forms (a : jsstring) (input : list Z) (start end_ : option Z) :
  length a = BASE → Forall (λ c, c ∈ accepted_chars) a →
  encode (instance_of a) input start end_
    = encodeToString (instance_of a) input start end_ ∧
  decode (instance_of a) input start end_
    = match decodeFromString (instance_of a) input start end_ with
      | inl (Throw k (InvalidCharacter c j)) => inl (Throw k (InvalidByte c j))
      | other => other
      end.
Proof.
  intros Hlen Hk.
  destruct (instance_of_tables a Hlen Hk) as (_ & Htables & HbaseMap).
  split.
  - rewrite encode_values_bytes, encodeToString_values, HbaseMap.
    change (alphabetSymbol (instance_of a)) with a.
    generalize (encode_all_values_range
                  (slice_range input (slice_index (length input) start 0)
                     (slice_index (length input) end_ (length input)))).
    induction 1 as [|v values Hv _ IH]; [done|].
    cbn [fmap list_fmap concat].
    destruct (string_at_in_range a v) as (c & Hc & ->);
      [rewrite Hlen; unfold BASE; lia|].
    cbn [app]. rewrite <- IH. f_equal.
    unfold Uint8Array_get. destruct (0 <=? v) eqn:E; [|lia]. rewrite Hc. cbn.
    apply Z.mod_small.
    pose proof (accepted_chars_range c) as Hr.
    rewrite Forall_forall in Hk. specialize (Hr (Hk c (list_elem_of_lookup_2 _ _ _ Hc))).
    lia.
  - unfold decode, decodeFromString. rewrite Htables.
    rewrite decode_loop_decodeFromString_loop.
    destruct (decodeFromString_loop _ _ _ _) as [[k []]|st]; done.
Qed.

(** X7: for every codec the constructor returns, the byte-buffer form
    and the string form are the same function on code sequences:
    [encode] stores the character codes of the string [encodeToString]
    returns, and [decode] of a byte sequence returns what
    [decodeFromString] returns for the string with these character codes,
    or throws for the same element at the same index (citing it as a byte
    rather than as a character). *)
Theorem byte_forms_agree (alphabet : option jsstring) (this : Base32Crockford)
    (input : list Z) (start end_ : option Z) :
  new_Base32Crockford alphabet = inr this →
  encode this input start end_ = encodeToString this input start end_ ∧
  (∀ bytes, decode this input start end_ = inr bytes ↔
            decodeFromString this input start end_ = inr bytes) ∧
  (∀ c j, decode this input start end_ = inl (Throw SyntaxError (InvalidByte c j)) ↔
          decodeFromString this input start end_
            = inl (Throw SyntaxError (InvalidCharacter c j))).
Proof.
  intros Hnew.
  destruct (constructed_codec _ _ Hnew) as (a & -> & _ & Hlen & Hk & _).
  destruct (instance_of_forms a input start end_ Hlen Hk) as [Henc ->].
  split; [done|].
  unfold decodeFromString.
  destruct (decodeFromString_loop _ _ _ _) as [e|st] eqn:Hloop; cbn [bind].
  - apply decodeFromString_loop_message in Hloop as (c & j & ->).
    split; [done|]. intros c' j'. split; intros [= -> ->]; done.
  - split; [done|]. intros c j. split; intros [=].
Qed.

(** The default codec on the bytes [[72; 105]]. *)
Lemma byte_forms_agree_witness :
  encode base32Crockford [72; 105] None None
    = encodeToString base32Crockford [72; 105] None None.
Proof.
  apply (byte_forms_agree None base32Crockford [72; 105] None None). reflexivity.
Defined.

(** ** Which alphabets give a codec that round-trips *)

Lemma single_byte_values_all (k : Z) : 0 ≤ k < 32 → single_byte_values k.
Proof.
  intros Hk. apply (@bool_decide_eq_true_1 (single_byte_values k) (single_byte_values_dec k)).
  apply (forallb_seqZ
           (λ x, @bool_decide (single_byte_values x) (single_byte_values_dec x)) 0 32);
    [|lia].
  vm_compute. reflexivity.
Qed.

Lemma first_value_kept_all (v w : Z) : 0 ≤ v < 32 → 0 ≤ w < 32 → first_value_kept v w.
Proof.
  intros Hv Hw. apply (@bool_decide_eq_true_1 (first_value_kept v w) (first_value_kept_dec v w)).
  assert (forallb (λ x, forallb (λ y, @bool_decide (first_value_kept x y)
                                        (first_value_kept_dec x y)) (seqZ 0 32))
            (seqZ 0 32) = true)
    as H by (vm_compute; reflexivity).
  pose proof (forallb_seqZ _ _ _ H v ltac:(lia)) as H1. cbv beta in H1.
  apply (forallb_seqZ _ _ _ H1). lia.
Qed.

Section AliasFree.
Variable a : jsstring.
Hypothesis alphabet_length : length a = BASE.
Hypothesis alphabet_keys : Forall (λ c, c ∈ accepted_chars) a.
Hypothesis alphabet_distinct : NoDup a.

Lemma alias_free_consistent : alias_free a ↔ symbols_decode_to_their_index a.
Proof.
  split.
  - intros Hfree k s Hs. apply instance_of_lookup; [done..|]. split.
    + exists s. split; [done|]. unfold accepted_forms. apply elem_of_cons. by left.
    + intros k' s' Hk' Hs' Hin. unfold accepted_forms in Hin.
      apply elem_of_cons in Hin as [->|Hin].
      * pose proof (NoDup_lookup _ _ _ _ alphabet_distinct Hs Hs'). lia.
      * by apply (Hfree k k' s s').
  - intros Hcons i j s t Hij Hs Ht Hin.
    pose proof (proj1 (instance_of_lookup a s i alphabet_length alphabet_keys)
                  (Hcons _ _ Hs)) as [_ Hlater].
    apply (Hlater j t Hij Ht).
    unfold accepted_forms. apply elem_of_cons. by right.
Qed.

Lemma instance_sign_not_symbol : NEGATIVE_CHAR ∉ alphabetSymbol (instance_of a).
Proof.
  intros Hin. change (alphabetSymbol (instance_of a)) with a in Hin.
  rewrite Forall_forall in alphabet_keys. specialize (alphabet_keys _ Hin).
  revert alphabet_keys. compute_done.
Qed.

Lemma instance_code_consistent (v : Z) :
  symbols_decode_to_their_index a → 0 ≤ v < 32 → code_consistent (instance_of a) v.
Proof.
  intros Hcons Hv. unfold code_consistent.
  destruct (instance_of_tables a alphabet_length alphabet_keys) as (_ & -> & ->).
  destruct (string_at_in_range a v) as (c & Hc & _);
    [rewrite alphabet_length; unfold BASE; lia|].
  unfold Uint8Array_get. destruct (0 <=? v) eqn:E; [|lia]. rewrite Hc. cbn.
  rewrite Z.mod_small.
  - rewrite (Hcons _ _ Hc). f_equal. lia.
  - pose proof (accepted_chars_range c) as Hr.
    rewrite Forall_forall in alphabet_keys.
    specialize (Hr (alphabet_keys c (list_elem_of_lookup_2 _ _ _ Hc))). lia.
Qed.

(** One value: the symbol of [k] decodes to [k] when the BigInt [k]
    round-trips. *)
Lemma BigInt_round_trip_consistent :
  (∀ m, ∃ s, encodeBigInt (instance_of a) m = Some s ∧
             decodeBigInt (instance_of a) s = inr m) →
  symbols_decode_to_their_index a.
Proof.
  intros Hrt k s Hs.
  assert (k < 32)%nat as Hk by (apply lookup_lt_Some in Hs; by rewrite alphabet_length in Hs).
  destruct (Hrt (Z.of_nat k)) as (str & Henc & Hdec).
  assert (str = [s]) as ->.
  { unfold encodeBigInt in Henc. change (alphabetSymbol (instance_of a)) with a in Henc.
    assert (string_at a (Z.of_nat k) = [s]) as Hat.
    { unfold string_at. destruct (0 <=? Z.of_nat k) eqn:E; [|lia].
      by rewrite Nat2Z.id, Hs. }
    case_decide as H0; [rewrite <- H0, Hat in Henc; congruence|].
    destruct (Z.of_nat k <? 0) eqn:E; [lia|].
    rewrite encodeBigInt_loop_nonneg in Henc by lia.
    unfold digits_fuel in Henc.
    replace (Z.to_nat (Z.log2 (Z.of_nat k)) + 2)%nat
      with (S (S (Z.to_nat (Z.log2 (Z.of_nat k))))) in Henc by lia.
    cbn [encodeInt_loop] in Henc. change (Z.of_nat BASE) with 32 in Henc.
    rewrite decide_False in Henc by done.
    rewrite Z.div_small, Z.rem_small in Henc by lia.
    rewrite decide_True in Henc by done.
    rewrite Hat in Henc. cbn in Henc. congruence. }
  unfold decodeBigInt in Hdec. cbn [lookup list_lookup length] in Hdec.
  assert (s ≠ NEGATIVE_CHAR) as Hsign.
  { intros ->. apply instance_sign_not_symbol. by eapply list_elem_of_lookup_2. }
  rewrite bool_decide_eq_false_2 in Hdec by congruence.
  cbn [andb drop decodeBigInt_loop] in Hdec.
  destruct (alphabetLookupSymbol (instance_of a) !! s) as [v|]; [|done].
  cbn [bind] in Hdec. injection Hdec as Hv. f_equal. lia.
Qed.

(** One byte: the symbol of [k] decodes to [k] when the byte [8 * k]
    round-trips. *)
Lemma byte_round_trip_consistent :
  (∀ B, Forall is_byte B →
        decodeFromString (instance_of a) (encodeToString (instance_of a) B None None)
          None None = inr B) →
  symbols_decode_to_their_index a.
Proof.
  intros Hrt k s Hs.
  assert (k < 32)%nat as Hk by (apply lookup_lt_Some in Hs; by rewrite alphabet_length in Hs).
  destruct (lookup_lt_is_Some_2 a 0) as [s0 Hs0]; [rewrite alphabet_length; unfold BASE; lia|].
  specialize (Hrt [8 * Z.of_nat k]).
  rewrite encodeToString_values, slice_range_all in Hrt.
  rewrite (single_byte_values_all (Z.of_nat k)) in Hrt by lia.
  change (alphabetSymbol (instance_of a)) with a in Hrt.
  assert (concat (string_at a <$> [Z.of_nat k; 0]) = [s; s0]) as Hstr.
  { cbn [fmap list_fmap concat]. unfold string_at.
    destruct (0 <=? Z.of_nat k) eqn:E; [|lia]. rewrite Nat2Z.id, Hs.
    change (Z.to_nat 0) with 0%nat. cbn [Z.leb Z.compare]. by rewrite Hs0. }
  rewrite Hstr in Hrt.
  specialize (Hrt ltac:(constructor; [unfold is_byte; lia | constructor])).
  pose proof (decodeFromString_inr _ _ _ _ _ Hrt) as Hall.
  rewrite decodeFromString_returns in Hrt by done.
  rewrite slice_range_all in Hall, Hrt.
  inversion Hall as [|? ? [v Hv] Hall']; subst.
  inversion Hall' as [|? ? [w Hw] _]; subst.
  cbn [resolve omap list_omap] in Hrt. rewrite Hv, Hw in Hrt. cbn [mbind option_bind] in Hrt.
  pose proof (instance_of_lookup_range a _ _ alphabet_length alphabet_keys Hv) as Hvr.
  pose proof (instance_of_lookup_range a _ _ alphabet_length alphabet_keys Hw) as Hwr.
  pose proof (first_value_kept_all v w Hvr Hwr) as Hkept.
  unfold first_value_kept in Hkept.
  remember (decode_values 8 0 [v; w]).1.1 as emitted eqn:Hemitted. clear Hemitted.
  injection Hrt as Hrt.
  apply (f_equal (fmap (λ x, x / 8))) in Hrt.
  rewrite <- list_fmap_compose in Hrt.
  unfold compose in Hrt. rewrite Hkept in Hrt. cbn [fmap list_fmap] in Hrt.
  rewrite Z.mul_comm, Z.div_mul in Hrt by lia.
  injection Hrt as ->. by rewrite Hv.
Qed.
End AliasFree.

(** An alphabet none of whose symbols is an alias of a symbol. *)
Lemma no_alias_symbol_alias_free (a : jsstring) :
  Forall (λ t, Forall (λ s, s ∉ aliases_of t) a) a → alias_free a.
Proof.
  intros Hall i j s t _ Hs Ht.
  rewrite Forall_forall in Hall.
  specialize (Hall t (list_elem_of_lookup_2 _ _ _ Ht)).
  rewrite Forall_forall in Hall. apply Hall. by eapply list_elem_of_lookup_2.
Qed.

(** X8: which supplied alphabets give a codec that round-trips.  For a
    codec built from an accepted alphabet, these are equivalent: no symbol
    is an alias of a symbol that comes later in the alphabet; every symbol
    is looked up to its own index; decoding the encoding of any byte
    sequence returns it (string form, and byte-buffer form); decoding the
    encoding of any BigInt returns it.  They imply the round trip of
    every safe integer through [encodeInt] and [decodeInt]. *)
Theorem custom_alphabet_round_trip (a : jsstring) (this : Base32Crockford) :
  new_Base32Crockford (Some a) = inr this →
  (alias_free a ↔
     ∀ (k : nat) (s : Z), a !! k = Some s →
       alphabetLookupSymbol this !! s = Some (Z.of_nat k)) ∧
  (alias_free a ↔
     ∀ B, Forall is_byte B →
       decodeFromString this (encodeToString this B None None) None None = inr B) ∧
  (alias_free a ↔
     ∀ B, Forall is_byte B → decode this (encode this B None None) None None = inr B) ∧
  (alias_free a ↔
     ∀ m : Z, ∃ s, encodeBigInt this m = Some s ∧ decodeBigInt this s = inr m) ∧
  (alias_free a →
     ∀ n : Z, Z.abs n ≤ NumberMAX_SAFE_INTEGER →
       ∃ s, encodeInt this n = Some (inr s) ∧ decodeInt this s = inr (Finite n)).
Proof.
  intros Hnew. pose proof (construct_custom_result _ _ Hnew) as ->.
  apply construct_custom_ok in Hnew as (Hlen & Hk & Hnodup).
  pose proof (alias_free_consistent a Hlen Hk Hnodup) as Hcons.
  assert (symbols_decode_to_their_index a →
          ∀ (v : nat) (c : Z), alphabetSymbol (instance_of a) !! v = Some c →
            alphabetLookupSymbol (instance_of a) !! c = Some (Z.of_nat v)) as Htable.
  { intros H. exact H. }
  split_and!.
  - exact Hcons.
  - rewrite Hcons. split.
    + intros H B HB. apply byte_round_trip_string; [done|by apply Htable|done].
    + by apply byte_round_trip_consistent.
  - rewrite Hcons. split.
    + intros H B HB. apply byte_round_trip_buffer; [|done].
      intros v Hv. by apply instance_code_consistent.
    + intros H. apply byte_round_trip_consistent; [done..|].
      intros B HB. specialize (H B HB).
      destruct (instance_of_forms a B None None Hlen Hk) as [Henc _].
      destruct (instance_of_forms a (encodeToString (instance_of a) B None None)
                  None None Hlen Hk) as [_ Hdec].
      rewrite Henc, Hdec in H.
      by destruct (decodeFromString _ _ _ _) as [[k []]|bytes].
  - rewrite Hcons. split.
    + intros H m. apply integer_round_trip_BigInt; [done|by apply Htable|].
      by apply instance_sign_not_symbol.
    + by apply BigInt_round_trip_consistent.
  - rewrite Hcons. intros H n Hn.
    apply integer_round_trip_Number; [done|by apply Htable| |done].
    by apply instance_sign_not_symbol.
Qed.

(** The default alphabet reversed. *)
Lemma custom_alphabet_round_trip_witness :
  let a := js "ZYXWVTSRQPNMKJHGFEDCBA9876543210" in
  decodeFromString (instance_of a) (encodeToString (instance_of a) [72; 105] None None)
    None None = inr [72; 105].
Proof.
  intros a.
  apply (proj1 (proj1 (proj2 (custom_alphabet_round_trip a (instance_of a)
                                ltac:(vm_compute; reflexivity))))).
  - apply no_alias_symbol_alias_free. compute_done.
  - repeat constructor; unfold is_byte; lia.
Defined.

(** ** Integer codec: the two decoders, and the form of the output *)

Lemma digits_value_snoc (acc : Z) (ds : list Z) (d : Z) :
  digits_value acc (ds ++ [d]) = digits_value acc ds * 32 + d.
Proof. unfold digits_value. by rewrite foldl_app. Qed.

Lemma digits_value_strip (ds : list Z) :
  digits_value 0 (strip_zeros ds) = digits_value 0 ds.
Proof.
  induction ds as [|d ds IH]; [done|]. cbn [strip_zeros].
  case_decide as Hd; [|done]. subst d. exact IH.
Qed.

Lemma strip_zeros_range (ds : list Z) :
  Forall (λ d, 0 ≤ d < 32) ds → Forall (λ d, 0 ≤ d < 32) (strip_zeros ds).
Proof.
  induction 1 as [|d ds Hd Hds IH]; [constructor|]. cbn [strip_zeros].
  case_decide; [done | by constructor].
Qed.

Lemma strip_zeros_head (ds : list Z) :
  strip_zeros ds = [] ∨ ∃ d rest, strip_zeros ds = d :: rest ∧ d ≠ 0.
Proof.
  induction ds as [|d ds IH]; [by left|]. cbn [strip_zeros].
  case_decide; [done|]. right. by eexists _, _.
Qed.

Lemma strip_zeros_value (ds : list Z) :
  Forall (λ d, 0 ≤ d < 32) ds → (strip_zeros ds = [] ↔ digits_value 0 ds = 0).
Proof.
  intros Hds. rewrite <- digits_value_strip.
  pose proof (strip_zeros_range ds Hds) as Hrange.
  destruct (strip_zeros_head ds) as [->|(d & rest & Heq & Hd)]; [done|].
  rewrite Heq in *. apply Forall_cons in Hrange as [Hdr Hrest].
  pose proof (digits_value_ge rest (0 * 32 + d) ltac:(lia) Hrest) as Hge.
  unfold digits_value in *. cbn [foldl] in *. split; [done|]. intros ?. exfalso. lia.
Qed.

Lemma strip_zeros_snoc (ds : list Z) (d : Z) :
  strip_zeros (ds ++ [d])
    = if decide (strip_zeros ds = [] ∧ d = 0) then [] else strip_zeros ds ++ [d].
Proof.
  induction ds as [|x ds IH]; cbn [app strip_zeros].
  - destruct (decide (d = 0)); [by rewrite decide_True | rewrite decide_False; [done|tauto]].
  - destruct (decide (x = 0)); [exact IH|]. by rewrite decide_False by (intros [? _]; done).
Qed.

(** The encode loop on the value of a digit sequence prepends the symbols
    of the sequence without its leading zeros. *)
Lemma encodeInt_loop_strip (alphabet : jsstring) (ds : list Z) :
  ∀ (fuel : nat) (result : jsstring),
  Forall (λ d, 0 ≤ d < 32) ds → digits_value 0 ds < 2 ^ (Z.of_nat fuel - 1) →
  encodeInt_loop fuel alphabet (digits_value 0 ds) result
    = Some (concat (string_at alphabet <$> strip_zeros ds) ++ result).
Proof.
  induction ds as [|d ds IH] using rev_ind; intros fuel result Hds Hfuel.
  - destruct fuel as [|fuel]; [cbn in Hfuel; lia | done].
  - apply Forall_app in Hds as [Hds Hd]. inversion Hd as [|? ? Hdr _]; subst.
    pose proof (digits_value_ge ds 0 ltac:(lia) Hds) as Hge.
    rewrite digits_value_snoc in Hfuel |- *. rewrite strip_zeros_snoc.
    destruct fuel as [|fuel]; [cbn in Hfuel; lia|].
    replace (Z.of_nat (S fuel) - 1) with (Z.of_nat fuel) in Hfuel by lia.
    cbn [encodeInt_loop]. change (Z.of_nat BASE) with 32.
    case_decide as H0.
    + rewrite decide_True; [done|]. split; [|lia].
      apply strip_zeros_value; [done | lia].
    + rewrite decide_False.
      2:{ intros [Hs ->]. apply strip_zeros_value in Hs; [lia | done]. }
      assert (1 ≤ Z.of_nat fuel) as Hf.
      { destruct fuel; [cbn in Hfuel; lia | lia]. }
      replace ((digits_value 0 ds * 32 + d) / 32) with (digits_value 0 ds)
        by (apply Z.div_unique with (r := d); lia).
      replace (Z.rem (digits_value 0 ds * 32 + d) 32) with d.
      2:{ rewrite Z.rem_mod_nonneg by lia.
          apply Z.mod_unique with (q := digits_value 0 ds); lia. }
      rewrite IH; [|done|].
      * rewrite fmap_app, concat_app. cbn [fmap list_fmap concat].
        by rewrite app_nil_r, <- app_assoc.
      * replace (Z.of_nat fuel) with (Z.of_nat fuel - 1 + 1) in Hfuel by lia.
        rewrite Z.pow_add_r in Hfuel by lia. lia.
Qed.

(** The digits [encodeInt] and [encodeBigInt] write for a positive value:
    its base-32 digits, the first of which is not zero. *)
Lemma encodeInt_loop_canonical (alphabet : jsstring) (number : Z) :
  0 < number →
  ∃ d ds, encodeInt_loop (digits_fuel number) alphabet number []
            = Some (concat (string_at alphabet <$> d :: ds)) ∧
          d ≠ 0 ∧ Forall (λ d, 0 ≤ d < 32) (d :: ds) ∧
          digits_value 0 (d :: ds) = number.
Proof.
  intros Hpos.
  destruct (encodeInt_loop_digits alphabet (digits_fuel number) number [])
    as (ds0 & _ & Hds0 & Hval & _); [by apply digits_fuel_enough|].
  pose proof (encodeInt_loop_strip alphabet ds0 (digits_fuel number) [] Hds0) as Hloop.
  rewrite Hval in Hloop. rewrite Hloop by (by apply digits_fuel_enough).
  pose proof (strip_zeros_range ds0 Hds0) as Hrange.
  pose proof (digits_value_strip ds0) as Hstrip.
  destruct (strip_zeros_head ds0) as [Hnil|(d & ds & Heq & Hd)].
  - rewrite Hnil in Hstrip. cbn in Hstrip. lia.
  - rewrite Heq in *. exists d, ds. rewrite app_nil_r. split_and!; [done..|lia].
Qed.

Lemma encodeBigInt_opp (this : Base32Crockford) (m : Z) :
  0 < m → encodeBigInt this (- m) = (NEGATIVE_CHAR ::.) <$> encodeBigInt this m.
Proof.
  intros Hm. unfold encodeBigInt.
  rewrite (decide_False (P := - m = 0)), (decide_False (P := m = 0)) by lia.
  destruct (m <? 0) eqn:E; [lia|]. destruct (- m <? 0) eqn:E'; [|lia].
  rewrite Z.opp_involutive.
  by destruct (encodeBigInt_loop _ _ m []).
Qed.

Lemma encodeBigInt_form (this : Base32Crockford) (m : Z) :
  m ≠ 0 →
  ∃ d ds,
    encodeBigInt this m
      = Some ((if m <? 0 then [NEGATIVE_CHAR] else [])
              ++ concat (string_at (alphabetSymbol this) <$> d :: ds)) ∧
    d ≠ 0 ∧ Forall (λ d, 0 ≤ d < 32) (d :: ds) ∧
    digits_value 0 (d :: ds) = Z.abs m.
Proof.
  intros Hm. unfold encodeBigInt. rewrite decide_False by done.
  set (number := if m <? 0 then - m else m).
  assert (0 < number ∧ number = Z.abs m) as [Hpos Habs]
    by (subst number; destruct (m <? 0) eqn:E; lia).
  rewrite encodeBigInt_loop_nonneg by lia.
  destruct (encodeInt_loop_canonical (alphabetSymbol this) number Hpos)
    as (d & ds & -> & Hd & Hds & Hval).
  exists d, ds. cbn [mbind option_bind]. split_and!; [|done|done|lia].
  by destruct (m <? 0).
Qed.

Lemma encodeInt_encodeBigInt (this : Base32Crockford) (n : Z) :
  Z.abs n ≤ NumberMAX_SAFE_INTEGER → encodeInt this n = inr <$> encodeBigInt this n.
Proof.
  intros Hn. unfold encodeInt, encodeBigInt.
  unfold NumberMAX_SAFE_INTEGER, NumberMIN_SAFE_INTEGER in *.
  destruct (n <? - (2 ^ 53 - 1)) eqn:E1; [lia|].
  destruct (2 ^ 53 - 1 <? n) eqn:E2; [lia|].
  case_decide as H0; [done|].
  set (number := if n <? 0 then - n else n).
  assert (0 < number) as Hpos by (subst number; destruct (n <? 0) eqn:E; lia).
  rewrite encodeBigInt_loop_nonneg by lia.
  by destruct (encodeInt_loop _ _ number []).
Qed.

(** X9: [encodeInt] and [encodeBigInt] return the same string for every
    safe integer, with any codec.  For a value other than zero the string
    is an optional [-] followed by the symbols of the base-32 digits of
    the magnitude, most significant first, and the first digit is not
    zero; the encoding of [- m] is [-] followed by the encoding of [m]. *)
Theorem integer_encoding_form (this : Base32Crockford) :
  (∀ n : Z, Z.abs n ≤ NumberMAX_SAFE_INTEGER →
     encodeInt this n = inr <$> encodeBigInt this n) ∧
  (∀ m : Z, m ≠ 0 →
     ∃ d ds,
       encodeBigInt this m
         = Some ((if m <? 0 then [NEGATIVE_CHAR] else [])
                 ++ concat (string_at (alphabetSymbol this) <$> d :: ds)) ∧
       d ≠ 0 ∧ Forall (λ d, 0 ≤ d < 32) (d :: ds) ∧
       digits_value 0 (d :: ds) = Z.abs m) ∧
  (∀ m : Z, 0 < m →
     encodeBigInt this (- m) = (NEGATIVE_CHAR ::.) <$> encodeBigInt this m).
Proof.
  split_and!.
  - apply encodeInt_encodeBigInt.
  - apply encodeBigInt_form.
  - apply encodeBigInt_opp.
Qed.

(** The values 1000 and -1000 with the default codec. *)
Lemma integer_encoding_form_witness :
  encodeInt base32Crockford 1000 = inr <$> encodeBigInt base32Crockford 1000 ∧
  encodeBigInt base32Crockford (- 1000)
    = (NEGATIVE_CHAR ::.) <$> encodeBigInt base32Crockford 1000.
Proof.
  split.
  - apply (proj1 (integer_encoding_form base32Crockford) 1000). by vm_compute.
  - apply (proj2 (proj2 (integer_encoding_form base32Crockford)) 1000). lia.
Defined.

Section IntegerDecoders.
Variable table : gmap Z Z.
Hypothesis table_range : ∀ c v, table !! c = Some v → 0 ≤ v < 32.

Lemma resolve_range (chars : list Z) : Forall (λ v, 0 ≤ v < 32) (resolve table chars).
Proof.
  induction chars as [|c chars IH]; [constructor|].
  cbn [resolve omap list_omap]. destruct (table !! c) as [v|] eqn:Hv; [|exact IH].
  constructor; [by eapply table_range | exact IH].
Qed.

Lemma resolve_cons (c v : Z) (chars : list Z) :
  table !! c = Some v → resolve table (c :: chars) = v :: resolve table chars.
Proof. intros Hv. cbn [resolve omap list_omap]. by rewrite Hv. Qed.

(** The two decode loops throw for the same symbol at the same index. *)
Lemma integer_loops_throw (chars : list Z) : ∀ (i : nat) (acc : Number) (acc' : Z),
  match decodeInt_loop table i chars acc, decodeBigInt_loop table i chars acc' with
  | inl e, inl e' => e = e'
  | inr _, inr _ => True
  | _, _ => False
  end.
Proof.
  induction chars as [|c chars IH]; intros i acc acc';
    cbn [decodeInt_loop decodeBigInt_loop]; [done|].
  destruct (table !! c); [apply IH | done].
Qed.

Lemma decodeBigInt_loop_resolve (chars : list Z) : ∀ (i : nat) (acc : Z),
  Forall (λ c, is_Some (table !! c)) chars →
  decodeBigInt_loop table i chars acc = inr (digits_value acc (resolve table chars)).
Proof.
  induction chars as [|c chars IH]; intros i acc Hall; [done|].
  inversion Hall as [|? ? [v Hv] Hrest]; subst.
  rewrite (resolve_cons c v) by done. cbn [decodeBigInt_loop]. rewrite Hv.
  by rewrite IH.
Qed.

(** In Number arithmetic the accumulation is exact as long as the value
    of the whole string is below [2^53]. *)
Lemma decodeInt_loop_resolve (chars : list Z) : ∀ (i : nat) (acc : Z),
  Forall (λ c, is_Some (table !! c)) chars →
  0 ≤ acc → digits_value acc (resolve table chars) < 2 ^ 53 →
  decodeInt_loop table i chars (Finite acc)
    = inr (Finite (digits_value acc (resolve table chars))).
Proof.
  induction chars as [|c chars IH]; intros i acc Hall Hacc Hval; [done|].
  inversion Hall as [|? ? [v Hv] Hrest]; subst.
  rewrite (resolve_cons c v) in Hval |- * by done.
  pose proof (table_range _ _ Hv) as Hvr.
  cbn [decodeInt_loop]. rewrite Hv. change (Z.of_nat BASE) with 32.
  unfold digits_value in *. cbn [foldl] in Hval |- *.
  pose proof (digits_value_ge (resolve table chars) (acc * 32 + v) ltac:(lia)
                (resolve_range chars)) as Hge.
  unfold digits_value in Hge.
  cbn [Number_mul]. rewrite Number_of_exact_safe by lia.
  cbn [Number_add]. rewrite Number_of_exact_safe by lia.
  apply IH; [done | lia | done].
Qed.

Lemma all_resolve_or_throw (chars : list Z) (i : nat) (acc : Z) :
  Forall (λ c, is_Some (table !! c)) chars ∨
  ∃ e, decodeBigInt_loop table i chars acc = inl e.
Proof.
  revert i acc. induction chars as [|c chars IH]; intros i acc; [by left|].
  cbn [decodeBigInt_loop]. destruct (table !! c) as [v|] eqn:Hv.
  - destruct (IH (S i) (acc * 32 + v)) as [Hall|He]; [left|by right].
    constructor; [by eexists | done].
  - right. by eexists.
Qed.
End IntegerDecoders.

Lemma constructed_table_range (alphabet : option jsstring) (this : Base32Crockford) :
  new_Base32Crockford alphabet = inr this →
  ∀ c v, alphabetLookupSymbol this !! c = Some v → 0 ≤ v < 32.
Proof.
  intros Hnew c v.
  destruct (constructed_codec _ _ Hnew) as (a & -> & _ & Hlen & Hk & _).
  by apply instance_of_lookup_range.
Qed.

(** X10: [decodeInt] and [decodeBigInt] agree.  With a codec the
    constructor returned, each throws exactly when the other does, and
    the same exception; and when [decodeBigInt] returns a value of
    magnitude below [2^53], [decodeInt] returns that value: no rounding
    takes place in its Number arithmetic. *)
Theorem integer_decoders_agree (alphabet : option jsstring) (this : Base32Crockford)
    (string : jsstring) :
  new_Base32Crockford alphabet = inr this →
  (∀ e, decodeInt this string = inl e ↔ decodeBigInt this string = inl e) ∧
  (∀ m, decodeBigInt this string = inr m → Z.abs m < 2 ^ 53 →
        decodeInt this string = inr (Finite m)).
Proof.
  intros Hnew. pose proof (constructed_table_range _ _ Hnew) as Hrange.
  unfold decodeInt, decodeBigInt.
  set (isNegative := bool_decide (string !! 0%nat = Some NEGATIVE_CHAR)).
  set (start := if isNegative && bool_decide (1 < length string)%nat
                then 1%nat else 0%nat).
  set (chars := drop start string).
  clearbody chars start isNegative.
  pose proof (integer_loops_throw (alphabetLookupSymbol this) chars start (Finite 0) 0)
    as Hthrow.
  split.
  - intros e.
    destruct (decodeInt_loop _ start chars _) as [e1|r1],
             (decodeBigInt_loop _ start chars _) as [e2|r2];
      cbn [bind]; try done.
    subst. split; intros [= ->]; done.
  - intros m Hm Habs.
    destruct (all_resolve_or_throw (alphabetLookupSymbol this) chars start 0)
      as [Hall|[e He]]; [|by rewrite He in Hm].
    rewrite decodeBigInt_loop_resolve in Hm by done. cbn [bind] in Hm.
    injection Hm as Hm.
    pose proof (digits_value_ge (resolve (alphabetLookupSymbol this) chars) 0 ltac:(lia)
                  (resolve_range _ Hrange chars)) as Hge.
    rewrite (decodeInt_loop_resolve _ Hrange chars start 0 Hall ltac:(lia))
      by (destruct isNegative; lia).
    cbn [bind Number_gt0 Number_neg]. destruct isNegative; cbn [andb].
    + subst m. destruct (0 <? _) eqn:E; [done|].
      replace (digits_value 0 (resolve (alphabetLookupSymbol this) chars)) with 0 by lia.
      done.
    + by subst m.
Qed.

(** The string [-ZZ] with the default codec. *)
Lemma integer_decoders_agree_witness :
  decodeInt base32Crockford (js "-ZZ") = inr (Finite (- 1023)).
Proof.
  apply (proj2 (integer_decoders_agree None base32Crockford (js "-ZZ") eq_refl)
           (- 1023)).
  - vm_compute. reflexivity.
  - lia.
Defined.

Lemma sign_not_accepted_form : Forall (λ s, NEGATIVE_CHAR ∉ accepted_forms s) accepted_chars.
Proof. compute_done. Qed.

Lemma constructed_sign_not_key (alphabet : option jsstring) (this : Base32Crockford) :
  new_Base32Crockford alphabet = inr this →
  alphabetLookupSymbol this !! NEGATIVE_CHAR = None.
Proof.
  intros Hnew.
  destruct (constructed_codec _ _ Hnew) as (a & -> & _ & Hlen & Hk & _).
  destruct (alphabetLookupSymbol (instance_of a) !! NEGATIVE_CHAR) as [v|] eqn:Hv;
    [exfalso|done].
  pose proof (instance_of_lookup_range a _ _ Hlen Hk Hv) as Hr.
  replace v with (Z.of_nat (Z.to_nat v)) in Hv by lia.
  apply instance_of_lookup in Hv as [(s & Hs & Hin) _]; [|done..].
  pose proof sign_not_accepted_form as Hsign. rewrite Forall_forall in Hsign, Hk.
  apply (Hsign s); [|done]. apply Hk. by eapply list_elem_of_lookup_2.
Qed.

Lemma decodeBigInt_unsigned (this : Base32Crockford) (string : jsstring) :
  alphabetLookupSymbol this !! NEGATIVE_CHAR = None →
  Forall (λ c, is_Some (alphabetLookupSymbol this !! c)) string →
  decodeBigInt this string
    = inr (digits_value 0 (resolve (alphabetLookupSymbol this) string)).
Proof.
  intros Hsign Hall. unfold decodeBigInt.
  rewrite bool_decide_eq_false_2.
  2:{ intros Hhead. destruct string as [|c rest]; [done|].
      injection Hhead as ->. inversion Hall as [|? ? [v Hv] _]; subst. congruence. }
  cbn [andb drop]. by rewrite decodeBigInt_loop_resolve.
Qed.

Lemma decodeBigInt_signed (this : Base32Crockford) (digits : jsstring) :
  digits ≠ [] →
  Forall (λ c, is_Some (alphabetLookupSymbol this !! c)) digits →
  decodeBigInt this (NEGATIVE_CHAR :: digits)
    = inr (- digits_value 0 (resolve (alphabetLookupSymbol this) digits)).
Proof.
  intros Hne Hall. unfold decodeBigInt. cbn [lookup list_lookup].
  rewrite bool_decide_eq_true_2 by done.
  rewrite bool_decide_eq_true_2 by (destruct digits; [done | cbn; lia]).
  cbn [andb]. change (drop 1 (NEGATIVE_CHAR :: digits)) with digits.
  by rewrite decodeBigInt_loop_resolve.
Qed.

Lemma encodeBigInt_digits (this : Base32Crockford) (values : list Z) :
  Forall (λ v, 0 ≤ v < 32) values →
  encodeBigInt this (digits_value 0 values)
    = Some (if decide (strip_zeros values = []) then string_at (alphabetSymbol this) 0
            else concat (string_at (alphabetSymbol this) <$> strip_zeros values)).
Proof.
  intros Hvalues.
  pose proof (digits_value_ge values 0 ltac:(lia) Hvalues) as Hge.
  unfold encodeBigInt. case_decide as H0.
  - rewrite decide_True; [done|]. by apply strip_zeros_value.
  - rewrite decide_False by (by rewrite strip_zeros_value).
    destruct (digits_value 0 values <? 0) eqn:E; [lia|].
    rewrite encodeBigInt_loop_nonneg by lia.
    rewrite encodeInt_loop_strip; [|done|apply digits_fuel_enough; lia].
    cbn [mbind option_bind]. by rewrite app_nil_r.
Qed.

(** X11: decoding a string of table symbols to a BigInt and encoding the
    result normalises the string.  With any codec the constructor
    returned, [decodeBigInt] returns the base-32 value of the symbols'
    table values, and [encodeBigInt] of that value is the string of the
    alphabet symbols for these values without the leading zeros (the zero
    symbol alone when nothing is left). *)
Theorem decode_encode_BigInt_normalises (alphabet : option jsstring)
    (this : Base32Crockford) (string : jsstring) :
  new_Base32Crockford alphabet = inr this →
  Forall (λ c, is_Some (alphabetLookupSymbol this !! c)) string →
  let values := resolve (alphabetLookupSymbol this) string in
  decodeBigInt this string = inr (digits_value 0 values) ∧
  encodeBigInt this (digits_value 0 values)
    = Some (if decide (strip_zeros values = []) then string_at (alphabetSymbol this) 0
            else concat (string_at (alphabetSymbol this) <$> strip_zeros values)).
Proof.
  intros Hnew Hall values.
  pose proof (constructed_table_range _ _ Hnew) as Hrange.
  pose proof (constructed_sign_not_key _ _ Hnew) as Hsign.
  split.
  - by apply decodeBigInt_unsigned.
  - apply encodeBigInt_digits, resolve_range. exact Hrange.
Qed.

(** The string [00oL] is normalised to [1] by the default codec. *)
Lemma decode_encode_BigInt_normalises_witness :
  decodeBigInt base32Crockford (js "00oL") = inr 1 ∧
  encodeBigInt base32Crockford 1 = Some (js "1").
Proof.
  apply (decode_encode_BigInt_normalises None base32Crockford (js "00oL") eq_refl).
  compute_done.
Defined.

(** The symbols of the values of a string of alphabet symbols are the
    string, when every symbol is looked up to its own index. *)
Lemma symbols_of_resolve (a : jsstring) (string : jsstring) :
  symbols_decode_to_their_index a → Forall (λ c, c ∈ a) string →
  Forall (λ c, is_Some (alphabetLookupSymbol (instance_of a) !! c)) string ∧
  concat (string_at a <$> resolve (alphabetLookupSymbol (instance_of a)) string)
    = string.
Proof.
  intros Hcons. induction 1 as [|c string Hc _ [IH1 IH2]]; [by split|].
  apply list_elem_of_lookup_1 in Hc as [k Hk].
  pose proof (Hcons _ _ Hk) as Hv. split.
  - constructor; [by eexists | done].
  - cbn [resolve omap list_omap]. rewrite Hv. cbn [mbind option_bind fmap list_fmap concat].
    fold (resolve (alphabetLookupSymbol (instance_of a)) string). rewrite IH2.
    unfold string_at. destruct (Z.leb_spec 0 (Z.of_nat k)); [|exfalso; lia].
    by rewrite Nat2Z.id, Hk.
Qed.

(** X12: canonical integer strings are fixed by decoding and encoding.
    With a codec built from an alphabet in which no symbol is an alias of
    a later symbol, a non-empty string of alphabet symbols that does not
    start with the zero symbol is what [encodeBigInt] returns for the
    value [decodeBigInt] reads from it, with or without a [-] in front;
    so is the zero symbol alone. *)
Theorem canonical_integer_strings (a : jsstring) (this : Base32Crockford)
    (digits : jsstring) :
  new_Base32Crockford (Some a) = inr this → alias_free a →
  Forall (λ c, c ∈ a) digits → digits ≠ [] →
  (head digits ≠ head a →
     (∃ m, decodeBigInt this digits = inr m ∧ 0 < m ∧
           encodeBigInt this m = Some digits) ∧
     (∃ m, decodeBigInt this (NEGATIVE_CHAR :: digits) = inr m ∧ m < 0 ∧
           encodeBigInt this m = Some (NEGATIVE_CHAR :: digits))) ∧
  (digits = take 1 a →
     decodeBigInt this digits = inr 0 ∧ encodeBigInt this 0 = Some digits).
Proof.
  intros Hnew Hfree Hin Hne.
  pose proof (constructed_sign_not_key _ _ Hnew) as Hsign.
  pose proof (constructed_table_range _ _ Hnew) as Hrange.
  pose proof (construct_custom_result _ _ Hnew) as ->.
  apply construct_custom_ok in Hnew as (Hlen & Hk & Hnodup).
  pose proof (proj1 (alias_free_consistent a Hlen Hk Hnodup) Hfree) as Hcons.
  destruct (symbols_of_resolve a digits Hcons Hin) as [Hall Hsym].
  pose proof (resolve_range _ Hrange digits) as Hvalues.
  pose proof (encodeBigInt_digits (instance_of a) _ Hvalues) as Henc.
  change (alphabetSymbol (instance_of a)) with a in Henc.
  destruct (lookup_lt_is_Some_2 a 0) as [zero Hzero];
    [rewrite Hlen; unfold BASE; lia|].
  split.
  - intros Hhead.
    assert (strip_zeros (resolve (alphabetLookupSymbol (instance_of a)) digits)
            = resolve (alphabetLookupSymbol (instance_of a)) digits ∧
            resolve (alphabetLookupSymbol (instance_of a)) digits ≠ []) as [Hstrip Hnil].
    { destruct digits as [|c rest]; [done|].
      inversion Hin as [|? ? Hc _]; subst.
      apply list_elem_of_lookup_1 in Hc as [k Hkc].
      rewrite (resolve_cons _ c (Z.of_nat k)) by (by apply Hcons).
      split; [|done]. cbn [strip_zeros]. rewrite decide_False; [done|].
      intros H0. assert (k = 0%nat) as -> by lia.
      apply Hhead. cbn [head]. destruct a; [done|]. cbn in Hkc |- *. congruence. }
    rewrite Hstrip, decide_False, Hsym in Henc by done.
    assert (0 < digits_value 0 (resolve (alphabetLookupSymbol (instance_of a)) digits))
      as Hpos.
    { pose proof (digits_value_ge _ 0 ltac:(lia) Hvalues) as Hge.
      pose proof (strip_zeros_value _ Hvalues) as Hzv. rewrite Hstrip in Hzv.
      destruct (decide (digits_value 0
                  (resolve (alphabetLookupSymbol (instance_of a)) digits) = 0)) as [H0|H0];
        [|lia].
      apply Hzv in H0. done. }
    split.
    + eexists. split_and!; [by apply decodeBigInt_unsigned | done | done].
    + eexists. split_and!; [by apply decodeBigInt_signed | lia |].
      rewrite encodeBigInt_opp by done. by rewrite Henc.
  - intros ->. destruct a as [|z a']; [done|]. cbn [take] in *.
    injection Hzero as ->.
    rewrite decodeBigInt_unsigned by done.
    rewrite (resolve_cons _ zero 0) by (by apply (Hcons 0%nat)).
    split; [done|]. unfold encodeBigInt. by rewrite decide_True.
Qed.

(** The strings [7Z], [-7Z] and [0] with the default alphabet. *)
Lemma canonical_integer_strings_witness :
  (∃ m, decodeBigInt base32Crockford (js "7Z") = inr m ∧ 0 < m ∧
        encodeBigInt base32Crockford m = Some (js "7Z")) ∧
  (∃ m, decodeBigInt base32Crockford (js "-7Z") = inr m ∧ m < 0 ∧
        encodeBigInt base32Crockford m = Some (js "-7Z")).
Proof.
  apply (proj1 (canonical_integer_strings ALPHABET base32Crockford (js "7Z")
                  ltac:(vm_compute; reflexivity)
                  (no_alias_symbol_alias_free ALPHABET ltac:(compute_done))
                  ltac:(compute_done) ltac:(done))).
  compute_done.
Defined.

(** ** The byte codec as arithmetic *)

Lemma first_value_all (b : Z) : is_byte b → first_value b.
Proof.
  intros Hb. apply (@bool_decide_eq_true_1 (first_value b) (first_value_dec b)).
  apply (forallb_seqZ (λ x, @bool_decide (first_value x) (first_value_dec x)) 0 256);
    [|unfold is_byte in Hb; lia].
  vm_compute. reflexivity.
Qed.

Lemma head_value_all (s b t : Z) :
  4 ≤ s ≤ 8 → is_byte b → 0 ≤ t < 2 ^ (8 - s) → head_value s b t.
Proof.
  intros Hs Hb Ht. apply (@bool_decide_eq_true_1 (head_value s b t) (head_value_dec s b t)).
  assert (forallb
            (λ x, forallb
                    (λ y, forallb (λ z, @bool_decide (head_value x y z) (head_value_dec x y z))
                            (seqZ 0 (2 ^ (8 - x))))
                    (seqZ 0 256))
            (seqZ 4 5) = true)
    as H by (vm_compute; reflexivity).
  pose proof (forallb_seqZ _ _ _ H s ltac:(lia)) as H1. cbv beta in H1.
  pose proof (forallb_seqZ _ _ _ H1 b ltac:(unfold is_byte in Hb; lia)) as H2.
  cbv beta in H2.
  apply (forallb_seqZ _ _ _ H2). lia.
Qed.

Lemma tail_value_all (s b' : Z) : 4 ≤ s ≤ 8 → is_byte b' → tail_value s b'.
Proof.
  intros Hs Hb. apply (@bool_decide_eq_true_1 (tail_value s b') (tail_value_dec s b')).
  assert (forallb (λ x, forallb (λ y, @bool_decide (tail_value x y) (tail_value_dec x y))
                          (seqZ 0 256))
            (seqZ 4 5) = true)
    as H by (vm_compute; reflexivity).
  pose proof (forallb_seqZ _ _ _ H s ltac:(lia)) as H1. cbv beta in H1.
  apply (forallb_seqZ _ _ _ H1). unfold is_byte in Hb. lia.
Qed.

Lemma final_value_all (s b : Z) : 4 ≤ s ≤ 8 → is_byte b → final_value s b.
Proof.
  intros Hs Hb. apply (@bool_decide_eq_true_1 (final_value s b) (final_value_dec s b)).
  assert (forallb (λ x, forallb (λ y, @bool_decide (final_value x y) (final_value_dec x y))
                          (seqZ 0 256))
            (seqZ 4 5) = true)
    as H by (vm_compute; reflexivity).
  pose proof (forallb_seqZ _ _ _ H s ltac:(lia)) as H1. cbv beta in H1.
  apply (forallb_seqZ _ _ _ H1). unfold is_byte in Hb. lia.
Qed.

Lemma decode_step_value_all (s g v : Z) :
  1 ≤ s ≤ 8 → 0 ≤ g < 2 ^ (8 - s) → 0 ≤ v < 32 → decode_step_value s g v.
Proof.
  intros Hs Hg Hv.
  apply (@bool_decide_eq_true_1 (decode_step_value s g v) (decode_step_value_dec s g v)).
  assert (forallb
            (λ x, forallb
                    (λ y, forallb (λ z, @bool_decide (decode_step_value x y z)
                                          (decode_step_value_dec x y z))
                            (seqZ 0 32))
                    (seqZ 0 (2 ^ (8 - x))))
            (seqZ 1 8) = true)
    as H by (vm_compute; reflexivity).
  pose proof (forallb_seqZ _ _ _ H s ltac:(lia)) as H1. cbv beta in H1.
  pose proof (forallb_seqZ _ _ _ H1 g ltac:(lia)) as H2. cbv beta in H2.
  apply (forallb_seqZ _ _ _ H2). lia.
Qed.

Lemma digits_value_acc (l : list Z) : ∀ (a t : Z),
  digits_value (a + t) l = a * 32 ^ Z.of_nat (length l) + digits_value t l.
Proof.
  unfold digits_value.
  induction l as [|d l IH]; intros a t; cbn [foldl length].
  - change (Z.of_nat 0) with 0. lia.
  - replace ((a + t) * 32 + d) with (a * 32 + (t * 32 + d)) by lia.
    rewrite IH, Nat2Z.inj_succ, Z.pow_succ_r by lia. lia.
Qed.

Lemma bytes_value_acc (l : list Z) : ∀ (a t : Z),
  bytes_value (a + t) l = a * 256 ^ Z.of_nat (length l) + bytes_value t l.
Proof.
  unfold bytes_value.
  induction l as [|d l IH]; intros a t; cbn [foldl length].
  - change (Z.of_nat 0) with 0. lia.
  - replace ((a + t) * 256 + d) with (a * 256 + (t * 256 + d)) by lia.
    rewrite IH, Nat2Z.inj_succ, Z.pow_succ_r by lia. lia.
Qed.

(** The scale of one encoder step: the values emitted after the first
    one and the bits kept for later make up the [s] low bits of the byte. *)
Lemma encoder_step_scale (s b' : Z) :
  4 ≤ s ≤ 8 →
  32 ^ Z.of_nat (length (later_values s b')) * 2 ^ (next_shift s - 3) = 2 ^ s.
Proof.
  intros Hs. unfold later_values, next_shift, BITS_PER_CHAR.
  destruct (Z.ltb_spec 5 s); cbn [length].
  - replace (s - 2 - 3) with (s - 5) by lia.
    change (32 ^ Z.of_nat 1) with (2 ^ 5). rewrite <- Z.pow_add_r by lia.
    f_equal. lia.
  - replace (s + 3 - 3) with s by lia. change (32 ^ Z.of_nat 0) with 1. lia.
Qed.

(** The encoder in numbers: from the state after byte [b], where the
    values emitted so far are worth [acc] and the bytes read so far [X],
    the values emitted for [rest] and the one appended after the loop
    bring the digits' value to that of all bytes, shifted left by the
    padding. *)
Lemma encode_values_numeric (rest : list Z) : ∀ (s b acc X : Z),
  4 ≤ s ≤ 8 → is_byte b → Forall is_byte rest →
  acc * 2 ^ (s - 3) + b mod 2 ^ (s - 3) = X →
  let '(values, s', c') := encode_values s (b << (8 - s)) rest in
  digits_value acc (values ++ [c' .& 0x1f]) = bytes_value X rest * 2 ^ (8 - s').
Proof.
  induction rest as [|b' rest IH]; intros s b acc X Hs Hb Hrest HX.
  - cbn [encode_values app]. unfold digits_value, bytes_value. cbn [foldl].
    rewrite (final_value_all s b Hs Hb). subst X.
    rewrite Z.mul_add_distr_r, <- Z.mul_assoc, <- Z.pow_add_r by lia.
    replace (s - 3 + (8 - s)) with 5 by lia. change (2 ^ 5) with 32. lia.
  - inversion Hrest as [|? ? Hb' Hrest']; subst.
    rewrite encode_values_cons.
    destruct (tail_step_all s b' Hs Hb') as [Ht _].
    pose proof (head_value_all s b (b' >> s) Hs Hb Ht) as Hhead.
    pose proof (tail_value_all s b' Hs Hb') as Htail.
    pose proof (encoder_step_scale s b' Hs) as Hscale.
    unfold head_value in Hhead. unfold tail_value in Htail.
    specialize (IH (next_shift s) b'
                  (digits_value acc (((b << (8 - s)) .| (b' >> s)) .& 0x1f
                                     :: later_values s b'))
                  ((acc * 2 ^ (s - 3) + b mod 2 ^ (s - 3)) * 256 + b')
                  (next_shift_range s ltac:(lia)) Hb' Hrest').
    destruct (encode_values (next_shift s) _ rest) as [[more s'] c'].
    replace ((((b << (8 - s)) .| (b' >> s)) .& 31 :: later_values s b' ++ more)
               ++ [c' .& 31])
      with ((((b << (8 - s)) .| (b' >> s)) .& 31 :: later_values s b')
              ++ (more ++ [c' .& 31]))
      by (cbn [app]; by rewrite app_assoc).
    replace (digits_value acc
               ((((b << (8 - s)) .| (b' >> s)) .& 31 :: later_values s b')
                  ++ (more ++ [c' .& 31])))
      with (digits_value
              (digits_value acc
                 (((b << (8 - s)) .| (b' >> s)) .& 31 :: later_values s b'))
              (more ++ [c' .& 31]))
      by (unfold digits_value; symmetry; apply foldl_app).
    match goal with |- context [bytes_value ?x (b' :: rest)] =>
      change (bytes_value x (b' :: rest)) with (bytes_value (x * 256 + b') rest)
    end.
    apply IH. clear IH.
    change (digits_value acc
              (((b << (8 - s)) .| (b' >> s)) .& 31 :: later_values s b'))
      with (digits_value (acc * 32 + ((b << (8 - s)) .| (b' >> s)) .& 31)
              (later_values s b')).
    rewrite Hhead.
    replace (acc * 32 + (b mod 2 ^ (s - 3) * 2 ^ (8 - s) + (b' >> s)))
      with ((acc * 32 + b mod 2 ^ (s - 3) * 2 ^ (8 - s)) + (b' >> s)) by lia.
    rewrite digits_value_acc.
    rewrite Z.mul_add_distr_r, <- Z.mul_assoc, Hscale, <- Z.add_assoc, Htail.
    f_equal.
    rewrite !Z.mul_add_distr_r, <- !Z.mul_assoc, <- Z.pow_add_r by lia.
    replace (8 - s + s) with 8 by lia.
    replace 32 with (2 ^ 5) by reflexivity. rewrite <- Z.pow_add_r by lia.
    replace (5 + s) with (s - 3 + 8) by lia. rewrite Z.pow_add_r by lia.
    change (2 ^ 8) with 256. lia.
Qed.

Lemma encode_all_values_numeric (B : list Z) :
  Forall is_byte B →
  let pad := 5 * Z.of_nat (length (encode_all_values B)) - 8 * Z.of_nat (length B) in
  0 ≤ pad < 5 ∧
  digits_value 0 (encode_all_values B) = bytes_value 0 B * 2 ^ pad.
Proof.
  intros HB pad.
  pose proof (encode_all_values_length B) as Hlen.
  assert (0 ≤ pad < 5) as Hpad.
  { subst pad. rewrite Hlen.
    pose proof (Z.div_mod (Z.of_nat (length B) * 8 + 4) 5 ltac:(lia)).
    pose proof (Z.mod_pos_bound (Z.of_nat (length B) * 8 + 4) 5 ltac:(lia)). lia. }
  split; [done|]. subst pad.
  destruct B as [|b rest]; [reflexivity|].
  inversion HB as [|? ? Hb Hrest]; subst.
  revert Hpad Hlen. rewrite encode_all_values_cons.
  pose proof (encode_values_numeric rest 6 b (b / 8) b ltac:(lia) Hb Hrest) as Hnum.
  pose proof (encode_values_count rest 6 (b << 2) ltac:(lia)) as Hcount.
  replace (8 - 6) with 2 in Hnum by reflexivity.
  destruct (encode_values 6 (b << 2) rest) as [[more s'] c'].
  destruct Hcount as (Hs' & Hcount & Hne).
  rewrite decide_True by lia. intros Hpad Hlen.
  rewrite (first_value_all b Hb).
  change (digits_value 0 ([b / 8] ++ more ++ [c' .& 31]))
    with (digits_value (0 * 32 + b / 8) (more ++ [c' .& 31])).
  change (bytes_value 0 (b :: rest)) with (bytes_value (0 * 256 + b) rest).
  rewrite !Z.mul_0_l, !Z.add_0_l. rewrite Hnum.
  - f_equal. f_equal. rewrite !length_app in *. cbn [length] in *. lia.
  - change (2 ^ (6 - 3)) with 8. pose proof (Z.div_mod b 8 ltac:(lia)). lia.
Qed.

(** X13: the encoder in numbers.  For every codec and byte sequence,
    [encodeToString] returns the alphabet symbols of a sequence of values
    below 32, and [encode] stores the byte-map entries of the same values;
    read as a number in base 32, most significant first, the values are
    the bytes read as a number in base 256, shifted left by the number of
    padding bits, which is less than 5. *)
Theorem encoding_is_base32_of_bytes (this : Base32Crockford) (B : list Z) :
  Forall is_byte B →
  ∃ values : list Z,
    encodeToString this B None None
      = concat (string_at (alphabetSymbol this) <$> values) ∧
    encode this B None None
      = (λ v, Uint8Array_get (baseMapSymbol this) v mod 256) <$> values ∧
    Forall (λ v, 0 ≤ v < 32) values ∧
    0 ≤ 5 * Z.of_nat (length values) - 8 * Z.of_nat (length B) < 5 ∧
    digits_value 0 values
      = bytes_value 0 B * 2 ^ (5 * Z.of_nat (length values) - 8 * Z.of_nat (length B)).
Proof.
  intros HB. exists (encode_all_values B).
  destruct (encode_all_values_numeric B HB) as [Hpad Hnum].
  split; [|split; [|split; [|split]]];
    [| |apply encode_all_values_range|exact Hpad|exact Hnum].
  - by rewrite encodeToString_values, slice_range_all.
  - by rewrite encode_values_bytes, slice_range_all.
Qed.

(** The bytes of [Hi] with the default codec: [91MG]. *)
Lemma encoding_is_base32_of_bytes_witness :
  ∃ values : list Z,
    encodeToString base32Crockford [72; 105] None None
      = concat (string_at (alphabetSymbol base32Crockford) <$> values) ∧
    encode base32Crockford [72; 105] None None
      = (λ v, Uint8Array_get (baseMapSymbol base32Crockford) v mod 256) <$> values ∧
    Forall (λ v, 0 ≤ v < 32) values ∧
    0 ≤ 5 * Z.of_nat (length values) - 8 * 2 < 5 ∧
    digits_value 0 values
      = bytes_value 0 [72; 105] * 2 ^ (5 * Z.of_nat (length values) - 8 * 2).
Proof.
  apply (encoding_is_base32_of_bytes base32Crockford [72; 105]).
  repeat constructor; unfold is_byte; lia.
Defined.

(** The decoder in numbers: from a state with [8 - s] gathered bits [g],
    where the bytes stored so far are worth [X], the bytes stored for
    [values] and the bits gathered at the end make up the value of all
    digits read. *)
Lemma decode_values_numeric (values : list Z) : ∀ (s g X : Z),
  1 ≤ s ≤ 8 → 0 ≤ g < 2 ^ (8 - s) → Forall (λ v, 0 ≤ v < 32) values →
  let r := decode_values s (Z.shiftl g s) values in
  1 ≤ r.1.2 ≤ 8 ∧ Forall (λ x, 0 ≤ x < 256) r.1.1 ∧
  0 ≤ gathered_value r < 2 ^ (8 - r.1.2) ∧
  bytes_value X r.1.1 * 2 ^ (8 - r.1.2) + gathered_value r
    = digits_value (X * 2 ^ (8 - s) + g) values ∧
  r.2 = Z.shiftl (gathered_value r) r.1.2.
Proof.
  induction values as [|v rest IH]; intros s g X Hs Hg Hvalues r.
  - subst r. cbn [decode_values fst snd]. unfold gathered_value. cbn [fst snd].
    rewrite Z.shiftr_shiftl_l, Z.sub_diag, Z.shiftl_0_r by lia.
    split_and!; [lia..|constructor|lia|lia|done|done].
  - inversion Hvalues as [|? ? Hv Hrest]; subst.
    pose proof (decode_step_value_all s g v Hs Hg Hv) as Hstep.
    unfold decode_step_value, decode_step_holds in Hstep.
    subst r. change (v :: rest) with ([v] ++ rest). rewrite decode_values_app.
    destruct (decode_values s (Z.shiftl g s) [v]) as [[e1 s1] c1].
    unfold gathered_value in Hstep. cbn [fst snd] in Hstep.
    destruct Hstep as (Hs1 & Hlen & He1 & Hc1 & Hg1 & Hval).
    assert (1 ≤ s1 ≤ 8 ∧ 256 ^ Z.of_nat (length e1) * 2 ^ (8 - s1) = 32 * 2 ^ (8 - s))
      as [Hs1r Hscale].
    { rewrite Hlen, Hs1. destruct (Z.leb_spec s 5).
      - split; [lia|]. change (256 ^ Z.of_nat 1) with (2 ^ 8).
        change 32 with (2 ^ 5). rewrite <- !Z.pow_add_r by lia. f_equal. lia.
      - split; [lia|]. change (256 ^ Z.of_nat 0) with 1.
        change 32 with (2 ^ 5). rewrite <- !Z.pow_add_r by lia.
        rewrite Z.mul_1_l. f_equal. lia. }
    specialize (IH s1 (Z.shiftr c1 s1) (bytes_value X e1) Hs1r Hg1 Hrest).
    rewrite <- Hc1 in IH. cbv zeta in IH.
    destruct (decode_values s1 c1 rest) as [[e2 s2] c2].
    unfold gathered_value in IH |- *. cbn [fst snd] in IH |- *.
    destruct IH as (Hs2 & He2 & Hg2 & IH & Hc2).
    split_and!; [lia..|by apply Forall_app|lia|lia| |done].
    replace (bytes_value X (e1 ++ e2)) with (bytes_value (bytes_value X e1) e2)
      by (unfold bytes_value; symmetry; apply foldl_app).
    rewrite IH.
    change (digits_value (X * 2 ^ (8 - s) + g) (v :: rest))
      with (digits_value ((X * 2 ^ (8 - s) + g) * 32 + v) rest).
    apply (f_equal (λ acc, digits_value acc rest)).
    replace X with (X + 0) at 1 by lia. rewrite bytes_value_acc.
    rewrite Z.mul_add_distr_r, <- Z.mul_assoc, Hscale. lia.
Qed.

(** X14: the decoder in numbers.  With a codec the constructor returned,
    decoding a string whose symbols are all in the table returns bytes
    whose value in base 256 is the value in base 32 of the symbols' table
    values without its low bits: as many bits, fewer than 8, as do not
    fill a byte. *)
Theorem decoding_is_base256_of_values (alphabet : option jsstring)
    (this : Base32Crockford) (string : jsstring) :
  new_Base32Crockford alphabet = inr this →
  Forall (λ c, is_Some (alphabetLookupSymbol this !! c)) string →
  ∃ bytes : list Z,
    decodeFromString this string None None = inr bytes ∧
    Forall is_byte bytes ∧
    0 ≤ 5 * Z.of_nat (length string) - 8 * Z.of_nat (length bytes) < 8 ∧
    bytes_value 0 bytes
      = digits_value 0 (resolve (alphabetLookupSymbol this) string)
          / 2 ^ (5 * Z.of_nat (length string) - 8 * Z.of_nat (length bytes)).
Proof.
  intros Hnew Hall.
  pose proof (constructed_table_range _ _ Hnew) as Hrange.
  pose proof (resolve_range _ Hrange string) as Hvalues.
  pose proof (resolve_length _ _ Hall) as Hlen.
  rewrite decodeFromString_returns; rewrite slice_range_all; [|done].
  pose proof (decode_values_numeric _ 8 0 0 ltac:(lia) ltac:(done) Hvalues) as Hnum.
  pose proof (decode_values_count (resolve (alphabetLookupSymbol this) string) 8 0
                ltac:(lia)) as Hcount.
  cbv zeta in Hnum. change (Z.shiftl 0 8) with 0 in Hnum.
  destruct (decode_values 8 0 _) as [[emitted s'] c'].
  unfold gathered_value in Hnum. cbn [fst snd] in Hnum |- *.
  destruct Hnum as (Hs' & Hbytes & Hg & Hnum & _). destruct Hcount as [_ Hcount].
  rewrite Hlen in Hcount.
  rewrite mod_256_bytes by done.
  exists emitted. split_and!; [done|done|lia|lia|].
  replace (5 * Z.of_nat (length string) - 8 * Z.of_nat (length emitted))
    with (8 - s') by lia.
  change (0 * 2 ^ (8 - 8) + 0) with 0 in Hnum.
  apply Z.div_unique with (r := Z.shiftr c' s'); [lia|]. lia.
Qed.

(** The string [91MG] with the default codec. *)
Lemma decoding_is_base256_of_values_witness :
  ∃ bytes : list Z,
    decodeFromString base32Crockford (js "91MG") None None = inr bytes ∧
    Forall is_byte bytes ∧
    0 ≤ 5 * 4 - 8 * Z.of_nat (length bytes) < 8 ∧
    bytes_value 0 bytes
      = digits_value 0 (resolve (alphabetLookupSymbol base32Crockford) (js "91MG"))
          / 2 ^ (5 * 4 - 8 * Z.of_nat (length bytes)).
Proof.
  apply (decoding_is_base256_of_values None base32Crockford (js "91MG") eq_refl).
  compute_done.
Defined.

(** ** The probe on what the default codec writes *)

Lemma default_symbols_accepted (values : list Z) :
  Forall (λ v, 0 ≤ v < 32) values →
  Forall (λ c, c ∈ accepted_chars) (concat (string_at ALPHABET <$> values)).
Proof.
  induction 1 as [|v values Hv _ IH]; [constructor|].
  cbn [fmap list_fmap concat].
  destruct (string_at_in_range ALPHABET v) as (c & Hc & ->); [cbn; lia|].
  constructor; [|exact IH].
  assert (Forall (λ c, c ∈ accepted_chars) ALPHABET) as Hall by compute_done.
  rewrite Forall_forall in Hall. apply Hall. by eapply list_elem_of_lookup_2.
Qed.

(** X15: [isBase32CrockfordString] accepts every string the default
    codec's [encodeToString] returns, whatever the input and the range,
    and the encoding of every non-negative integer; it rejects the
    encoding of every negative integer, which starts with [-]. *)
Theorem probe_on_encodings :
  (∀ (input : list Z) (start end_ : option Z),
     isBase32CrockfordString (encodeToString base32Crockford input start end_) = true) ∧
  (∀ m : Z, ∃ s, encodeBigInt base32Crockford m = Some s ∧
                 isBase32CrockfordString s = bool_decide (0 ≤ m)) ∧
  (∀ n : Z, Z.abs n ≤ NumberMAX_SAFE_INTEGER →
            ∃ s, encodeInt base32Crockford n = Some (inr s) ∧
                 isBase32CrockfordString s = bool_decide (0 ≤ n)).
Proof.
  assert (∀ m : Z, ∃ s, encodeBigInt base32Crockford m = Some s ∧
                        isBase32CrockfordString s = bool_decide (0 ≤ m)) as HBig.
  { intros m. destruct (decide (m = 0)) as [->|Hm]; [by eexists|].
    destruct (encodeBigInt_form base32Crockford m Hm) as (d & ds & -> & _ & Hds & _).
    eexists. split; [done|].
    pose proof (default_symbols_accepted _ Hds) as Hacc.
    change (alphabetSymbol base32Crockford) with ALPHABET.
    destruct (Z.ltb_spec m 0).
    - rewrite bool_decide_eq_false_2 by lia.
      destruct (isBase32CrockfordString _) eqn:E; [|done].
      apply isBase32CrockfordString_spec in E.
      inversion E as [|? ? Hsign _]; subst. revert Hsign. compute_done.
    - rewrite bool_decide_eq_true_2 by lia.
      by apply isBase32CrockfordString_spec. }
  split_and!.
  - intros input start end_. apply isBase32CrockfordString_spec.
    rewrite encodeToString_values.
    apply default_symbols_accepted, encode_all_values_range.
  - exact HBig.
  - intros n Hn. destruct (HBig n) as (s & Hs & Hprobe). exists s.
    rewrite encodeInt_encodeBigInt, Hs by done. done.
Qed.

(** The safe integers 5 and -5. *)
Lemma probe_on_encodings_witness :
  (∃ s, encodeInt base32Crockford 5 = Some (inr s) ∧
        isBase32CrockfordString s = bool_decide (0 ≤ 5)) ∧
  (∃ s, encodeInt base32Crockford (- 5) = Some (inr s) ∧
        isBase32CrockfordString s = bool_decide (0 ≤ - 5)).
Proof.
  split.
  - apply (proj2 (proj2 probe_on_encodings) 5). by vm_compute.
  - apply (proj2 (proj2 probe_on_encodings) (- 5)). by vm_compute.
Defined.

(** ** Text wrappers *)

(** X16: the text wrappers add nothing to the byte codec but the two
    conversions.  With a codec built from an alphabet in which no symbol
    is an alias of a later one, [decodeText] of what [encodeText] returns
    is the text decoded from the bytes the text was encoded to; and
    [decodeText] throws what [decodeFromString] throws. *)
Theorem text_round_trip (stringToUint8Array : jsstring → Uint8Array)
    (uint8ArrayToString : Uint8Array → jsstring)
    (a : jsstring) (this : Base32Crockford) (string : jsstring) :
  new_Base32Crockford (Some a) = inr this → alias_free a →
  Forall is_byte (stringToUint8Array string) →
  decodeText uint8ArrayToString this
      (encodeText stringToUint8Array this string None None) None None
    = inr (uint8ArrayToString (stringToUint8Array string)) ∧
  (∀ (input : jsstring) (start end_ : option Z) (e : exception),
     decodeText uint8ArrayToString this input start end_ = inl e ↔
     decodeFromString this input start end_ = inl e).
Proof.
  intros Hnew Hfree Hbytes. split.
  - pose proof (construct_custom_result _ _ Hnew) as ->.
    apply construct_custom_ok in Hnew as (Hlen & Hk & Hnodup).
    pose proof (proj1 (alias_free_consistent a Hlen Hk Hnodup) Hfree) as Hcons.
    unfold decodeText, encodeText.
    rewrite byte_round_trip_string; [done|done| |done].
    exact Hcons.
  - intros input start end_ e. unfold decodeText.
    destruct (decodeFromString this input start end_); cbn [bind]; [done|].
    split; intros [=].
Qed.

(** The text [Hi], with the conversions of a text of ASCII characters:
    one byte per character. *)
Lemma text_round_trip_witness :
  decodeText id base32Crockford
      (encodeText id base32Crockford (js "Hi") None None) None None
    = inr (js "Hi").
Proof.
  apply (proj1 (text_round_trip id id ALPHABET base32Crockford (js "Hi")
                  ltac:(vm_compute; reflexivity)
                  (no_alias_symbol_alias_free ALPHABET ltac:(compute_done))
                  ltac:(change (id (js "Hi")) with [72; 105];
                        repeat (constructor; [unfold is_byte; lia|]);
                        constructor))).
Defined.

(** ** A sign in front of a digit string *)

Lemma round_significand_nonneg (z : Z) : 0 ≤ z → 0 ≤ round_significand z.
Proof.
  intros Hz. unfold round_significand.
  destruct (Z.log2 z + 1 <=? 53); [done|].
  apply Z.shiftl_nonneg.
  assert (0 ≤ Z.shiftr z (Z.log2 z + 1 - 53)) by (by apply Z.shiftr_nonneg).
  destruct (_ || _); lia.
Qed.

Lemma Number_of_exact_nonneg (z : Z) : 0 ≤ z → Number_nonneg (Number_of_exact z).
Proof.
  intros Hz. unfold Number_of_exact. rewrite Z.abs_eq by done.
  pose proof (round_significand_nonneg z Hz) as Hm.
  destruct (2 ^ 1024 <=? round_significand z).
  - destruct (Z.ltb_spec z 0); [lia | done].
  - cbn [Number_nonneg]. destruct (Z.sgn_spec z) as [[_ ->]|[[_ ->]|[? _]]]; lia.
Qed.

Section SignedDecoders.
Variable table : gmap Z Z.
Hypothesis table_range : ∀ c v, table !! c = Some v → 0 ≤ v < 32.

Lemma decodeInt_loop_nonneg (chars : list Z) : ∀ (i : nat) (acc r : Number),
  Number_nonneg acc → decodeInt_loop table i chars acc = inr r → Number_nonneg r.
Proof.
  induction chars as [|c chars IH]; intros i acc r Hacc; cbn [decodeInt_loop].
  - by intros [= <-].
  - destruct (table !! c) as [v|] eqn:Hv; [|done].
    apply IH. pose proof (table_range _ _ Hv) as Hvr.
    change (Z.of_nat BASE) with 32.
    destruct acc as [a| |]; cbn [Number_mul Number_nonneg] in *; [|done..].
    pose proof (Number_of_exact_nonneg (a * 32) ltac:(lia)) as Hmul.
    destruct (Number_of_exact (a * 32)) as [a'| |]; cbn [Number_add Number_nonneg] in *;
      [|done..].
    apply Number_of_exact_nonneg. lia.
Qed.

Lemma decodeInt_loop_shift (chars : list Z) : ∀ (i : nat) (acc : Number),
  decodeInt_loop table (S i) chars acc
    = after_sign id (decodeInt_loop table i chars acc).
Proof.
  induction chars as [|c chars IH]; intros i acc; cbn [decodeInt_loop]; [done|].
  destruct (table !! c); [apply IH | done].
Qed.

Lemma decodeBigInt_loop_shift (chars : list Z) : ∀ (i : nat) (acc : Z),
  decodeBigInt_loop table (S i) chars acc
    = after_sign id (decodeBigInt_loop table i chars acc).
Proof.
  induction chars as [|c chars IH]; intros i acc; cbn [decodeBigInt_loop]; [done|].
  destruct (table !! c); [apply IH | done].
Qed.
End SignedDecoders.

(** X17: a sign in front of a digit string.  With a codec the
    constructor returned, [-] alone is rejected as an invalid character
    at index 0, and so is a second [-] at index 1; in front of a
    non-empty string that does not start with [-], the sign negates what
    the decoder returns for the string (zero stays zero), and an error of
    the string is reported one index further.  [decodeInt] never returns
    a value below zero for a string without a sign. *)
Theorem sign_in_front (alphabet : option jsstring) (this : Base32Crockford)
    (digits : jsstring) :
  new_Base32Crockford alphabet = inr this →
  decodeBigInt this [NEGATIVE_CHAR]
    = inl (Throw SyntaxError (InvalidCharacter NEGATIVE_CHAR 0)) ∧
  decodeInt this [NEGATIVE_CHAR]
    = inl (Throw SyntaxError (InvalidCharacter NEGATIVE_CHAR 0)) ∧
  (head digits = Some NEGATIVE_CHAR →
     decodeBigInt this (NEGATIVE_CHAR :: digits)
       = inl (Throw SyntaxError (InvalidCharacter NEGATIVE_CHAR 1)) ∧
     decodeInt this (NEGATIVE_CHAR :: digits)
       = inl (Throw SyntaxError (InvalidCharacter NEGATIVE_CHAR 1))) ∧
  (digits ≠ [] → head digits ≠ Some NEGATIVE_CHAR →
     decodeBigInt this (NEGATIVE_CHAR :: digits)
       = after_sign Z.opp (decodeBigInt this digits) ∧
     decodeInt this (NEGATIVE_CHAR :: digits)
       = after_sign Number_neg (decodeInt this digits) ∧
     (∀ r, decodeInt this digits = inr r → Number_nonneg r)).
Proof.
  intros Hnew.
  pose proof (constructed_sign_not_key _ _ Hnew) as Hsign.
  pose proof (constructed_table_range _ _ Hnew) as Hrange.
  split_and!.
  - unfold decodeBigInt. cbn [lookup list_lookup length].
    rewrite bool_decide_eq_true_2 by done.
    rewrite (bool_decide_eq_false_2 (1 < 1)%nat) by lia.
    cbn [andb drop decodeBigInt_loop]. by rewrite Hsign.
  - unfold decodeInt. cbn [lookup list_lookup length].
    rewrite bool_decide_eq_true_2 by done.
    rewrite (bool_decide_eq_false_2 (1 < 1)%nat) by lia.
    cbn [andb drop decodeInt_loop]. by rewrite Hsign.
  - intros Hhead. destruct digits as [|c rest]; [done|]. injection Hhead as ->.
    unfold decodeBigInt, decodeInt. cbn [lookup list_lookup length].
    rewrite bool_decide_eq_true_2 by done.
    rewrite bool_decide_eq_true_2 by lia.
    cbn [andb drop decodeBigInt_loop decodeInt_loop]. by rewrite Hsign.
  - intros Hne Hhead.
    assert (∀ A (x y : A), (if bool_decide (digits !! 0%nat = Some NEGATIVE_CHAR)
                                 && bool_decide (1 < length digits)%nat
                            then x else y) = y) as Hstart.
    { intros A x y. rewrite bool_decide_eq_false_2; [done|].
      by rewrite <- head_lookup. }
    assert (bool_decide (digits !! 0%nat = Some NEGATIVE_CHAR) = false) as Hneg.
    { apply bool_decide_eq_false_2. by rewrite <- head_lookup. }
    unfold decodeBigInt, decodeInt. cbn [lookup list_lookup].
    rewrite bool_decide_eq_true_2 by done.
    rewrite bool_decide_eq_true_2 by (destruct digits; [done | cbn; lia]).
    rewrite !Hstart, Hneg.
    cbn [andb]. change (drop 1 (NEGATIVE_CHAR :: digits)) with digits.
    change (drop 0 digits) with digits.
    rewrite decodeBigInt_loop_shift, decodeInt_loop_shift.
    pose proof (decodeInt_loop_nonneg _ Hrange digits 0 (Finite 0)) as Hnn.
    destruct (decodeBigInt_loop _ 0 digits 0) as [[k []]|m];
      destruct (decodeInt_loop _ 0 digits (Finite 0)) as [[k' []]|r];
      cbn [after_sign bind id]; (split_and!; [done| |]); try done.
    all: try (intros r' [= <-]; apply Hnn; [done | reflexivity]).
    all: specialize (Hnn r ltac:(done) eq_refl);
      destruct r as [z| |]; cbn [Number_gt0 Number_neg Number_nonneg] in *; try done.
    all: destruct (Z.ltb_spec 0 z); [done|]; do 2 f_equal; lia.
Qed.

(** The strings [-] [-ZZ] and [--1] with the default codec. *)
Lemma sign_in_front_witness :
  decodeBigInt base32Crockford (js "--1")
    = inl (Throw SyntaxError (InvalidCharacter NEGATIVE_CHAR 1)) ∧
  decodeInt base32Crockford (js "-ZZ")
    = after_sign Number_neg (decodeInt base32Crockford (js "ZZ")).
Proof.
  split.
  - apply (proj1 (proj2 (proj2 (sign_in_front None base32Crockford (js "-1") eq_refl)))).
    reflexivity.
  - apply (proj2 (proj2 (proj2 (sign_in_front None base32Crockford (js "ZZ") eq_refl)))).
    + done.
    + compute_done.
Defined.

(** ** Chunks, and strings that are encodings *)

Lemma digits_value_bound (values : list Z) :
  Forall (λ v, 0 ≤ v < 32) values →
  0 ≤ digits_value 0 values < 32 ^ Z.of_nat (length values).
Proof.
  induction values as [|v values IH] using rev_ind; intros Hvalues.
  - cbn. lia.
  - apply Forall_app in Hvalues as [Hvalues Hv]. apply Forall_cons in Hv as [Hv _].
    specialize (IH Hvalues). rewrite digits_value_snoc, length_app. cbn [length].
    rewrite Nat2Z.inj_add, Z.pow_add_r by lia. change (32 ^ Z.of_nat 1) with 32. lia.
Qed.

(** A number has one sequence of base-32 digits of a given length. *)
Lemma digits_unique (xs : list Z) : ∀ ys : list Z,
  length xs = length ys →
  Forall (λ v, 0 ≤ v < 32) xs → Forall (λ v, 0 ≤ v < 32) ys →
  digits_value 0 xs = digits_value 0 ys → xs = ys.
Proof.
  induction xs as [|x xs IH]; intros [|y ys] Hlen Hxs Hys Hval; try done.
  apply Forall_cons in Hxs as [Hx Hxs]. apply Forall_cons in Hys as [Hy Hys].
  injection Hlen as Hlen.
  change (digits_value 0 (x :: xs)) with (digits_value (0 * 32 + x) xs) in Hval.
  change (digits_value 0 (y :: ys)) with (digits_value (0 * 32 + y) ys) in Hval.
  replace (0 * 32 + x) with (x + 0) in Hval by lia.
  replace (0 * 32 + y) with (y + 0) in Hval by lia.
  rewrite !digits_value_acc, <- Hlen in Hval.
  pose proof (digits_value_bound xs Hxs) as Hbx.
  pose proof (digits_value_bound ys Hys) as Hby. rewrite <- Hlen in Hby.
  destruct (Z.div_mod_unique (32 ^ Z.of_nat (length xs)) x y
              (digits_value 0 xs) (digits_value 0 ys)) as [-> Hrest];
    [by left | by left | lia |].
  f_equal. by apply IH.
Qed.

Lemma digits_value_app (xs ys : list Z) :
  digits_value 0 (xs ++ ys)
    = digits_value 0 xs * 32 ^ Z.of_nat (length ys) + digits_value 0 ys.
Proof.
  unfold digits_value at 1. rewrite foldl_app.
  fold (digits_value 0 xs). fold (digits_value (digits_value 0 xs) ys).
  replace (digits_value 0 xs) with (digits_value 0 xs + 0) at 1 by lia.
  apply digits_value_acc.
Qed.

Lemma bytes_value_app (xs ys : list Z) :
  bytes_value 0 (xs ++ ys)
    = bytes_value 0 xs * 256 ^ Z.of_nat (length ys) + bytes_value 0 ys.
Proof.
  unfold bytes_value at 1. rewrite foldl_app.
  fold (bytes_value 0 xs). fold (bytes_value (bytes_value 0 xs) ys).
  replace (bytes_value 0 xs) with (bytes_value 0 xs + 0) at 1 by lia.
  apply bytes_value_acc.
Qed.

(** The values of an input cut after a multiple of five bytes. *)
Lemma encode_all_values_chunks (B1 B2 : list Z) :
  Forall is_byte B1 → Forall is_byte B2 → (length B1 mod 5 = 0)%nat →
  encode_all_values (B1 ++ B2) = encode_all_values B1 ++ encode_all_values B2.
Proof.
  intros H1 H2 Hcut.
  pose proof (encode_all_values_length (B1 ++ B2)) as Hl12.
  pose proof (encode_all_values_length B1) as Hl1.
  pose proof (encode_all_values_length B2) as Hl2.
  destruct (encode_all_values_numeric (B1 ++ B2)) as [Hp12 Hv12];
    [by apply Forall_app|].
  destruct (encode_all_values_numeric B1 H1) as [Hp1 Hv1].
  destruct (encode_all_values_numeric B2 H2) as [Hp2 Hv2].
  rewrite length_app, Nat2Z.inj_add in Hl12, Hp12, Hv12.
  apply Nat.Div0.div_exact in Hcut.
  set (k := (length B1 / 5)%nat) in Hcut.
  assert (Z.of_nat (length B1) = 5 * Z.of_nat k) as Hn1 by lia.
  rewrite Hn1 in *.
  replace (5 * Z.of_nat k * 8 + 4) with (4 + 8 * Z.of_nat k * 5) in Hl1 by lia.
  rewrite Z.div_add in Hl1 by lia. change (4 / 5) with 0 in Hl1.
  replace ((5 * Z.of_nat k + Z.of_nat (length B2)) * 8 + 4)
    with (Z.of_nat (length B2) * 8 + 4 + 8 * Z.of_nat k * 5) in Hl12 by lia.
  rewrite Z.div_add in Hl12 by lia.
  apply digits_unique.
  - apply Nat2Z.inj. rewrite length_app, Nat2Z.inj_add. lia.
  - apply encode_all_values_range.
  - apply Forall_app. split; apply encode_all_values_range.
  - rewrite digits_value_app, Hv12, Hv1, Hv2, bytes_value_app.
    rewrite Hl1, Hl12, Hl2 in *.
    set (m2 := (Z.of_nat (length B2) * 8 + 4) / 5) in *.
    set (n2 := Z.of_nat (length B2)) in *.
    replace (5 * (m2 + 8 * Z.of_nat k) - 8 * (5 * Z.of_nat k + n2))
      with (5 * m2 - 8 * n2) by lia.
    replace (5 * (0 + 8 * Z.of_nat k) - 8 * (5 * Z.of_nat k)) with 0 by lia.
    assert (0 ≤ n2) by (subst n2; lia).
    assert (256 ^ n2 * 2 ^ (5 * m2 - 8 * n2) = 32 ^ m2) as Hscale.
    { change 256 with (2 ^ 8). change 32 with (2 ^ 5).
      rewrite <- !Z.pow_mul_r, <- Z.pow_add_r by lia. f_equal. lia. }
    rewrite Z.pow_0_r, Z.mul_1_r, Z.mul_add_distr_r, <- Z.mul_assoc, Hscale. done.
Qed.

(** X18: an input can be encoded in chunks of a multiple of five bytes.
    For every codec, when [B1] has a multiple of five bytes, the encoding
    of [B1] followed by [B2] is the encoding of [B1] followed by the
    encoding of [B2], in both forms. *)
Theorem encode_in_chunks (this : Base32Crockford) (B1 B2 : list Z) :
  Forall is_byte B1 → Forall is_byte B2 → (length B1 mod 5 = 0)%nat →
  encodeToString this (B1 ++ B2) None None
    = encodeToString this B1 None None ++ encodeToString this B2 None None ∧
  encode this (B1 ++ B2) None None
    = encode this B1 None None ++ encode this B2 None None.
Proof.
  intros H1 H2 Hcut.
  rewrite !encodeToString_values, !encode_values_bytes, !slice_range_all.
  rewrite encode_all_values_chunks by done.
  by rewrite !fmap_app, concat_app.
Qed.

(** Five bytes and one more, with the default codec. *)
Lemma encode_in_chunks_witness :
  encodeToString base32Crockford ([1; 2; 3; 4; 5] ++ [6]) None None
    = encodeToString base32Crockford [1; 2; 3; 4; 5] None None
        ++ encodeToString base32Crockford [6] None None.
Proof.
  apply (encode_in_chunks base32Crockford [1; 2; 3; 4; 5] [6]).
  - repeat constructor; unfold is_byte; lia.
  - repeat constructor; unfold is_byte; lia.
  - reflexivity.
Defined.

Lemma resolve_app (table : gmap Z Z) (xs ys : list Z) :
  resolve table (xs ++ ys) = resolve table xs ++ resolve table ys.
Proof. unfold resolve. apply omap_app. Qed.

(** X19: a string can be decoded in chunks of a multiple of eight
    symbols.  With a codec the constructor returned, when all symbols are
    in the table and [s1] has a multiple of eight symbols, decoding [s1]
    followed by [s2] returns the bytes of [s1] followed by the bytes of
    [s2]. *)
Theorem decode_in_chunks (alphabet : option jsstring) (this : Base32Crockford)
    (s1 s2 : jsstring) :
  new_Base32Crockford alphabet = inr this →
  Forall (λ c, is_Some (alphabetLookupSymbol this !! c)) (s1 ++ s2) →
  (length s1 mod 8 = 0)%nat →
  ∃ bytes1 bytes2,
    decodeFromString this s1 None None = inr bytes1 ∧
    decodeFromString this s2 None None = inr bytes2 ∧
    decodeFromString this (s1 ++ s2) None None = inr (bytes1 ++ bytes2).
Proof.
  intros Hnew Hall Hcut.
  pose proof (constructed_table_range _ _ Hnew) as Hrange.
  pose proof Hall as Hall'. apply Forall_app in Hall' as [Hall1 Hall2].
  rewrite !decodeFromString_returns; rewrite !slice_range_all; [|done..].
  do 2 eexists. split_and!; [done..|]. f_equal.
  rewrite resolve_app, decode_values_app.
  pose proof (decode_values_numeric _ 8 0 0 ltac:(lia) ltac:(done)
                (resolve_range _ Hrange s1)) as Hnum.
  pose proof (decode_values_count (resolve (alphabetLookupSymbol this) s1) 8 0
                ltac:(lia)) as Hcount.
  pose proof (resolve_length _ _ Hall1) as Hlen.
  cbv zeta in Hnum. change (Z.shiftl 0 8) with 0 in Hnum.
  destruct (decode_values 8 0 (resolve _ s1)) as [[e1 s'] c'].
  unfold gathered_value in Hnum. cbn [fst snd] in Hnum |- *.
  destruct Hnum as (Hs' & _ & Hg & _ & Hc'). destruct Hcount as [_ Hcount].
  rewrite Hlen in Hcount.
  apply Nat.Div0.div_exact in Hcut.
  assert (s' = 8) as -> by lia.
  change (2 ^ (8 - 8)) with 1 in Hg.
  replace (Z.shiftr c' 8) with 0 in Hc' by lia. change (Z.shiftl 0 8) with 0 in Hc'.
  subst c'.
  destruct (decode_values 8 0 (resolve _ s2)) as [[e2 s2'] c2'].
  cbn [fst]. by rewrite fmap_app.
Qed.

(** Eight symbols and two more, with the default codec. *)
Lemma decode_in_chunks_witness :
  ∃ bytes1 bytes2,
    decodeFromString base32Crockford (js "91JPRV3F") None None = inr bytes1 ∧
    decodeFromString base32Crockford (js "EG") None None = inr bytes2 ∧
    decodeFromString base32Crockford (js "91JPRV3F" ++ js "EG") None None
      = inr (bytes1 ++ bytes2).
Proof.
  apply (decode_in_chunks None base32Crockford (js "91JPRV3F") (js "EG") eq_refl).
  - compute_done.
  - reflexivity.
Defined.

(** X20: decoding a string and encoding the bytes normalises the string,
    when its bits fill the bytes.  With a codec the constructor returned,
    for a string of table symbols whose surplus of bits over whole bytes,
    [k], is less than five and whose last [k] bits are zero,
    [encodeToString] of the decoded bytes is the string of the alphabet
    symbols for the table values of the string; when no symbol of the
    alphabet is an alias of a later one and the string consists of
    alphabet symbols, that is the string itself. *)
Theorem decode_then_encode (alphabet : option jsstring) (this : Base32Crockford)
    (string : jsstring) :
  new_Base32Crockford alphabet = inr this →
  Forall (λ c, is_Some (alphabetLookupSymbol this !! c)) string →
  let values := resolve (alphabetLookupSymbol this) string in
  let k := (5 * Z.of_nat (length string)) mod 8 in
  k < 5 → digits_value 0 values mod 2 ^ k = 0 →
  ∃ bytes,
    decodeFromString this string None None = inr bytes ∧
    encodeToString this bytes None None
      = concat (string_at (alphabetSymbol this) <$> values) ∧
    (alias_free (alphabetSymbol this) →
     Forall (λ c, c ∈ alphabetSymbol this) string →
     encodeToString this bytes None None = string).
Proof.
  intros Hnew Hall values k Hk Hzero.
  pose proof (constructed_table_range _ _ Hnew) as Hrange.
  pose proof (resolve_range _ Hrange string) as Hvalues. fold values in Hvalues.
  pose proof (resolve_length _ _ Hall) as Hlen. fold values in Hlen.
  rewrite decodeFromString_returns; rewrite slice_range_all; [|done].
  fold values.
  pose proof (decode_values_numeric _ 8 0 0 ltac:(lia) ltac:(done) Hvalues) as Hnum.
  pose proof (decode_values_count values 8 0 ltac:(lia)) as Hcount.
  cbv zeta in Hnum. change (Z.shiftl 0 8) with 0 in Hnum.
  destruct (decode_values 8 0 values) as [[emitted s'] c'].
  unfold gathered_value in Hnum. cbn [fst snd] in Hnum |- *.
  destruct Hnum as (Hs' & Hbytes & Hg & Hnum & _). destruct Hcount as [_ Hcount].
  rewrite Hlen in Hcount.
  change (0 * 2 ^ (8 - 8) + 0) with 0 in Hnum.
  assert (Forall is_byte emitted) as Hbytes' by done.
  rewrite mod_256_bytes by done.
  assert (8 - s' = (5 * Z.of_nat (length string)) mod 8) as Hk'.
  { apply Z.mod_unique with (q := Z.of_nat (length emitted)); lia. }
  subst k. rewrite <- Hk' in Hk, Hzero.
  assert (Z.shiftr c' s' = 0) as Hg0.
  { rewrite (Z.mod_unique (digits_value 0 values) (2 ^ (8 - s'))
               (bytes_value 0 emitted) (Z.shiftr c' s')); [done|lia|lia]. }
  rewrite Hg0, Z.add_0_r in Hnum.
  assert (encode_all_values emitted = values) as Henc.
  { destruct (encode_all_values_numeric emitted Hbytes') as [Hpad Hval].
    pose proof (encode_all_values_length emitted) as Hel.
    assert (Z.of_nat (length (encode_all_values emitted)) = Z.of_nat (length string))
      as Hsame.
    { rewrite Hel. symmetry. apply Z.div_unique with (r := s' - 4); lia. }
    apply digits_unique.
    - apply Nat2Z.inj. lia.
    - apply encode_all_values_range.
    - done.
    - rewrite Hval, Hsame, <- Hnum. f_equal. f_equal. lia. }
  exists emitted. split; [done|].
  rewrite encodeToString_values, slice_range_all, Henc. split; [done|].
  intros Hfree Hsym.
  destruct (constructed_codec _ _ Hnew) as (a & -> & _ & Hl & Hkeys & Hnodup).
  change (alphabetSymbol (instance_of a)) with a in *.
  apply symbols_of_resolve; [|done].
  by apply alias_free_consistent.
Qed.

(** The string [91JPRV3F] and, with two surplus bits, [ZW], with the
    default codec. *)
Lemma decode_then_encode_witness :
  (∃ bytes,
     decodeFromString base32Crockford (js "ZW") None None = inr bytes ∧
     encodeToString base32Crockford bytes None None
       = concat (string_at (alphabetSymbol base32Crockford)
                   <$> resolve (alphabetLookupSymbol base32Crockford) (js "ZW")) ∧
     (alias_free (alphabetSymbol base32Crockford) →
      Forall (λ c, c ∈ alphabetSymbol base32Crockford) (js "ZW") →
      encodeToString base32Crockford bytes None None = js "ZW")).
Proof.
  apply (decode_then_encode None base32Crockford (js "ZW") eq_refl).
  - compute_done.
  - vm_compute. reflexivity.
  - vm_compute. reflexivity.
Defined.
